(** * Cache replacement policies: a shallow embedding and its properties

    The development follows the Python sources of the simulator:
    [policies/LRU.py], [policies/Belady.py], [policies/ARC.py],
    [policies/LARC.py], [policies/N-Hit.py] and [LRU&N-Hit.py].

    Conventions of the embedding.
    - Keys (page numbers, byte offsets) and capacities are Python integers: [Z].
    - A call either returns, raises or loops for ever: the [outcome] monad.
    - An [OrderedDict] whose values are all [True] is the list of its keys,
      oldest first.
    - Python floats are IEEE binary64 numbers: Rocq's primitive floats; an
      integer that meets a float is converted, with [OverflowError] when it
      is out of range.
    - Request operations are the strings of the trace; a character stands
      for the Unicode code point of the same number, 0 to 255. *)

From Stdlib Require Import ZArith Lia String.
From Stdlib Require Import Floats.PrimFloat Floats.SpecFloat Floats.FloatOps.
From stdpp Require Import gmap list sets strings sorting.

#[local] Open Scope Z_scope.
Set Warnings "-clear-no-such-hyp".

(** ** Outcomes of a Python call *)

Inductive exn := KeyError | IndexError | ZeroDivisionError | OverflowError.

Inductive outcome (A : Type) :=
| Returns (a : A)
| Raises (e : exn)
| Loops.
Arguments Returns {A} a.
Arguments Raises {A} e.
Arguments Loops {A}.

#[export] Instance outcome_ret : MRet outcome := fun A a => Returns a.
#[export] Instance outcome_bind : MBind outcome := fun A B f m =>
  match m with
  | Returns a => f a
  | Raises e => Raises e
  | Loops => Loops
  end.

Definition returns {A} (m : outcome A) : Prop := ∃ a, m = Returns a.

(** A [for] loop over [xs] whose body may raise. *)
Fixpoint for_each {S X : Type} (body : S → X → outcome S) (xs : list X) (s : S)
  : outcome S :=
  match xs with
  | [] => Returns s
  | x :: rest => s' ← body s x; for_each body rest s'
  end.

(** ** Ordered dictionaries with constant value [True] *)

Module OD.

Abbreviation t := (list Z) (only parsing).

Definition empty : t := [].

(** [k in d] *)
Definition contains (k : Z) (d : t) : bool := bool_decide (k ∈ d).

(** [len(d)] *)
Definition len (d : t) : Z := Z.of_nat (length d).

(** [d.pop(k)]; the sources call it on a present key only. *)
Definition pop (k : Z) (d : t) : t := filter (λ x, x ≠ k) d.

(** [d[k] = True]: a present key keeps its position, a new one goes last. *)
Definition set (k : Z) (d : t) : t := if contains k d then d else d ++ [k].

(** [d.move_to_end(k)]; the sources call it on a present key only. *)
Definition move_to_end (k : Z) (d : t) : t := pop k d ++ [k].

(** [d.popitem(last=False)]: the oldest key, [KeyError] on an empty
    dictionary. *)
Definition popitem_first (d : t) : outcome (Z * t) :=
  match d with
  | [] => Raises KeyError
  | old :: rest => Returns (old, rest)
  end.

End OD.

(** ** Request statistics *)

Record Stats := {
read_req : Z; read_hit : Z; read_miss : Z;
write_req : Z; write_hit : Z; write_miss : Z;
total_req : Z; total_hit : Z; total_miss : Z
}.

(** ** [policies/LRU.py] *)

Module LRU.

Record LRUCache := {
  max_capacity : Z;
  cache_store : OD.t
}.

(** [LRUCache.__init__] *)
Definition init (max_capacity : Z) : outcome LRUCache :=
  Returns {| max_capacity := max_capacity; cache_store := OD.empty |}.

(** [LRUCache.access_or_update_cache] *)
Definition access_or_update_cache (self : LRUCache) (item : Z)
  : outcome (bool * LRUCache) :=
  if OD.contains item (cache_store self) then
    Returns (true, {| max_capacity := max_capacity self;
                      cache_store := OD.move_to_end item (cache_store self) |})
  else
    store ← (if OD.len (cache_store self) >=? max_capacity self
             then '(_, rest) ← OD.popitem_first (cache_store self); Returns rest
             else Returns (cache_store self));
    Returns (false, {| max_capacity := max_capacity self;
                       cache_store := OD.set item store |}).

(** Loop state of [simulate_lru_policy]; [log] is a ghost record of the
    value returned by each call of [access_or_update_cache]. *)
Record Sim := {
  engine : LRUCache;
  read_requests : Z; read_misses : Z;
  write_requests : Z; write_misses : Z;
  log : list bool
}.

Definition request (st : Sim) (r : Z * string) : outcome Sim :=
  let '(offset, operation_type) := r in
  if String.eqb operation_type "Read" then
    '(hit, e) ← access_or_update_cache (engine st) offset;
    Returns {| engine := e;
               read_requests := read_requests st + 1;
               read_misses := if (hit : bool) then read_misses st else read_misses st + 1;
               write_requests := write_requests st;
               write_misses := write_misses st;
               log := log st ++ [hit] |}
  else
    '(hit, e) ← access_or_update_cache (engine st) offset;
    Returns {| engine := e;
               read_requests := read_requests st;
               read_misses := read_misses st;
               write_requests := write_requests st + 1;
               write_misses := if (hit : bool) then write_misses st else write_misses st + 1;
               log := log st ++ [hit] |}.

(** [LRUCache.collect_statistics], the nine counters. *)
Definition collect_statistics (reads read_misses writes write_misses : Z) : Stats :=
  let total_requests := reads + writes in
  let total_misses := read_misses + write_misses in
  let total_hits := total_requests - total_misses in
  {| read_req := reads; read_hit := reads - read_misses; read_miss := read_misses;
     write_req := writes; write_hit := writes - write_misses;
     write_miss := write_misses;
     total_req := total_requests; total_hit := total_hits;
     total_miss := total_misses |}.

Definition start (e : LRUCache) : Sim :=
  {| engine := e; read_requests := 0; read_misses := 0;
     write_requests := 0; write_misses := 0; log := [] |}.

(** [cache_simulator] followed by [simulate_lru_policy] on the rows of the
    data set: the statistics, the final engine and the ghost log. *)
Definition simulate (cache_size : Z) (dataset : list (Z * string))
  : outcome (Stats * LRUCache * list bool) :=
  e ← init cache_size;
  st ← for_each request dataset (start e);
  Returns (collect_statistics (read_requests st) (read_misses st)
             (write_requests st) (write_misses st),
           engine st, log st).

End LRU.

(** ** [policies/Belady.py] *)

Module Belady.

(** A next-use index: a position of the sequence, or [INFINITY]
    ([float('inf')]). *)
Inductive NextUse := Idx (j : nat) | INFINITY.

#[export] Instance NextUse_eq_dec : EqDecision NextUse.
Proof. solve_decision. Defined.

(** [a < b] on next-use values; every index is below [INFINITY]. *)
Definition nu_ltb (a b : NextUse) : bool :=
  match a, b with
  | Idx i, Idx j => (i <? j)%nat
  | Idx _, INFINITY => true
  | INFINITY, _ => false
  end.

(** The heap holds the tuples [(-next_use, page)]; an entry [(nu, page)] stands
    for the tuple [(-nu, page)], and [entry_ltb] is Python's order on those
    tuples: the larger next use first, then the smaller page. *)
Definition entry : Type := NextUse * Z.

Definition entry_ltb (x y : entry) : bool :=
  nu_ltb y.1 x.1 || (bool_decide (x.1 = y.1) && (x.2 <? y.2)).

(** [heapq.heappush]. The queue is kept as the sorted list of its entries, so
    that [heapq.heappop] takes the head: the least tuple. *)
Fixpoint heappush (h : list entry) (e : entry) : list entry :=
  match h with
  | [] => [e]
  | x :: rest => if entry_ltb x e then x :: heappush rest e else e :: x :: rest
  end.

(** [OptimalCache]; the field [seen_pages] is never read or written after
    construction and is left out. *)
Record OptimalCache := {
  capacity : Z;
  cache : gset Z;
  heap : list entry;
  page_next_use : gmap Z NextUse
}.

(** [OptimalCache.__init__] *)
Definition init (capacity : Z) : outcome OptimalCache :=
  Returns {| capacity := capacity; cache := ∅; heap := []; page_next_use := ∅ |}.

(** [OptimalCache.is_hit] *)
Definition is_hit (self : OptimalCache) (page : Z) : bool :=
  bool_decide (page ∈ cache self).

(** The test of the lazy invalidation:
    [farthest_page in self.cache and
     self.page_next_use.get(farthest_page, -1) == farthest_nu].
    The default [-1] is no next-use value, so the comparison holds exactly
    when the table maps the page to the popped value. *)
Definition corroborated (cache : gset Z) (pnu : gmap Z NextUse) (e : entry) : bool :=
  bool_decide (e.2 ∈ cache) && bool_decide (pnu !! e.2 = Some e.1).

(** The loop [while self.heap: ... heappop ... break] of [access_page]:
    the evicted page (if any), and the heap, cache and table it leaves. *)
Fixpoint evict_loop (h : list entry) (cache : gset Z) (pnu : gmap Z NextUse)
  : option Z * list entry * gset Z * gmap Z NextUse :=
  match h with
  | [] => (None, [], cache, pnu)
  | e :: rest =>
      if corroborated cache pnu e
      then (Some e.2, rest, cache ∖ {[e.2]}, delete e.2 pnu)
      else evict_loop rest cache pnu
  end.

(** [OptimalCache.access_page]: [(hit, evicted_page)] and the new state. *)
Definition access_page (self : OptimalCache) (page : Z) (next_use : NextUse)
  : (bool * option Z) * OptimalCache :=
  if bool_decide (page ∈ cache self) then
    ((true, None),
     {| capacity := capacity self; cache := cache self;
        heap := heappush (heap self) (next_use, page);
        page_next_use := <[page := next_use]> (page_next_use self) |})
  else
    let '(evicted_page, h, c, pnu) :=
      if Z.of_nat (size (cache self)) >=? capacity self
      then evict_loop (heap self) (cache self) (page_next_use self)
      else (None, heap self, cache self, page_next_use self) in
    ((false, evicted_page),
     {| capacity := capacity self; cache := {[page]} ∪ c;
        heap := heappush h (next_use, page);
        page_next_use := <[page := next_use]> pnu |}).

(** [OptimalCache.current_occupancy] *)
Definition current_occupancy (self : OptimalCache) : Z := Z.of_nat (size (cache self)).

(** [sequence[i]] and [next_use[i]]: [IndexError] out of range. *)
Definition index {A} (l : list A) (i : nat) : outcome A :=
  match l !! i with
  | Some a => Returns a
  | None => Raises IndexError
  end.

(** Body of the reverse loop of [precompute_next_use]. *)
Definition precompute_step (sequence : list (Z * string))
  (st : list NextUse * gmap Z nat) (i : nat) : outcome (list NextUse * gmap Z nat) :=
  let '(next_use, last_occurrence) := st in
  '(page, _) ← index sequence i;
  let next_use :=
    match last_occurrence !! page with
    | Some j => <[i := Idx j]> next_use
    | None => next_use
    end in
  Returns (next_use, <[page := i]> last_occurrence).

(** [CacheSimulator.precompute_next_use]: [for i in range(N - 1, -1, -1)]. *)
Definition precompute_next_use (sequence : list (Z * string)) : outcome (list NextUse) :=
  let N := length sequence in
  st ← for_each (precompute_step sequence) (reverse (seq 0 N))
         (replicate N INFINITY, ∅);
  Returns st.1.

(** Loop state of [CacheSimulator.simulate]; [log] is a ghost record of the
    value of [cache.is_hit(page)] at each request. *)
Record Sim := {
  engine : OptimalCache;
  total_hits : Z; total_misses : Z;
  read_hits : Z; read_misses : Z;
  write_hits : Z; write_misses : Z;
  log : list bool
}.

Definition request (sequence : list (Z * string)) (next_use : list NextUse)
  (st : Sim) (i : nat) : outcome Sim :=
  '(page, req_type) ← index sequence i;
  nu ← index next_use i;
  if is_hit (engine st) page then
    let is_read := String.eqb req_type "read" in
    Returns {| engine := (access_page (engine st) page nu).2;
               total_hits := total_hits st + 1;
               total_misses := total_misses st;
               read_hits := if is_read then read_hits st + 1 else read_hits st;
               read_misses := read_misses st;
               write_hits := if is_read then write_hits st else write_hits st + 1;
               write_misses := write_misses st;
               log := log st ++ [true] |}
  else
    let is_read := String.eqb req_type "read" in
    Returns {| engine := (access_page (engine st) page nu).2;
               total_hits := total_hits st;
               total_misses := total_misses st + 1;
               read_hits := read_hits st;
               read_misses := if is_read then read_misses st + 1 else read_misses st;
               write_hits := write_hits st;
               write_misses := if is_read then write_misses st else write_misses st + 1;
               log := log st ++ [false] |}.

Definition start (e : OptimalCache) : Sim :=
  {| engine := e; total_hits := 0; total_misses := 0; read_hits := 0;
     read_misses := 0; write_hits := 0; write_misses := 0; log := [] |}.

(** The nine counters of the dictionary [simulate] returns. *)
Definition stats_of (n : Z) (st : Sim) : Stats :=
  {| read_req := read_hits st + read_misses st;
     read_hit := read_hits st; read_miss := read_misses st;
     write_req := write_hits st + write_misses st;
     write_hit := write_hits st; write_miss := write_misses st;
     total_req := n; total_hit := total_hits st; total_miss := total_misses st |}.

(** [CacheSimulator.simulate]: [for i in range(total_requests)]. *)
Definition simulate (cache_size : Z) (sequence : list (Z * string))
  (next_use : list NextUse) : outcome (Stats * OptimalCache * list bool) :=
  e ← init cache_size;
  let total_requests := length sequence in
  st ← for_each (request sequence next_use) (seq 0 total_requests) (start e);
  Returns (stats_of (Z.of_nat total_requests) st, engine st, log st).

(** The two calls [cache_simulator] makes on the sequence it has read:
    [precompute_next_use], then [simulate]. *)
Definition simulate_precomputed (cache_size : Z) (sequence : list (Z * string))
  : outcome (Stats * OptimalCache * list bool) :=
  next_use ← precompute_next_use sequence;
  simulate cache_size sequence next_use.

End Belady.

#[global] Existing Instance Belady.NextUse_eq_dec.

(** ** Python floats *)

Module PyFloat.

(** The float nearest to an integer, ties to even. *)
Definition round_int (z : Z) : float := SF2Prim (binary_normalize prec emax z 0 false).

(** The least magnitude whose nearest float is beyond the largest one: the
    middle of the largest float, 2^1024 - 2^971, and 2^1024. *)
Definition overflow_at : Z := 2 ^ 1024 - 2 ^ 970.
Arguments overflow_at : simpl never.

(** An integer operand of float arithmetic ([0.1 * n], [x / n], [n - x]) is
    converted to the nearest float; Python raises [OverflowError] ("int too
    large to convert to float") when that float would be infinite. *)
Definition of_int (z : Z) : outcome float :=
  if Z.abs z <? overflow_at then Returns (round_int z) else Raises OverflowError.

(** The literals [0.1], [0.9] and [100.0]. *)
Definition f0_1 : float := 0x1.999999999999ap-4%float.
Definition f0_9 : float := 0x1.ccccccccccccdp-1%float.
Definition f100 : float := 100%float.

(** [a / b] on floats: [ZeroDivisionError] when [b == 0.0]. *)
Definition truediv (a b : float) : outcome float :=
  if PrimFloat.eqb b 0%float then Raises ZeroDivisionError
  else Returns (PrimFloat.div a b).

(** [a / n] for a float [a] and an integer [n]: [n] is converted first, then
    the divisor is tested; [float(n) == 0.0] exactly when [n == 0]. *)
Definition truediv_int (a : float) (n : Z) : outcome float :=
  b ← of_int n;
  if n =? 0 then Raises ZeroDivisionError
  else Returns (PrimFloat.div a b).

(** [max(a, b)] and [min(a, b)] as Python evaluates them: the first argument
    unless the second is strictly beyond it. *)
Definition max (a b : float) : float := if PrimFloat.ltb a b then b else a.
Definition min (a b : float) : float := if PrimFloat.ltb b a then b else a.

(** [n > x] for an integer [n] and a float [x], which Python compares
    without converting [n]; the sources compare lengths, which [round_int]
    represents exactly. And [x <= y] on floats. *)
Definition int_gt (n : Z) (x : float) : bool := PrimFloat.ltb x (round_int n).
Definition le (x y : float) : bool := PrimFloat.leb x y.

End PyFloat.

(** ** [policies/ARC.py] *)

Module ARC.

Record ARCCache := {
  cache_size : Z;
  T1 : OD.t; T2 : OD.t; B1 : OD.t; B2 : OD.t;
  p : Z
}.

(** [ARCCache.__init__] *)
Definition init (cache_size : Z) : outcome ARCCache :=
  Returns {| cache_size := cache_size; T1 := OD.empty; T2 := OD.empty;
             B1 := OD.empty; B2 := OD.empty; p := 0 |}.

(** The loop [while len(self.T1) + len(self.T2) > self.cache_size]. An
    iteration that finds its list empty changes nothing, so the loop then
    never ends; every other iteration shortens [T1] or [T2], so
    [len(T1) + len(T2)] iterations of fuel are enough. *)
Fixpoint balance (fuel : nat) (s : ARCCache) : outcome ARCCache :=
  if OD.len (T1 s) + OD.len (T2 s) >? cache_size s then
    match fuel with
    | O => Loops
    | S fuel' =>
        if OD.len (T1 s) >? p s then
          match T1 s with
          | old :: rest =>
              balance fuel' {| cache_size := cache_size s; T1 := rest; T2 := T2 s;
                               B1 := OD.set old (B1 s); B2 := B2 s; p := p s |}
          | [] => Loops
          end
        else
          match T2 s with
          | old :: rest =>
              balance fuel' {| cache_size := cache_size s; T1 := T1 s; T2 := rest;
                               B1 := B1 s; B2 := OD.set old (B2 s); p := p s |}
          | [] => Loops
          end
    end
  else Returns s.

(** The loop [while len(T1) + len(T2) + len(B1) + len(B2) > 2 * cache_size];
    [len(B1) + len(B2)] iterations of fuel are enough. *)
Fixpoint trim (fuel : nat) (s : ARCCache) : outcome ARCCache :=
  if OD.len (T1 s) + OD.len (T2 s) + OD.len (B1 s) + OD.len (B2 s)
       >? 2 * cache_size s then
    match fuel with
    | O => Loops
    | S fuel' =>
        if OD.len (B1 s) >? p s then
          match B1 s with
          | _ :: rest =>
              trim fuel' {| cache_size := cache_size s; T1 := T1 s; T2 := T2 s;
                            B1 := rest; B2 := B2 s; p := p s |}
          | [] => Loops
          end
        else
          match B2 s with
          | _ :: rest =>
              trim fuel' {| cache_size := cache_size s; T1 := T1 s; T2 := T2 s;
                            B1 := B1 s; B2 := rest; p := p s |}
          | [] => Loops
          end
    end
  else Returns s.

(** The two loops that end a miss. *)
Definition rebalance (s : ARCCache) : outcome ARCCache :=
  s1 ← balance (length (T1 s) + length (T2 s)) s;
  trim (length (B1 s1) + length (B2 s1)) s1.

(** [ARCCache.process_request] *)
Definition process_request (self : ARCCache) (page : Z) : outcome (bool * ARCCache) :=
  if OD.contains page (T1 self) || OD.contains page (T2 self) then
    if OD.contains page (T1 self) then
      Returns (true, {| cache_size := cache_size self;
                        T1 := OD.pop page (T1 self); T2 := OD.set page (T2 self);
                        B1 := B1 self; B2 := B2 self; p := p self |})
    else
      Returns (true, {| cache_size := cache_size self;
                        T1 := T1 self; T2 := OD.move_to_end page (T2 self);
                        B1 := B1 self; B2 := B2 self; p := p self |})
  else if OD.contains page (B1 self) then
    s ← rebalance
      {| cache_size := cache_size self; T1 := T1 self; T2 := OD.set page (T2 self);
         B1 := OD.pop page (B1 self); B2 := B2 self;
         p := Z.min (cache_size self)
                (p self + Z.max 1 (OD.len (B2 self) / Z.max 1 (OD.len (B1 self)))) |};
    Returns (false, s)
  else if OD.contains page (B2 self) then
    s ← rebalance
      {| cache_size := cache_size self; T1 := T1 self; T2 := OD.set page (T2 self);
         B1 := B1 self; B2 := OD.pop page (B2 self);
         p := Z.max 0
                (p self - Z.max 1 (OD.len (B1 self) / Z.max 1 (OD.len (B2 self)))) |};
    Returns (false, s)
  else
    s ← rebalance
      {| cache_size := cache_size self; T1 := OD.set page (T1 self); T2 := T2 self;
         B1 := B1 self; B2 := B2 self; p := p self |};
    Returns (false, s).

(** Loop state of [ARCCache.simulate]; [log] is a ghost record of the value
    returned by each call of [process_request]. *)
Record Sim := {
  engine : ARCCache;
  read_requests : Z; write_requests : Z;
  read_hits : Z; write_hits : Z;
  read_misses : Z; write_misses : Z;
  log : list bool
}.

Definition request (st : Sim) (r : Z * string) : outcome Sim :=
  let '(page, operation) := r in
  if String.eqb operation "Read" then
    '(hit, e) ← process_request (engine st) page;
    Returns {| engine := e;
               read_requests := read_requests st + 1;
               write_requests := write_requests st;
               read_hits := if (hit : bool) then read_hits st + 1 else read_hits st;
               write_hits := write_hits st;
               read_misses := if (hit : bool) then read_misses st else read_misses st + 1;
               write_misses := write_misses st;
               log := log st ++ [hit] |}
  else if String.eqb operation "Write" then
    '(hit, e) ← process_request (engine st) page;
    Returns {| engine := e;
               read_requests := read_requests st;
               write_requests := write_requests st + 1;
               read_hits := read_hits st;
               write_hits := if (hit : bool) then write_hits st + 1 else write_hits st;
               read_misses := read_misses st;
               write_misses := if (hit : bool) then write_misses st else write_misses st + 1;
               log := log st ++ [hit] |}
  else Returns st.

Definition start (e : ARCCache) : Sim :=
  {| engine := e; read_requests := 0; write_requests := 0; read_hits := 0;
     write_hits := 0; read_misses := 0; write_misses := 0; log := [] |}.

Definition stats_of (st : Sim) : Stats :=
  {| read_req := read_requests st; read_hit := read_hits st;
     read_miss := read_misses st;
     write_req := write_requests st; write_hit := write_hits st;
     write_miss := write_misses st;
     total_req := read_requests st + write_requests st;
     total_hit := read_hits st + write_hits st;
     total_miss := read_misses st + write_misses st |}.

(** [ARCCache(cache_size).simulate(dataset, filename)] *)
Definition simulate (cache_size : Z) (dataset : list (Z * string))
  : outcome (Stats * ARCCache * list bool) :=
  e ← init cache_size;
  st ← for_each request dataset (start e);
  Returns (stats_of st, engine st, log st).

End ARC.

(** ** [policies/LARC.py] *)

Module LARC.

Record LARCCache := {
  cache_size : Z;
  cache : OD.t;
  recent_cache : OD.t;
  recent_cache_limit : float
}.

(** [LARCCache.__init__]: [0.1 * cache_size] converts the capacity. *)
Definition init (cache_size : Z) : outcome LARCCache :=
  c ← PyFloat.of_int cache_size;
  Returns {| cache_size := cache_size; cache := OD.empty; recent_cache := OD.empty;
             recent_cache_limit := PrimFloat.mul PyFloat.f0_1 c |}.

(** [LARCCache.process_request] *)
Definition process_request (self : LARCCache) (page : Z) : outcome (bool * LARCCache) :=
  if OD.contains page (cache self) then
    c ← PyFloat.of_int (cache_size self);
    q ← PyFloat.truediv c (PrimFloat.sub c (recent_cache_limit self));
    Returns (true,
      {| cache_size := cache_size self;
         cache := OD.move_to_end page (cache self);
         recent_cache := recent_cache self;
         recent_cache_limit :=
           PyFloat.max (PrimFloat.mul PyFloat.f0_1 c)
                       (PrimFloat.sub (recent_cache_limit self) q) |})
  else if OD.contains page (recent_cache self) then
    c ← PyFloat.of_int (cache_size self);
    q ← PyFloat.truediv c (recent_cache_limit self);
    let limit := PyFloat.min (PrimFloat.mul PyFloat.f0_9 c)
                             (PrimFloat.add (recent_cache_limit self) q) in
    let cache1 := OD.set page (cache self) in
    cache2 ← (if OD.len cache1 >? cache_size self
              then '(_, rest) ← OD.popitem_first cache1; Returns rest
              else Returns cache1);
    Returns (false,
      {| cache_size := cache_size self; cache := cache2;
         recent_cache := OD.pop page (recent_cache self);
         recent_cache_limit := limit |})
  else
    let recent1 := OD.set page (recent_cache self) in
    recent2 ← (if PyFloat.int_gt (OD.len recent1) (recent_cache_limit self)
               then '(_, rest) ← OD.popitem_first recent1; Returns rest
               else Returns recent1);
    Returns (false,
      {| cache_size := cache_size self; cache := cache self;
         recent_cache := recent2;
         recent_cache_limit := recent_cache_limit self |}).

(** Loop state of [LARCCache.simulate]; [log] is a ghost record of the value
    returned by each call of [process_request]. *)
Record Sim := {
  engine : LARCCache;
  read_requests : Z; write_requests : Z;
  read_hits : Z; write_hits : Z;
  read_misses : Z; write_misses : Z;
  log : list bool
}.

Definition request (st : Sim) (r : Z * string) : outcome Sim :=
  let '(page, operation) := r in
  if String.eqb operation "Read" then
    '(hit, e) ← process_request (engine st) page;
    Returns {| engine := e;
               read_requests := read_requests st + 1;
               write_requests := write_requests st;
               read_hits := if (hit : bool) then read_hits st + 1 else read_hits st;
               write_hits := write_hits st;
               read_misses := if (hit : bool) then read_misses st else read_misses st + 1;
               write_misses := write_misses st;
               log := log st ++ [hit] |}
  else if String.eqb operation "Write" then
    '(hit, e) ← process_request (engine st) page;
    Returns {| engine := e;
               read_requests := read_requests st;
               write_requests := write_requests st + 1;
               read_hits := read_hits st;
               write_hits := if (hit : bool) then write_hits st + 1 else write_hits st;
               read_misses := read_misses st;
               write_misses := if (hit : bool) then write_misses st else write_misses st + 1;
               log := log st ++ [hit] |}
  else Returns st.

Definition start (e : LARCCache) : Sim :=
  {| engine := e; read_requests := 0; write_requests := 0; read_hits := 0;
     write_hits := 0; read_misses := 0; write_misses := 0; log := [] |}.

Definition stats_of (st : Sim) : Stats :=
  {| read_req := read_requests st; read_hit := read_hits st;
     read_miss := read_misses st;
     write_req := write_requests st; write_hit := write_hits st;
     write_miss := write_misses st;
     total_req := read_requests st + write_requests st;
     total_hit := read_hits st + write_hits st;
     total_miss := read_misses st + write_misses st |}.

(** [LARCCache(cache_size).simulate(dataset, filename)] *)
Definition simulate (cache_size : Z) (dataset : list (Z * string))
  : outcome (Stats * LARCCache * list bool) :=
  e ← init cache_size;
  st ← for_each request dataset (start e);
  Returns (stats_of st, engine st, log st).

End LARC.

(** ** [policies/N-Hit.py]: eviction of the lowest count *)

Module NHit.

(** The tuples [(nhit, insertion_counter, item)] of the [SortedList], in
    Python's order on tuples. *)
Definition item3 : Type := Z * Z * Z.

Definition item3_ltb (x y : item3) : bool :=
  let '(n1, c1, i1) := x in
  let '(n2, c2, i2) := y in
  (n1 <? n2) || ((n1 =? n2) && ((c1 <? c2) || ((c1 =? c2) && (i1 <? i2)))).

(** [SortedList.add]: after the entries that are not greater. *)
Fixpoint sorted_add (l : list item3) (x : item3) : list item3 :=
  match l with
  | [] => [x]
  | y :: rest => if item3_ltb x y then x :: y :: rest else y :: sorted_add rest x
  end.

Record NHitCache := {
  capacity : Z;
  trigger_threshold : float;
  insertion_threshold : Z;
  cache : gmap Z Z;
  tracking : gmap Z Z;
  sorted_items : list item3;
  insertion_counter : Z
}.

(** [NHitCache.__init__] *)
Definition init (capacity : Z) (trigger_threshold : float) (insertion_threshold : Z)
  : outcome NHitCache :=
  Returns {| capacity := capacity; trigger_threshold := trigger_threshold;
             insertion_threshold := insertion_threshold;
             cache := ∅; tracking := ∅; sorted_items := []; insertion_counter := 0 |}.

(** [self.tracking[item]] on a [defaultdict(int)]; the sources read it after
    [access] has stored the key. *)
Definition tracked (self : NHitCache) (item : Z) : Z := default 0 (tracking self !! item).

(** [NHitCache._evict]: [del self.cache[victim_item]] raises [KeyError] on an
    absent key. *)
Definition _evict (self : NHitCache) : outcome NHitCache :=
  match sorted_items self with
  | [] => Returns self
  | (_, _, victim_item) :: rest =>
      match cache self !! victim_item with
      | None => Raises KeyError
      | Some _ =>
          Returns {| capacity := capacity self;
                     trigger_threshold := trigger_threshold self;
                     insertion_threshold := insertion_threshold self;
                     cache := delete victim_item (cache self);
                     tracking := tracking self;
                     sorted_items := rest;
                     insertion_counter := insertion_counter self |}
      end
  end.

(** [NHitCache.access] *)
Definition access (self : NHitCache) (item : Z) : NHitCache :=
  {| capacity := capacity self; trigger_threshold := trigger_threshold self;
     insertion_threshold := insertion_threshold self;
     cache := cache self;
     tracking := <[item := tracked self item + 1]> (tracking self);
     sorted_items := sorted_items self;
     insertion_counter := insertion_counter self |}.

(** [NHitCache.promote] *)
Definition promote (self : NHitCache) (item : Z) : outcome NHitCache :=
  s ← (if Z.of_nat (size (cache self)) >=? capacity self
       then _evict self else Returns self);
  let nhit := tracked s item in
  Returns {| capacity := capacity s; trigger_threshold := trigger_threshold s;
             insertion_threshold := insertion_threshold s;
             cache := <[item := nhit]> (cache s);
             tracking := tracking s;
             sorted_items := sorted_add (sorted_items s) (nhit, insertion_counter s + 1, item);
             insertion_counter := insertion_counter s + 1 |}.

(** [NHitCache.should_promote] *)
Definition should_promote (self : NHitCache) (item : Z) : outcome bool :=
  occupancy ← PyFloat.of_int (Z.of_nat (size (cache self)));
  occupancy_percent ←
    PyFloat.truediv_int (PrimFloat.mul PyFloat.f100 occupancy) (capacity self);
  if PyFloat.le occupancy_percent (trigger_threshold self) then Returns true
  else Returns (tracked self item >=? insertion_threshold self).

(** Loop state of [simulate_nhit]; [log] and [promoted] are ghost records:
    whether the request found its key in the cache, and whether it called
    [promote]. *)
Record Sim := {
  engine : NHitCache;
  total_requests : Z;
  read_hits : Z; read_misses : Z;
  write_hits : Z; write_misses : Z;
  cold_misses : Z;
  tracked_access : gset Z;
  log : list bool;
  promoted : list bool
}.

Definition request (st : Sim) (r : Z * string) : outcome Sim :=
  let '(offset, operation) := r in
  let is_read := String.eqb operation "Read" in
  if bool_decide (offset ∈ dom (cache (engine st))) then
    Returns {| engine := engine st;
               total_requests := total_requests st + 1;
               read_hits := if is_read then read_hits st + 1 else read_hits st;
               read_misses := read_misses st;
               write_hits := if is_read then write_hits st else write_hits st + 1;
               write_misses := write_misses st;
               cold_misses := cold_misses st;
               tracked_access := tracked_access st;
               log := log st ++ [true];
               promoted := promoted st ++ [false] |}
  else
    let cold := bool_decide (offset ∉ tracked_access st) in
    let e1 := access (engine st) offset in
    go ← should_promote e1 offset;
    e2 ← (if (go : bool) then promote e1 offset else Returns e1);
    Returns {| engine := e2;
               total_requests := total_requests st + 1;
               read_hits := read_hits st;
               read_misses := if is_read then read_misses st + 1 else read_misses st;
               write_hits := write_hits st;
               write_misses := if is_read then write_misses st else write_misses st + 1;
               cold_misses := if cold then cold_misses st + 1 else cold_misses st;
               tracked_access := if cold then {[offset]} ∪ tracked_access st
                                 else tracked_access st;
               log := log st ++ [false];
               promoted := promoted st ++ [go] |}.

Definition start (e : NHitCache) : Sim :=
  {| engine := e; total_requests := 0; read_hits := 0; read_misses := 0;
     write_hits := 0; write_misses := 0; cold_misses := 0; tracked_access := ∅;
     log := []; promoted := [] |}.

(** [collect_statistics] of [N-Hit.py]: the nine counters and the cold
    misses. *)
Definition collect_statistics (reads read_misses writes write_misses cold_misses : Z)
  : Stats * Z :=
  let total_requests := reads + writes in
  let total_misses := read_misses + write_misses in
  let total_hits := total_requests - total_misses in
  ({| read_req := reads; read_hit := reads - read_misses; read_miss := read_misses;
      write_req := writes; write_hit := writes - write_misses;
      write_miss := write_misses;
      total_req := total_requests; total_hit := total_hits;
      total_miss := total_misses |}, cold_misses).

Definition stats_of (st : Sim) : Stats * Z :=
  collect_statistics (read_hits st + read_misses st) (read_misses st)
    (write_hits st + write_misses st) (write_misses st) (cold_misses st).

(** [simulate_nhit] on the rows of the data frame. *)
Definition simulate (cache_size : Z) (trigger_threshold : float)
  (insertion_threshold : Z) (rows : list (Z * string)) : outcome (Stats * Z * Sim) :=
  e ← init cache_size trigger_threshold insertion_threshold;
  st ← for_each request rows (start e);
  Returns (stats_of st, st).

End NHit.

(** ** [LRU&N-Hit.py]: N-Hit promotion over an LRU cache *)

Module NHitLRU.

(** [str.strip] and [str.lower]. A character of an operation stands for the
    Unicode code point of the same number, 0 to 255. Among these Python's
    white space is U+0009 to U+000D, U+001C to U+001F, U+0020, U+0085 and
    U+00A0, and the upper-case letters are A to Z and U+00C0 to U+00DE
    without U+00D7, each 32 below its lower-case letter. *)
Definition is_space (a : Ascii.ascii) : bool :=
  let n := Ascii.nat_of_ascii a in
  ((9 <=? n) && (n <=? 13) || (28 <=? n) && (n <=? 32)
   || (n =? 133) || (n =? 160))%nat.

Fixpoint lstrip (s : string) : string :=
  match s with
  | String a rest => if is_space a then lstrip rest else s
  | EmptyString => EmptyString
  end.

Definition strip (s : string) : string :=
  String.rev (lstrip (String.rev (lstrip s))).

Definition lower_char (a : Ascii.ascii) : Ascii.ascii :=
  let n := Ascii.nat_of_ascii a in
  if ((65 <=? n) && (n <=? 90)
      || (192 <=? n) && (n <=? 222) && negb (n =? 215))%nat
  then Ascii.ascii_of_nat (n + 32) else a.

Fixpoint lower (s : string) : string :=
  match s with
  | String a rest => String (lower_char a) (lower rest)
  | EmptyString => EmptyString
  end.

Record LRUCache := {
  capacity : Z;
  cache : OD.t
}.

(** [LRUCache.__init__] *)
Definition LRUCache_init (capacity : Z) : outcome LRUCache :=
  Returns {| capacity := capacity; cache := OD.empty |}.

(** [LRUCache.is_present] *)
Definition is_present (self : LRUCache) (key : Z) : bool := OD.contains key (cache self).

(** [LRUCache.access] *)
Definition access (self : LRUCache) (key : Z) : bool * LRUCache :=
  if negb (OD.contains key (cache self)) then (false, self)
  else (true, {| capacity := capacity self; cache := OD.move_to_end key (cache self) |}).

(** [LRUCache.insert]: the evicted key, if any, and the new cache. *)
Definition insert (self : LRUCache) (key : Z) : outcome (option Z * LRUCache) :=
  let c := if OD.contains key (cache self) then OD.move_to_end key (cache self)
           else OD.set key (cache self) in
  if OD.len c >? capacity self then
    '(evicted_key, rest) ← OD.popitem_first c;
    Returns (Some evicted_key, {| capacity := capacity self; cache := rest |})
  else Returns (None, {| capacity := capacity self; cache := c |}).

(** [LRUCache.occupancy] *)
Definition occupancy (self : LRUCache) : Z := OD.len (cache self).

Record NHitPolicy := {
  trigger_threshold : float;
  N : Z;
  cache_capacity : Z;
  max_tracked_items : Z;
  access_counts : gmap Z Z;
  tracking_queue : list Z
}.

(** [NHitPolicy.__init__]; the tracking ratio is an integer (2 by default),
    so [int(tracking_ratio * cache_capacity)] is the product. *)
Definition NHitPolicy_init (cache_capacity : Z) (trigger_threshold : float)
  (N tracking_ratio : Z) : outcome NHitPolicy :=
  Returns {| trigger_threshold := trigger_threshold; N := N;
             cache_capacity := cache_capacity;
             max_tracked_items := tracking_ratio * cache_capacity;
             access_counts := ∅; tracking_queue := [] |}.

(** [NHitPolicy.should_promote] *)
Definition should_promote (self : NHitPolicy) (item : Z) (is_cache_hit : bool)
  (current_cache_occupancy : Z) : outcome bool :=
  occupancy ← PyFloat.of_int current_cache_occupancy;
  occupancy_percent ←
    PyFloat.truediv_int (PrimFloat.mul PyFloat.f100 occupancy) (cache_capacity self);
  if PyFloat.le occupancy_percent (trigger_threshold self) || is_cache_hit
  then Returns true
  else Returns (default 0 (access_counts self !! item) >=? N self).

Definition with_tracking (self : NHitPolicy) (counts : gmap Z Z) (queue : list Z)
  : NHitPolicy :=
  {| trigger_threshold := trigger_threshold self; N := N self;
     cache_capacity := cache_capacity self;
     max_tracked_items := max_tracked_items self;
     access_counts := counts; tracking_queue := queue |}.

(** [NHitPolicy.record_access]: [popleft] raises [IndexError] on an empty
    queue, [del] raises [KeyError] on an absent key. *)
Definition record_access (self : NHitPolicy) (item : Z) : outcome NHitPolicy :=
  match access_counts self !! item with
  | Some n => Returns (with_tracking self (<[item := n + 1]> (access_counts self))
                         (tracking_queue self))
  | None =>
      '(counts, queue) ←
        (if Z.of_nat (size (access_counts self)) >=? max_tracked_items self then
           match tracking_queue self with
           | [] => Raises IndexError
           | oldest_item :: rest =>
               match access_counts self !! oldest_item with
               | None => Raises KeyError
               | Some _ => Returns (delete oldest_item (access_counts self), rest)
               end
           end
         else Returns (access_counts self, tracking_queue self));
      Returns (with_tracking self (<[item := 1]> counts) (queue ++ [item]))
  end.

(** [deque.remove(item)] inside [try ... except ValueError: pass]: the first
    occurrence goes, if there is one. *)
Fixpoint remove_first (item : Z) (q : list Z) : list Z :=
  match q with
  | [] => []
  | x :: rest => if bool_decide (x = item) then rest else x :: remove_first item rest
  end.

(** [NHitPolicy.remove_from_tracking] *)
Definition remove_from_tracking (self : NHitPolicy) (item : Z) : NHitPolicy :=
  match access_counts self !! item with
  | Some _ => with_tracking self (delete item (access_counts self))
                (remove_first item (tracking_queue self))
  | None => self
  end.

(** Loop state of [simulate_nhit_lru]; [log] is a ghost record of [is_hit]
    at each row. *)
Record Sim := {
  lru_cache : LRUCache;
  nhit_policy : NHitPolicy;
  read_requests : Z; write_requests : Z;
  read_hits : Z; write_hits : Z;
  log : list bool
}.

(** The miss path shared by the two branches of the loop body. *)
Definition on_miss (lru : LRUCache) (pol : NHitPolicy) (item : Z) (is_hit : bool)
  : outcome (LRUCache * NHitPolicy) :=
  go ← should_promote pol item is_hit (occupancy lru);
  if (go : bool) then
    '(_, lru') ← insert lru item;
    Returns (lru', remove_from_tracking pol item)
  else Returns (lru, pol).

Definition request (st : Sim) (row : Z * string) : outcome Sim :=
  let '(item, raw_operation) := row in
  let operation_type := lower (strip raw_operation) in
  pol ← record_access (nhit_policy st) item;
  let is_hit := is_present (lru_cache st) item in
  if String.eqb operation_type "read" then
    '(lru, pol') ← (if is_hit then Returns ((access (lru_cache st) item).2, pol)
                    else on_miss (lru_cache st) pol item is_hit);
    Returns {| lru_cache := lru; nhit_policy := pol';
               read_requests := read_requests st + 1;
               write_requests := write_requests st;
               read_hits := if is_hit then read_hits st + 1 else read_hits st;
               write_hits := write_hits st;
               log := log st ++ [is_hit] |}
  else if String.eqb operation_type "write" then
    '(lru, pol') ← (if is_hit then Returns ((access (lru_cache st) item).2, pol)
                    else on_miss (lru_cache st) pol item is_hit);
    Returns {| lru_cache := lru; nhit_policy := pol';
               read_requests := read_requests st;
               write_requests := write_requests st + 1;
               read_hits := read_hits st;
               write_hits := if is_hit then write_hits st + 1 else write_hits st;
               log := log st ++ [is_hit] |}
  else
    Returns {| lru_cache := lru_cache st; nhit_policy := pol;
               read_requests := read_requests st;
               write_requests := write_requests st;
               read_hits := read_hits st; write_hits := write_hits st;
               log := log st |}.

Definition start (lru : LRUCache) (pol : NHitPolicy) : Sim :=
  {| lru_cache := lru; nhit_policy := pol; read_requests := 0;
     write_requests := 0; read_hits := 0; write_hits := 0; log := [] |}.

(** The counters [simulate_nhit_lru] prints: requests, hits and misses, per
    operation where it keeps them (it counts no read or write misses). *)
Record Totals := {
  t_read_requests : Z; t_read_hits : Z;
  t_write_requests : Z; t_write_hits : Z;
  t_total_requests : Z; t_total_hits : Z; t_total_misses : Z
}.

Definition totals_of (st : Sim) : Totals :=
  let total_requests := read_requests st + write_requests st in
  let total_hits := read_hits st + write_hits st in
  {| t_read_requests := read_requests st; t_read_hits := read_hits st;
     t_write_requests := write_requests st; t_write_hits := write_hits st;
     t_total_requests := total_requests; t_total_hits := total_hits;
     t_total_misses := total_requests - total_hits |}.

(** [simulate_nhit_lru] on the rows of the data frame. *)
Definition simulate (cache_size : Z) (trigger_threshold : float) (N tracking_ratio : Z)
  (rows : list (Z * string)) : outcome (Totals * Sim) :=
  lru ← LRUCache_init cache_size;
  pol ← NHitPolicy_init cache_size trigger_threshold N tracking_ratio;
  st ← for_each request rows (start lru pol);
  Returns (totals_of st, st).

End NHitLRU.

(** * Specifications *)

(** ** Next occurrences in a key sequence *)

(** The first position of [page] in [l], counted from [base]. *)
Fixpoint find_from (page : Z) (l : list Z) (base : nat) : Belady.NextUse :=
  match l with
  | [] => Belady.INFINITY
  | x :: rest => if decide (x = page) then Belady.Idx base
                 else find_from page rest (S base)
  end.

(** The first position at or after [t] where [page] is requested. *)
Definition next_occ (keys : list Z) (t : nat) (page : Z) : Belady.NextUse :=
  find_from page (drop t keys) t.

(** The keys of a request sequence. *)
Definition keys_of (rows : list (Z * string)) : list Z := rows.*1.

(** * Properties *)

(** ** The outcome monad and loops *)

Lemma bind_returns {A B} (m : outcome A) (f : A → outcome B) (b : B) :
  m ≫= f = Returns b → ∃ a, m = Returns a ∧ f a = Returns b.
Proof. destruct m; simpl; intros H; try discriminate. eauto. Qed.

Lemma for_each_app {S X} (body : S → X → outcome S) (xs ys : list X) (s : S) :
  for_each body (xs ++ ys) s = for_each body xs s ≫= for_each body ys.
Proof.
  revert s. induction xs as [|x xs IH]; intros s; simpl; [done|].
  destruct (body s x); simpl; auto.
Qed.

Lemma for_each_snoc {S X} (body : S → X → outcome S) (xs : list X) (x : X) (s : S) :
  for_each body (xs ++ [x]) s = for_each body xs s ≫= (λ s', body s' x).
Proof.
  rewrite for_each_app. destruct (for_each body xs s); simpl; auto.
  destruct (body a x); auto.
Qed.

(** A property kept by every returning iteration holds when the loop returns. *)
Lemma for_each_invariant {S X} (body : S → X → outcome S) (I : S → Prop) (xs : list X) :
  (∀ s x s', I s → body s x = Returns s' → I s') →
  ∀ s s', I s → for_each body xs s = Returns s' → I s'.
Proof.
  intros Hstep. induction xs as [|x xs IH]; intros s s' Hs; simpl.
  - intros [= <-]. done.
  - intros H. apply bind_returns in H as (s1 & H1 & H2). eauto.
Qed.

(** If every iteration returns from a state of [I] into [I], so does the loop. *)
Lemma for_each_total {S X} (body : S → X → outcome S) (I : S → Prop) (xs : list X) :
  (∀ s x, I s → ∃ s', body s x = Returns s' ∧ I s') →
  ∀ s, I s → ∃ s', for_each body xs s = Returns s' ∧ I s'.
Proof.
  intros Hstep. induction xs as [|x xs IH]; intros s Hs; simpl; [eauto|].
  destruct (Hstep s x Hs) as (s1 & -> & H1). simpl. eauto.
Qed.

(** ** Ordered dictionaries *)

Lemma OD_contains_true (k : Z) (d : list Z) : OD.contains k d = true ↔ k ∈ d.
Proof. unfold OD.contains. apply bool_decide_eq_true. Qed.

Lemma OD_contains_false (k : Z) (d : list Z) : OD.contains k d = false ↔ k ∉ d.
Proof. unfold OD.contains. apply bool_decide_eq_false. Qed.

Lemma OD_elem_of_pop (x k : Z) (d : list Z) : x ∈ OD.pop k d ↔ x ∈ d ∧ x ≠ k.
Proof. unfold OD.pop. rewrite list_elem_of_filter. tauto. Qed.

Lemma OD_elem_of_set (x k : Z) (d : list Z) : x ∈ OD.set k d ↔ x = k ∨ x ∈ d.
Proof.
  unfold OD.set. destruct (OD.contains k d) eqn:E.
  - apply OD_contains_true in E. split; [auto|]. intros [->|]; auto.
  - rewrite elem_of_app, list_elem_of_singleton. tauto.
Qed.

Lemma OD_elem_of_move_to_end (x k : Z) (d : list Z) : x ∈ OD.move_to_end k d ↔ x = k ∨ x ∈ d ∧ x ≠ k.
Proof.
  unfold OD.move_to_end.
  rewrite elem_of_app, OD_elem_of_pop, list_elem_of_singleton. tauto.
Qed.

Lemma OD_NoDup_pop (k : Z) (d : list Z) : NoDup d → NoDup (OD.pop k d).
Proof. apply NoDup_filter. Qed.

Lemma OD_NoDup_set (k : Z) (d : list Z) : NoDup d → NoDup (OD.set k d).
Proof.
  intros H. unfold OD.set. destruct (OD.contains k d) eqn:E; [done|].
  apply OD_contains_false in E. apply NoDup_app. split_and!; [done| |apply NoDup_singleton].
  intros x Hx ->%list_elem_of_singleton. done.
Qed.

Lemma OD_NoDup_move_to_end (k : Z) (d : list Z) : NoDup d → NoDup (OD.move_to_end k d).
Proof.
  intros H. unfold OD.move_to_end. apply NoDup_app.
  split_and!; [by apply OD_NoDup_pop| |apply NoDup_singleton].
  intros x Hx. rewrite list_elem_of_singleton. apply OD_elem_of_pop in Hx. tauto.
Qed.

Lemma OD_length_pop_le (k : Z) (d : list Z) : (length (OD.pop k d) ≤ length d)%nat.
Proof. apply length_filter. Qed.

Lemma OD_length_pop_in (k : Z) (d : list Z) : k ∈ d → (length (OD.pop k d) < length d)%nat.
Proof.
  unfold OD.pop. induction d as [|x d IH]; intros Hin.
  - by apply elem_of_nil in Hin.
  - rewrite filter_cons. destruct (decide (x ≠ k)) as [Hne|Heq].
    + simpl. apply elem_of_cons in Hin as [->|Hin]; [done|].
      specialize (IH Hin). lia.
    + pose proof (length_filter (λ y, y ≠ k) d). simpl. lia.
Qed.

Lemma OD_length_pop_NoDup (k : Z) (d : list Z) :
  NoDup d → k ∈ d → S (length (OD.pop k d)) = length d.
Proof.
  unfold OD.pop. induction d as [|x d IH]; intros Hnd Hin.
  - by apply elem_of_nil in Hin.
  - apply NoDup_cons in Hnd as [Hx Hnd]. rewrite filter_cons.
    destruct (decide (x ≠ k)) as [Hne|Heq].
    + simpl. apply elem_of_cons in Hin as [->|Hin]; [done|]. by rewrite IH.
    + assert (x = k) as -> by (destruct (decide (x = k)); tauto).
      simpl. f_equal. clear IH Hin Hnd. induction d as [|y d IH]; [done|].
      rewrite filter_cons. apply not_elem_of_cons in Hx as [Hy Hx].
      rewrite decide_True by congruence. simpl. by rewrite IH.
Qed.

Lemma OD_length_set_new (k : Z) (d : list Z) : k ∉ d → length (OD.set k d) = S (length d).
Proof.
  intros H. unfold OD.set. apply OD_contains_false in H. rewrite H.
  rewrite length_app. simpl. lia.
Qed.

Lemma OD_length_move_to_end (k : Z) (d : list Z) : k ∈ d → (length (OD.move_to_end k d) ≤ length d)%nat.
Proof.
  intros H. unfold OD.move_to_end. rewrite length_app. simpl.
  pose proof (OD_length_pop_in k d H). lia.
Qed.

Lemma OD_length_move_to_end_NoDup (k : Z) (d : list Z) :
  NoDup d → k ∈ d → length (OD.move_to_end k d) = length d.
Proof.
  intros Hnd H. unfold OD.move_to_end. rewrite length_app. simpl.
  pose proof (OD_length_pop_NoDup k d Hnd H). lia.
Qed.

(** ** Next occurrences *)

Lemma find_from_Idx page l base j :
  find_from page l base = Belady.Idx j →
  (base ≤ j)%nat ∧ l !! (j - base)%nat = Some page ∧
  ∀ k, (k < j - base)%nat → l !! k ≠ Some page.
Proof.
  revert base. induction l as [|x l IH]; intros base; simpl; [done|].
  destruct (decide (x = page)) as [->|Hne].
  - intros [= <-]. rewrite Nat.sub_diag. split_and!; [lia|done|lia].
  - intros H. apply IH in H as (Hle & Hj & Hk).
    replace (j - base)%nat with (S (j - S base)) by lia.
    split_and!; [lia|done|].
    intros [|k] Hlt; simpl; [congruence|]. apply Hk. lia.
Qed.

Lemma find_from_INFINITY page l base :
  find_from page l base = Belady.INFINITY → page ∉ l.
Proof.
  revert base. induction l as [|x l IH]; intros base; simpl.
  - intros _. apply not_elem_of_nil.
  - destruct (decide (x = page)); [done|]. intros H%IH.
    apply not_elem_of_cons. split; [congruence|done].
Qed.

Lemma next_occ_step keys t x page :
  keys !! t = Some x →
  next_occ keys t page =
    if decide (x = page) then Belady.Idx t else next_occ keys (S t) page.
Proof. intros H. unfold next_occ. by rewrite (drop_S _ _ _ H). Qed.

Lemma next_occ_end keys t page :
  (length keys ≤ t)%nat → next_occ keys t page = Belady.INFINITY.
Proof. intros H. unfold next_occ. by rewrite drop_ge. Qed.

(** What a next occurrence is: the smallest later position with the key. *)
Lemma next_occ_Idx keys t page j :
  next_occ keys t page = Belady.Idx j →
  (t ≤ j)%nat ∧ keys !! j = Some page ∧
  ∀ k, (t ≤ k < j)%nat → keys !! k ≠ Some page.
Proof.
  unfold next_occ. intros H. apply find_from_Idx in H as (Hle & Hj & Hk).
  rewrite lookup_drop in Hj. replace (t + (j - t))%nat with j in Hj by lia.
  split_and!; [done..|]. intros k Hlt.
  specialize (Hk (k - t)%nat). rewrite lookup_drop in Hk.
  replace (t + (k - t))%nat with k in Hk by lia. apply Hk. lia.
Qed.

Lemma next_occ_INFINITY keys t page j :
  next_occ keys t page = Belady.INFINITY → (t ≤ j)%nat → keys !! j ≠ Some page.
Proof.
  unfold next_occ. intros H%find_from_INFINITY Hle Hj. apply H.
  apply list_elem_of_lookup. exists (j - t)%nat.
  rewrite lookup_drop. by replace (t + (j - t))%nat with j by lia.
Qed.

(** ** [precompute_next_use] *)

(** State of the reverse loop when the positions from [t] on are done. *)
Definition precompute_inv (keys : list Z) (t : nat)
  (st : list Belady.NextUse * gmap Z nat) : Prop :=
  length st.1 = length keys ∧
  (∀ i, (i < t)%nat → (i < length keys)%nat → st.1 !! i = Some Belady.INFINITY) ∧
  (∀ i x, (t ≤ i)%nat → keys !! i = Some x →
          st.1 !! i = Some (next_occ keys (S i) x)) ∧
  (∀ page, next_occ keys t page =
           match st.2 !! page with
           | Some j => Belady.Idx j
           | None => Belady.INFINITY
           end).

Lemma precompute_step_inv sequence t st :
  (t < length sequence)%nat →
  precompute_inv (keys_of sequence) (S t) st →
  ∃ st', Belady.precompute_step sequence st t = Returns st' ∧
         precompute_inv (keys_of sequence) t st'.
Proof.
  intros Hlt (Hlen & Hlow & Hhigh & Hlast).
  destruct st as [nu last]. simpl in *.
  destruct (lookup_lt_is_Some_2 sequence t Hlt) as [[page op] Hrow].
  assert (keys_of sequence !! t = Some page) as Hkey.
  { unfold keys_of. by rewrite list_lookup_fmap, Hrow. }
  assert (length (keys_of sequence) = length sequence) as Hklen.
  { unfold keys_of. by rewrite length_fmap. }
  unfold Belady.precompute_step, Belady.index. rewrite Hrow. simpl.
  eexists. split; [reflexivity|].
  assert (∀ i, i ≠ t →
    (match last !! page with
     | Some j => <[t:=Belady.Idx j]> nu
     | None => nu
     end) !! i = nu !! i) as Hother.
  { intros i Hi. destruct (last !! page); [|done]. by rewrite list_lookup_insert_ne. }
  split_and!; simpl.
  - destruct (last !! page); [|done]. by rewrite length_insert.
  - intros i Hi Hi'. rewrite Hother by lia. apply Hlow; lia.
  - intros i x Hi Hx. destruct (decide (i = t)) as [->|Hne].
    + assert (x = page) as -> by congruence.
      rewrite Hlast. destruct (last !! page) as [j|].
      * apply list_lookup_insert_eq. lia.
      * apply Hlow; lia.
    + rewrite Hother by done. apply Hhigh; [lia|done].
  - intros q. rewrite (next_occ_step _ _ _ _ Hkey).
    destruct (decide (page = q)) as [->|Hne].
    + by rewrite lookup_insert_eq.
    + rewrite lookup_insert_ne by done. apply Hlast.
Qed.

Lemma precompute_loop sequence t st :
  (t ≤ length sequence)%nat →
  precompute_inv (keys_of sequence) t st →
  ∃ st', for_each (Belady.precompute_step sequence) (reverse (seq 0 t)) st = Returns st' ∧
         precompute_inv (keys_of sequence) 0 st'.
Proof.
  revert st. induction t as [|t IH]; intros st Hle Hinv.
  - simpl. eauto.
  - rewrite seq_S, reverse_app. simpl.
    destruct (precompute_step_inv sequence t st) as (st1 & -> & H1); [lia|done|].
    simpl. apply IH; [lia|done].
Qed.

Lemma precompute_next_use_returns sequence :
  ∃ next_use,
    Belady.precompute_next_use sequence = Returns next_use ∧
    length next_use = length sequence ∧
    ∀ i x, keys_of sequence !! i = Some x →
           next_use !! i = Some (next_occ (keys_of sequence) (S i) x).
Proof.
  unfold Belady.precompute_next_use.
  assert (length (keys_of sequence) = length sequence) as Hklen.
  { unfold keys_of. by rewrite length_fmap. }
  destruct (precompute_loop sequence (length sequence)
              (replicate (length sequence) Belady.INFINITY, ∅))
    as (st & -> & Hlen & _ & Hhigh & _); [done| |].
  - split_and!; simpl.
    + by rewrite length_replicate.
    + intros i _ Hi. apply lookup_replicate_2. lia.
    + intros i x Hi Hx. apply lookup_lt_Some in Hx. lia.
    + intros page. rewrite lookup_empty. apply next_occ_end. lia.
  - simpl. exists st.1. split_and!; [done|lia|].
    intros i x Hx. apply Hhigh; [lia|done].
Qed.

(** C5. For every request sequence, [precompute_next_use] returns an array
    as long as the sequence whose entry at [i] is the smallest index [j > i]
    holding the key of position [i], and [INFINITY] when that key does not
    occur again; it is computed by the reverse pass over the positions with
    the last-occurrence map ([precompute_step]). *)
Theorem C5_precompute_next_use_correct (sequence : list (Z * string)) :
  ∃ next_use,
    Belady.precompute_next_use sequence = Returns next_use ∧
    length next_use = length sequence ∧
    ∀ i page, keys_of sequence !! i = Some page →
      (∃ j, next_use !! i = Some (Belady.Idx j) ∧ (i < j)%nat ∧
            keys_of sequence !! j = Some page ∧
            ∀ k, (i < k < j)%nat → keys_of sequence !! k ≠ Some page) ∨
      (next_use !! i = Some Belady.INFINITY ∧
       ∀ j, (i < j)%nat → keys_of sequence !! j ≠ Some page).
Proof.
  destruct (precompute_next_use_returns sequence) as (nu & Hret & Hlen & Hspec).
  exists nu. split_and!; [done..|].
  intros i page Hi. rewrite (Hspec i page Hi).
  destruct (next_occ (keys_of sequence) (S i) page) as [j|] eqn:E.
  - left. exists j. apply next_occ_Idx in E as (Hle & Hj & Hk).
    split_and!; [done|lia|done|]. intros k Hk'. apply Hk. lia.
  - right. split; [done|]. intros j Hj.
    apply (next_occ_INFINITY _ _ _ j E). lia.
Qed.

(** ** Integers in float arithmetic *)

Lemma overflow_at_large : 2 ^ 64 < PyFloat.overflow_at.
Proof. by vm_compute. Qed.

(** [overflow_at] is where rounding to the nearest float first leaves the
    finite floats, on either side of 0. *)
Lemma overflow_at_threshold :
  PrimFloat.is_infinity (PyFloat.round_int PyFloat.overflow_at) = true ∧
  PrimFloat.is_infinity (PyFloat.round_int (PyFloat.overflow_at - 1)) = false ∧
  PrimFloat.is_infinity (PyFloat.round_int (- PyFloat.overflow_at)) = true ∧
  PrimFloat.is_infinity (PyFloat.round_int (1 - PyFloat.overflow_at)) = false.
Proof. by vm_compute. Qed.

Lemma of_int_returns (z : Z) :
  Z.abs z < PyFloat.overflow_at → PyFloat.of_int z = Returns (PyFloat.round_int z).
Proof.
  intros H. unfold PyFloat.of_int.
  destruct (Z.ltb_spec (Z.abs z) PyFloat.overflow_at); [done|lia].
Qed.

Lemma of_int_raises (z : Z) :
  PyFloat.overflow_at ≤ Z.abs z → PyFloat.of_int z = Raises OverflowError.
Proof.
  intros H. unfold PyFloat.of_int.
  destruct (Z.ltb_spec (Z.abs z) PyFloat.overflow_at); [lia|done].
Qed.

(** Whatever is between 0 and a convertible capacity is convertible. *)
Lemma of_int_below (n c : Z) :
  0 ≤ n ≤ c → c < PyFloat.overflow_at →
  PyFloat.of_int n = Returns (PyFloat.round_int n).
Proof. intros Hn Hc. apply of_int_returns. lia. Qed.

(** ** Construction *)

(** C9, as the code has it. No constructor checks its arguments, so invalid
    parameters are not rejected. With a capacity that is not positive, the
    constructors of LRU, Belady, ARC, N-Hit and both classes of N-Hit over
    LRU return, whatever the other parameters; the constructor of LARC
    evaluates [0.1 * cache_size] and returns too, unless the capacity is at
    or below -(2^1024 - 2^970), where the conversion raises [OverflowError].
    With a trigger threshold below 0 or above 100, the two N-Hit
    constructors return. *)
Theorem C9_invalid_parameters_not_rejected
  (capacity threshold_count ratio : Z) (trigger : float) :
  (capacity ≤ 0 →
   returns (LRU.init capacity) ∧
   returns (Belady.init capacity) ∧
   returns (ARC.init capacity) ∧
   returns (NHit.init capacity trigger threshold_count) ∧
   returns (NHitLRU.LRUCache_init capacity) ∧
   returns (NHitLRU.NHitPolicy_init capacity trigger threshold_count ratio) ∧
   (- PyFloat.overflow_at < capacity → returns (LARC.init capacity)) ∧
   (capacity ≤ - PyFloat.overflow_at → LARC.init capacity = Raises OverflowError)) ∧
  (PrimFloat.ltb trigger 0 = true ∨ PrimFloat.ltb 100 trigger = true →
   returns (NHit.init capacity trigger threshold_count) ∧
   returns (NHitLRU.NHitPolicy_init capacity trigger threshold_count ratio)).
Proof.
  unfold returns. split.
  - intros Hc. split_and!; try (eexists; reflexivity).
    + intros Hlow. unfold LARC.init. rewrite of_int_returns by lia.
      eexists. reflexivity.
    + intros Hlow. unfold LARC.init. by rewrite of_int_raises by lia.
  - intros _. split; eexists; reflexivity.
Qed.

(** C9 as stated fails: a capacity of 0 or -1 and a trigger threshold of 250
    percent are accepted at construction. The zero capacity surfaces later, at
    the first request: [KeyError] in the LRU engine, [ZeroDivisionError] in
    N-Hit. *)
Lemma C9_invalid_parameters_accepted :
  returns (LRU.init 0) ∧
  returns (ARC.init (-1)) ∧
  returns (LARC.init 0) ∧
  returns (NHit.init 10 250%float 2) ∧
  LRU.simulate 0 [(7, "Read"%string)] = Raises KeyError ∧
  (NHit.simulate 0 80%float 2 [(7, "Read"%string)] = Raises ZeroDivisionError).
Proof.
  unfold returns. split_and!; try (eexists; reflexivity); vm_compute; reflexivity.
Qed.

Lemma C9_invalid_parameters_not_rejected_witness :
  returns (LRU.init (-3)) ∧ returns (LARC.init (-3)) ∧
  returns (NHit.init (-3) 250%float 2) ∧
  returns (NHitLRU.NHitPolicy_init (-3) 250%float 2 2).
Proof.
  destruct (C9_invalid_parameters_not_rejected (-3) 2 2 250%float) as [Hc Ht].
  destruct (Hc ltac:(lia)) as (Hlru & _ & _ & _ & _ & _ & Hlarc & _).
  destruct (Ht ltac:(by right)) as [Hn Hp].
  split_and!; [done| |done|done].
  apply Hlarc. by vm_compute.
Defined.

(** ** ARC: the invariant *)

Definition list_disj (l1 l2 : list Z) : Prop := ∀ x, x ∈ l1 → x ∈ l2 → False.

(** The four lists hold no key twice and are pairwise disjoint, and [p] lies
    between 0 and the capacity. *)
Definition arc_wf (s : ARC.ARCCache) : Prop :=
  (NoDup (ARC.T1 s) ∧ NoDup (ARC.T2 s) ∧ NoDup (ARC.B1 s) ∧ NoDup (ARC.B2 s)) ∧
  (list_disj (ARC.T1 s) (ARC.T2 s) ∧ list_disj (ARC.T1 s) (ARC.B1 s) ∧
   list_disj (ARC.T1 s) (ARC.B2 s) ∧ list_disj (ARC.T2 s) (ARC.B1 s) ∧
   list_disj (ARC.T2 s) (ARC.B2 s) ∧ list_disj (ARC.B1 s) (ARC.B2 s)) ∧
  0 ≤ ARC.p s ≤ ARC.cache_size s.

Definition arc_total (s : ARC.ARCCache) : Z :=
  OD.len (ARC.T1 s) + OD.len (ARC.T2 s) + OD.len (ARC.B1 s) + OD.len (ARC.B2 s).

(** The invariant of claim C6. *)
Definition arc_inv (s : ARC.ARCCache) : Prop :=
  arc_wf s ∧
  OD.len (ARC.T1 s) + OD.len (ARC.T2 s) ≤ ARC.cache_size s ∧
  arc_total s ≤ 2 * ARC.cache_size s.

Ltac od_members :=
  repeat match goal with
    | H : _ ∈ OD.set _ _ |- _ => apply OD_elem_of_set in H
    | H : _ ∈ OD.pop _ _ |- _ => apply OD_elem_of_pop in H
    | H : _ ∈ OD.move_to_end _ _ |- _ => apply OD_elem_of_move_to_end in H
    | H : _ ∈ _ :: _ |- _ => apply elem_of_cons in H
    | H : NoDup (_ :: _) |- _ => apply NoDup_cons in H
    | H : _ ∧ _ |- _ => destruct H
    | H : _ ∨ _ |- _ => destruct H
    end; subst.

Ltac od_disj :=
  unfold list_disj in *; intros; od_members;
  try solve [ eauto using list_elem_of_here, list_elem_of_further
            | exfalso; eauto using list_elem_of_here, list_elem_of_further
            | congruence ].

Lemma arc_demote_T1 c t1 t2 b1 b2 p old :
  arc_wf {| ARC.cache_size := c; ARC.T1 := old :: t1; ARC.T2 := t2;
            ARC.B1 := b1; ARC.B2 := b2; ARC.p := p |} →
  arc_wf {| ARC.cache_size := c; ARC.T1 := t1; ARC.T2 := t2;
            ARC.B1 := OD.set old b1; ARC.B2 := b2; ARC.p := p |} ∧
  length (OD.set old b1) = S (length b1).
Proof.
  intros ((N1 & N2 & N3 & N4) & (D12 & D13 & D14 & D23 & D24 & D34) & Hp).
  simpl in *. apply NoDup_cons in N1 as [Hold N1].
  assert (old ∉ b1) as Hb1 by (intros ?; eapply D13; eauto using list_elem_of_here).
  split; [|by apply OD_length_set_new].
  split_and!; simpl; auto using OD_NoDup_set; od_disj.
Qed.

Lemma arc_demote_T2 c t1 t2 b1 b2 p old :
  arc_wf {| ARC.cache_size := c; ARC.T1 := t1; ARC.T2 := old :: t2;
            ARC.B1 := b1; ARC.B2 := b2; ARC.p := p |} →
  arc_wf {| ARC.cache_size := c; ARC.T1 := t1; ARC.T2 := t2;
            ARC.B1 := b1; ARC.B2 := OD.set old b2; ARC.p := p |} ∧
  length (OD.set old b2) = S (length b2).
Proof.
  intros ((N1 & N2 & N3 & N4) & (D12 & D13 & D14 & D23 & D24 & D34) & Hp).
  simpl in *. apply NoDup_cons in N2 as [Hold N2].
  assert (old ∉ b2) as Hb2 by (intros ?; eapply D24; eauto using list_elem_of_here).
  split; [|by apply OD_length_set_new].
  split_and!; simpl; auto using OD_NoDup_set; od_disj.
Qed.

Lemma arc_drop_B1 c t1 t2 b1 b2 p old :
  arc_wf {| ARC.cache_size := c; ARC.T1 := t1; ARC.T2 := t2;
            ARC.B1 := old :: b1; ARC.B2 := b2; ARC.p := p |} →
  arc_wf {| ARC.cache_size := c; ARC.T1 := t1; ARC.T2 := t2;
            ARC.B1 := b1; ARC.B2 := b2; ARC.p := p |}.
Proof.
  intros ((N1 & N2 & N3 & N4) & (D12 & D13 & D14 & D23 & D24 & D34) & Hp).
  simpl in *. apply NoDup_cons in N3 as [Hold N3].
  split_and!; simpl; auto; od_disj.
Qed.

Lemma arc_drop_B2 c t1 t2 b1 b2 p old :
  arc_wf {| ARC.cache_size := c; ARC.T1 := t1; ARC.T2 := t2;
            ARC.B1 := b1; ARC.B2 := old :: b2; ARC.p := p |} →
  arc_wf {| ARC.cache_size := c; ARC.T1 := t1; ARC.T2 := t2;
            ARC.B1 := b1; ARC.B2 := b2; ARC.p := p |}.
Proof.
  intros ((N1 & N2 & N3 & N4) & (D12 & D13 & D14 & D23 & D24 & D34) & Hp).
  simpl in *. apply NoDup_cons in N4 as [Hold N4].
  split_and!; simpl; auto; od_disj.
Qed.

(** The balancing loop ends, with at most [cache_size] resident keys; it moves
    keys from [T1] and [T2] to the ghost lists and leaves [p] alone. *)
Lemma arc_balance_spec fuel s :
  arc_wf s →
  (length (ARC.T1 s) + length (ARC.T2 s) ≤ fuel)%nat →
  ∃ s', ARC.balance fuel s = Returns s' ∧ arc_wf s' ∧
        ARC.cache_size s' = ARC.cache_size s ∧ ARC.p s' = ARC.p s ∧
        arc_total s' = arc_total s ∧
        OD.len (ARC.T1 s') + OD.len (ARC.T2 s') ≤ ARC.cache_size s'.
Proof.
  revert s. induction fuel as [|fuel IH]; intros s Hwf Hfuel.
  - assert (0 ≤ ARC.p s ≤ ARC.cache_size s) as Hp by apply Hwf.
    simpl. unfold OD.len.
    destruct (Z.gtb_spec (Z.of_nat (length (ARC.T1 s)) + Z.of_nat (length (ARC.T2 s)))
                (ARC.cache_size s)); [lia|].
    exists s. split_and!; auto.
  - simpl. unfold OD.len in *.
    destruct (Z.gtb_spec (Z.of_nat (length (ARC.T1 s)) + Z.of_nat (length (ARC.T2 s)))
                (ARC.cache_size s)) as [Hover|Hok].
    2:{ exists s. split_and!; auto. }
    destruct s as [c t1 t2 b1 b2 p]. simpl in *.
    assert (0 ≤ p ≤ c) as Hp by apply Hwf.
    destruct (Z.gtb_spec (Z.of_nat (length t1)) p) as [H1|H1].
    + destruct t1 as [|old t1]; [simpl in H1; lia|].
      destruct (arc_demote_T1 _ _ _ _ _ _ _ Hwf) as [Hwf' Hlen].
      destruct (IH _ Hwf') as (s' & -> & Hwf'' & Hc & Hp' & Htot & Hbound);
        [simpl in *; lia|].
      exists s'. split_and!; auto.
      rewrite Htot. unfold arc_total, OD.len. simpl. rewrite Hlen. lia.
    + destruct t2 as [|old t2]; [simpl in Hover; lia|].
      destruct (arc_demote_T2 _ _ _ _ _ _ _ Hwf) as [Hwf' Hlen].
      destruct (IH _ Hwf') as (s' & -> & Hwf'' & Hc & Hp' & Htot & Hbound);
        [simpl in *; lia|].
      exists s'. split_and!; auto.
      rewrite Htot. unfold arc_total, OD.len. simpl. rewrite Hlen. lia.
Qed.

(** The ghost-trimming loop ends, with at most [2 * cache_size] keys in the
    four lists; it drops ghost keys only. *)
Lemma arc_trim_spec fuel s :
  arc_wf s →
  OD.len (ARC.T1 s) + OD.len (ARC.T2 s) ≤ ARC.cache_size s →
  (length (ARC.B1 s) + length (ARC.B2 s) ≤ fuel)%nat →
  ∃ s', ARC.trim fuel s = Returns s' ∧ arc_wf s' ∧
        ARC.cache_size s' = ARC.cache_size s ∧ ARC.p s' = ARC.p s ∧
        ARC.T1 s' = ARC.T1 s ∧ ARC.T2 s' = ARC.T2 s ∧
        arc_total s' ≤ 2 * ARC.cache_size s'.
Proof.
  revert s. induction fuel as [|fuel IH]; intros s Hwf HT Hfuel.
  - assert (0 ≤ ARC.p s ≤ ARC.cache_size s) as Hp by apply Hwf.
    simpl. fold (arc_total s).
    destruct (Z.gtb_spec (arc_total s) (2 * ARC.cache_size s)) as [Hover|Hok].
    { unfold arc_total, OD.len in *. lia. }
    exists s. split_and!; auto.
  - simpl. fold (arc_total s).
    destruct (Z.gtb_spec (arc_total s) (2 * ARC.cache_size s)) as [Hover|Hok].
    2:{ exists s. split_and!; auto. }
    destruct s as [c t1 t2 b1 b2 p]. unfold arc_total, OD.len in *. simpl in *.
    assert (0 ≤ p ≤ c) as Hp by apply Hwf.
    destruct (Z.gtb_spec (Z.of_nat (length b1)) p) as [H1|H1].
    + destruct b1 as [|old b1]; [simpl in H1; lia|].
      pose proof (arc_drop_B1 _ _ _ _ _ _ _ Hwf) as Hwf'.
      destruct (IH _ Hwf') as (s' & -> & Hwf'' & Hc & Hp' & HT1 & HT2 & Htot);
        [simpl in *; lia..|].
      exists s'. split_and!; auto.
    + destruct b2 as [|old b2]; [simpl in Hover; lia|].
      pose proof (arc_drop_B2 _ _ _ _ _ _ _ Hwf) as Hwf'.
      destruct (IH _ Hwf') as (s' & -> & Hwf'' & Hc & Hp' & HT1 & HT2 & Htot);
        [simpl in *; lia..|].
      exists s'. split_and!; auto.
Qed.

Lemma arc_rebalance_spec s :
  arc_wf s →
  ∃ s', ARC.rebalance s = Returns s' ∧ arc_inv s' ∧
        ARC.cache_size s' = ARC.cache_size s ∧ ARC.p s' = ARC.p s.
Proof.
  intros Hwf. unfold ARC.rebalance.
  destruct (arc_balance_spec (length (ARC.T1 s) + length (ARC.T2 s)) s Hwf)
    as (s1 & -> & Hwf1 & Hc1 & Hp1 & _ & HT); [lia|]. simpl.
  destruct (arc_trim_spec (length (ARC.B1 s1) + length (ARC.B2 s1)) s1 Hwf1 HT)
    as (s2 & -> & Hwf2 & Hc2 & Hp2 & HT1 & HT2 & Htot); [lia|].
  exists s2. split_and!; [done| |congruence..].
  split_and!; [done| |done]. rewrite HT1, HT2, Hc2. done.
Qed.

(** The value [process_request] gives to [p]. *)
Definition arc_next_p (s : ARC.ARCCache) (page : Z) : Z :=
  if OD.contains page (ARC.T1 s) || OD.contains page (ARC.T2 s) then ARC.p s
  else if OD.contains page (ARC.B1 s) then
    Z.min (ARC.cache_size s)
      (ARC.p s + Z.max 1 (OD.len (ARC.B2 s) / Z.max 1 (OD.len (ARC.B1 s))))
  else if OD.contains page (ARC.B2 s) then
    Z.max 0 (ARC.p s - Z.max 1 (OD.len (ARC.B1 s) / Z.max 1 (OD.len (ARC.B2 s))))
  else ARC.p s.

Lemma arc_process_request_spec s page :
  arc_inv s →
  ∃ s', ARC.process_request s page =
          Returns (OD.contains page (ARC.T1 s) || OD.contains page (ARC.T2 s), s') ∧
        arc_inv s' ∧
        ARC.cache_size s' = ARC.cache_size s ∧
        ARC.p s' = arc_next_p s page.
Proof.
  intros (Hwf & HT & Htot).
  destruct s as [c t1 t2 b1 b2 p].
  unfold ARC.process_request, arc_next_p, arc_total, OD.len in *. simpl in *.
  destruct Hwf as ((N1 & N2 & N3 & N4) & (D12 & D13 & D14 & D23 & D24 & D34) & Hp).
  simpl in *.
  destruct (OD.contains page t1) eqn:E1; simpl.
  { (* hit in T1 *)
    apply OD_contains_true in E1.
    assert (page ∉ t2) as E2 by (intros ?; eapply D12; eauto).
    pose proof (OD_length_pop_NoDup page t1 N1 E1).
    pose proof (OD_length_set_new page t2 E2).
    eexists. split; [reflexivity|]. split; [|done].
    split; [|unfold arc_total, OD.len; simpl; lia].
    split_and!; simpl; auto using OD_NoDup_set, OD_NoDup_pop; od_disj. }
  apply OD_contains_false in E1.
  destruct (OD.contains page t2) eqn:E2; simpl.
  { (* hit in T2 *)
    apply OD_contains_true in E2.
    pose proof (OD_length_move_to_end_NoDup page t2 N2 E2).
    eexists. split; [reflexivity|]. split; [|done].
    split; [|unfold arc_total, OD.len; simpl; lia].
    split_and!; simpl; auto using OD_NoDup_move_to_end; od_disj. }
  apply OD_contains_false in E2.
  pose proof (OD_length_set_new page t2 E2) as Hset2.
  destruct (OD.contains page b1) eqn:E3.
  { (* ghost hit in B1 *)
    apply OD_contains_true in E3.
    generalize (Z.of_nat (length b2) `div` Z.max 1 (Z.of_nat (length b1))). intros q.
    match goal with |- context [ARC.rebalance ?s0] =>
      destruct (arc_rebalance_spec s0) as (s' & -> & Hinv & Hc & Hp') end.
    { split_and!; simpl; auto using OD_NoDup_set, OD_NoDup_pop; try lia; od_disj. }
    exists s'. simpl in *. auto. }
  apply OD_contains_false in E3.
  destruct (OD.contains page b2) eqn:E4.
  { (* ghost hit in B2 *)
    apply OD_contains_true in E4.
    generalize (Z.of_nat (length b1) `div` Z.max 1 (Z.of_nat (length b2))). intros q.
    match goal with |- context [ARC.rebalance ?s0] =>
      destruct (arc_rebalance_spec s0) as (s' & -> & Hinv & Hc & Hp') end.
    { split_and!; simpl; auto using OD_NoDup_set, OD_NoDup_pop; try lia; od_disj. }
    exists s'. simpl in *. auto. }
  apply OD_contains_false in E4.
  (* a new key *)
  match goal with |- context [ARC.rebalance ?s0] =>
    destruct (arc_rebalance_spec s0) as (s' & -> & Hinv & Hc & Hp') end.
  { split_and!; simpl; auto using OD_NoDup_set, OD_NoDup_pop; try lia; od_disj. }
  exists s'. simpl in *. auto.
Qed.

(** ** States an engine can reach *)

(** The states reached from the constructed state by returning calls. *)
Inductive reachable {S : Type} (init : outcome S) (step : S → S → Prop) : S → Prop :=
| reach_init s : init = Returns s → reachable init step s
| reach_step s s' : reachable init step s → step s s' → reachable init step s'.

Lemma reachable_invariant {S} (init : outcome S) (step : S → S → Prop) (I : S → Prop) :
  (∀ s, init = Returns s → I s) →
  (∀ s s', I s → step s s' → I s') →
  ∀ s, reachable init step s → I s.
Proof. intros H0 Hstep s Hr. induction Hr; eauto. Qed.

(** One request to the ARC engine. *)
Definition arc_step (s s' : ARC.ARCCache) : Prop :=
  ∃ page hit, ARC.process_request s page = Returns (hit, s').

(** The ARC engine on a sequence of pages. *)
Definition arc_run (s : ARC.ARCCache) (pages : list Z) : outcome ARC.ARCCache :=
  for_each (λ s page, r ← ARC.process_request s page; Returns r.2) pages s.

Lemma arc_run_reachable c s pages s' :
  reachable (ARC.init c) arc_step s → arc_run s pages = Returns s' →
  reachable (ARC.init c) arc_step s'.
Proof.
  unfold arc_run. revert s. induction pages as [|page pages IH]; intros s Hr; simpl.
  - intros [= <-]. done.
  - intros H. apply bind_returns in H as (s1 & H1 & H2).
    apply bind_returns in H1 as ([hit s2] & H1 & [= <-]).
    eapply IH; [|done]. eapply reach_step; [done|]. by exists page, hit.
Qed.

Lemma arc_reachable_inv c s :
  0 < c → reachable (ARC.init c) arc_step s → arc_inv s ∧ ARC.cache_size s = c.
Proof.
  intros Hc. apply (reachable_invariant _ _ (λ s, arc_inv s ∧ ARC.cache_size s = c)).
  - intros s0 [= <-]. split; [|done].
    unfold arc_inv, arc_wf, arc_total, OD.len, OD.empty. simpl.
    split_and!; try apply NoDup_nil_2; try lia;
      intros x Hx; by apply elem_of_nil in Hx.
  - intros s1 s2 [Hinv Hcs] (page & hit & Hstep).
    destruct (arc_process_request_spec s1 page Hinv) as (s2' & Heq & Hinv' & Hc' & _).
    rewrite Heq in Hstep. injection Hstep as _ <-. split; [done|congruence].
Qed.

(** C6. In the ARC engine with positive capacity, after every
    [process_request] call the lists T1, T2, B1, B2 are pairwise disjoint,
    |T1|+|T2| is at most the capacity, the four lengths sum to at most twice
    the capacity, and p lies between 0 and the capacity; and the next call
    returns (its two loops end). *)
Theorem C6_arc_invariants (c : Z) (s : ARC.ARCCache) :
  0 < c →
  reachable (ARC.init c) arc_step s →
  (list_disj (ARC.T1 s) (ARC.T2 s) ∧ list_disj (ARC.T1 s) (ARC.B1 s) ∧
   list_disj (ARC.T1 s) (ARC.B2 s) ∧ list_disj (ARC.T2 s) (ARC.B1 s) ∧
   list_disj (ARC.T2 s) (ARC.B2 s) ∧ list_disj (ARC.B1 s) (ARC.B2 s)) ∧
  OD.len (ARC.T1 s) + OD.len (ARC.T2 s) ≤ c ∧
  OD.len (ARC.T1 s) + OD.len (ARC.T2 s) + OD.len (ARC.B1 s) + OD.len (ARC.B2 s)
    ≤ 2 * c ∧
  0 ≤ ARC.p s ≤ c ∧
  ∀ page, returns (ARC.process_request s page).
Proof.
  intros Hc Hr. destruct (arc_reachable_inv c s Hc Hr) as [Hinv Hcs].
  pose proof Hinv as ((_ & HD & Hp) & HT & Htot). unfold arc_total in Htot.
  rewrite Hcs in *. split_and!; try done; try apply HD; try lia.
  intros page. destruct (arc_process_request_spec s page Hinv) as (s' & Heq & _).
  eexists. exact Heq.
Qed.

(** The state of scenario S3: capacity 4 after the pages 1,2,3,4,1,5,2,6,1. *)
Definition arc_s3_state : ARC.ARCCache :=
  {| ARC.cache_size := 4; ARC.T1 := [5; 6]; ARC.T2 := [2; 1];
     ARC.B1 := [3; 4]; ARC.B2 := []; ARC.p := 1 |}.

Lemma arc_s3_reachable : reachable (ARC.init 4) arc_step arc_s3_state.
Proof.
  eapply (arc_run_reachable 4 _ [1; 2; 3; 4; 1; 5; 2; 6; 1]).
  - apply reach_init. reflexivity.
  - vm_compute. reflexivity.
Qed.

Lemma C6_arc_invariants_witness :
  (list_disj [5; 6] [2; 1] ∧ list_disj [5; 6] [3; 4] ∧
   list_disj [5; 6] [] ∧ list_disj [2; 1] [3; 4] ∧
   list_disj [2; 1] [] ∧ list_disj [3; 4] []) ∧
  OD.len [5; 6] + OD.len [2; 1] ≤ 4 ∧
  OD.len [5; 6] + OD.len [2; 1] + OD.len [3; 4] + OD.len [] ≤ 2 * 4 ∧
  0 ≤ 1 ≤ 4 ∧
  ∀ page, returns (ARC.process_request arc_s3_state page).
Proof.
  apply (C6_arc_invariants 4 arc_s3_state); [lia | exact arc_s3_reachable].
Defined.

(** ** ARC: the update of [p] *)

(** Ceiling division, as claim C3 words the update of [p]. *)
Definition ceil_div (a b : Z) : Z := - ((- a) / b).

(** C3, as the code has it. On an access to a key of ghost list B1, [p]
    becomes [min(capacity, p + max(1, |B2| // max(1, |B1|)))], and on an access
    to a key of B2 it becomes [max(0, p - max(1, |B1| // max(1, |B2|)))], with
    the sizes taken before the update and [//] the floor division; both
    accesses are misses. *)
Theorem C3_arc_p_update_floor (c : Z) (s : ARC.ARCCache) (page : Z) :
  0 < c →
  reachable (ARC.init c) arc_step s →
  (page ∈ ARC.B1 s →
   ∃ s', ARC.process_request s page = Returns (false, s') ∧
         ARC.p s' = Z.min c (ARC.p s +
                      Z.max 1 (OD.len (ARC.B2 s) / Z.max 1 (OD.len (ARC.B1 s))))) ∧
  (page ∈ ARC.B2 s →
   ∃ s', ARC.process_request s page = Returns (false, s') ∧
         ARC.p s' = Z.max 0 (ARC.p s -
                      Z.max 1 (OD.len (ARC.B1 s) / Z.max 1 (OD.len (ARC.B2 s))))).
Proof.
  intros Hc Hr. destruct (arc_reachable_inv c s Hc Hr) as [Hinv Hcs].
  destruct (arc_process_request_spec s page Hinv) as (s' & Heq & _ & _ & Hp).
  pose proof Hinv as ((_ & (D12 & D13 & D14 & D23 & D24 & D34) & _) & _).
  unfold arc_next_p in Hp. split; intros Hin.
  - assert (OD.contains page (ARC.T1 s) = false) as E1.
    { apply OD_contains_false. intros ?. eapply D13; eauto. }
    assert (OD.contains page (ARC.T2 s) = false) as E2.
    { apply OD_contains_false. intros ?. eapply D23; eauto. }
    apply OD_contains_true in Hin.
    rewrite E1, E2, Hin in *. simpl in *. rewrite <- Hcs. eauto.
  - assert (OD.contains page (ARC.T1 s) = false) as E1.
    { apply OD_contains_false. intros ?. eapply D14; eauto. }
    assert (OD.contains page (ARC.T2 s) = false) as E2.
    { apply OD_contains_false. intros ?. eapply D24; eauto. }
    assert (OD.contains page (ARC.B1 s) = false) as E3.
    { apply OD_contains_false. intros ?. eapply D34; eauto. }
    apply OD_contains_true in Hin.
    rewrite E1, E2, E3, Hin in *. simpl in *. eauto.
Qed.

(** Capacity 5 after the pages 1,1,2,3,4,5,6,2,3,4,7,8,9,10: three keys in
    B1, two in B2. *)
Definition arc_ghost_state : ARC.ARCCache :=
  {| ARC.cache_size := 5; ARC.T1 := [8; 9; 10]; ARC.T2 := [3; 4];
     ARC.B1 := [5; 6; 7]; ARC.B2 := [1; 2]; ARC.p := 3 |}.

Lemma arc_ghost_reachable : reachable (ARC.init 5) arc_step arc_ghost_state.
Proof.
  eapply (arc_run_reachable 5 _ [1; 1; 2; 3; 4; 5; 6; 2; 3; 4; 7; 8; 9; 10]).
  - apply reach_init. reflexivity.
  - vm_compute. reflexivity.
Qed.

Lemma C3_arc_p_update_floor_witness :
  (1 ∈ ARC.B1 arc_ghost_state →
   ∃ s', ARC.process_request arc_ghost_state 1 = Returns (false, s') ∧
         ARC.p s' = Z.min 5 (3 + Z.max 1 (OD.len [1; 2] / Z.max 1 (OD.len [5; 6; 7])))) ∧
  (1 ∈ ARC.B2 arc_ghost_state →
   ∃ s', ARC.process_request arc_ghost_state 1 = Returns (false, s') ∧
         ARC.p s' = Z.max 0 (3 - Z.max 1 (OD.len [5; 6; 7] / Z.max 1 (OD.len [1; 2])))).
Proof.
  apply (C3_arc_p_update_floor 5 arc_ghost_state 1); [lia | exact arc_ghost_reachable].
Defined.

(** C3 as stated fails: in that state, reached from the constructed engine,
    the access to key 1 of B2 sets [p] to 3 - max(1, 3 // 2) = 2, where the ceiling
    division of the claim gives 3 - max(1, 2) = 1. *)
Lemma C3_ceiling_counterexample :
  arc_run {| ARC.cache_size := 5; ARC.T1 := []; ARC.T2 := []; ARC.B1 := [];
             ARC.B2 := []; ARC.p := 0 |}
    [1; 1; 2; 3; 4; 5; 6; 2; 3; 4; 7; 8; 9; 10] = Returns arc_ghost_state ∧
  1 ∈ ARC.B2 arc_ghost_state ∧
  (∃ s', ARC.process_request arc_ghost_state 1 = Returns (false, s') ∧ ARC.p s' = 2) ∧
  Z.max 0 (ARC.p arc_ghost_state -
           Z.max 1 (ceil_div (OD.len (ARC.B1 arc_ghost_state))
                      (Z.max 1 (OD.len (ARC.B2 arc_ghost_state))))) = 1.
Proof.
  split_and!.
  - vm_compute. reflexivity.
  - simpl. apply list_elem_of_here.
  - eexists. split; vm_compute; reflexivity.
  - vm_compute. reflexivity.
Qed.

(** ** LRU: the invariant *)

Definition lru_inv (c : Z) (s : LRU.LRUCache) : Prop :=
  LRU.max_capacity s = c ∧ NoDup (LRU.cache_store s) ∧ OD.len (LRU.cache_store s) ≤ c.

Definition lru_step (s s' : LRU.LRUCache) : Prop :=
  ∃ item hit, LRU.access_or_update_cache s item = Returns (hit, s').

(** A call returns whether the key was resident; afterwards the key is
    resident, and no other key has entered the cache. *)
Lemma lru_access_spec c s item :
  0 < c → lru_inv c s →
  ∃ s', LRU.access_or_update_cache s item =
          Returns (OD.contains item (LRU.cache_store s), s') ∧
        lru_inv c s' ∧
        item ∈ LRU.cache_store s' ∧
        ∀ x, x ∈ LRU.cache_store s' → x = item ∨ x ∈ LRU.cache_store s.
Proof.
  intros Hc (Hcap & Hnd & Hlen). destruct s as [cap store]. simpl in *. subst cap.
  unfold LRU.access_or_update_cache, OD.len in *. simpl.
  destruct (OD.contains item store) eqn:E.
  - apply OD_contains_true in E.
    pose proof (OD_length_move_to_end_NoDup item store Hnd E).
    eexists. split; [reflexivity|]. split_and!; simpl.
    + split_and!; simpl; [done|by apply OD_NoDup_move_to_end|unfold OD.len; lia].
    + apply OD_elem_of_move_to_end. auto.
    + intros x Hx. apply OD_elem_of_move_to_end in Hx. tauto.
  - apply OD_contains_false in E.
    destruct (Z.geb_spec (Z.of_nat (length store)) c) as [Hfull|Hroom].
    + destruct store as [|old rest]; [simpl in Hfull; lia|]. simpl.
      apply NoDup_cons in Hnd as [Hold Hnd].
      apply not_elem_of_cons in E as [Hne E].
      pose proof (OD_length_set_new item rest E).
      eexists. split; [reflexivity|]. split_and!; simpl.
      * split_and!; simpl; [done|by apply OD_NoDup_set|unfold OD.len; simpl in *; lia].
      * apply OD_elem_of_set. auto.
      * intros x Hx. apply OD_elem_of_set in Hx as [->|Hx]; [auto|].
        right. by apply list_elem_of_further.
    + simpl. pose proof (OD_length_set_new item store E).
      eexists. split; [reflexivity|]. split_and!; simpl.
      * split_and!; simpl; [done|by apply OD_NoDup_set|unfold OD.len; lia].
      * apply OD_elem_of_set. auto.
      * intros x Hx. apply OD_elem_of_set in Hx. tauto.
Qed.

Lemma lru_reachable_inv c s :
  0 < c → reachable (LRU.init c) lru_step s → lru_inv c s.
Proof.
  intros Hc. apply reachable_invariant.
  - intros s0 [= <-]. split_and!; simpl; [done|apply NoDup_nil_2|unfold OD.len; simpl; lia].
  - intros s1 s2 Hinv (item & hit & Hstep).
    destruct (lru_access_spec c s1 item Hc Hinv) as (s2' & Heq & Hinv' & _).
    rewrite Heq in Hstep. by injection Hstep as _ <-.
Qed.

(** ** Belady: the heap and the next-use table *)

Lemma heappush_elem (h : list Belady.entry) (e x : Belady.entry) :
  x ∈ Belady.heappush h e ↔ x = e ∨ x ∈ h.
Proof.
  induction h as [|y h IH]; simpl.
  - rewrite list_elem_of_singleton. split; [auto|]. intros [?|H]; [done|].
    by apply elem_of_nil in H.
  - destruct (Belady.entry_ltb y e); rewrite !elem_of_cons; [rewrite IH|]; tauto.
Qed.

(** What the pop loop does: it discards a prefix of entries that the cache
    or the table no longer corroborates, and evicts the page of the first
    corroborated entry, if there is one. *)
Lemma evict_loop_spec (h : list Belady.entry) (cache : gset Z)
  (pnu : gmap Z Belady.NextUse) :
  match Belady.evict_loop h cache pnu with
  | (None, h', c', pnu') =>
      h' = [] ∧ c' = cache ∧ pnu' = pnu ∧
      Forall (λ e, Belady.corroborated cache pnu e = false) h
  | (Some v, h', c', pnu') =>
      ∃ nu pre, h = pre ++ (nu, v) :: h' ∧
        Forall (λ e, Belady.corroborated cache pnu e = false) pre ∧
        Belady.corroborated cache pnu (nu, v) = true ∧
        c' = cache ∖ {[v]} ∧ pnu' = delete v pnu
  end.
Proof.
  induction h as [|e h IH]; simpl; [done|].
  destruct (Belady.corroborated cache pnu e) eqn:E.
  - destruct e as [nu v]. exists nu, []. simpl. by split_and!.
  - destruct (Belady.evict_loop h cache pnu) as [[[[v|] h'] c'] pnu'].
    + destruct IH as (nu & pre & -> & Hpre & Hv & -> & ->).
      exists nu, (e :: pre). split_and!; auto.
    + destruct IH as (-> & -> & -> & Hall). split_and!; auto.
Qed.

Lemma corroborated_true cache pnu nu v :
  Belady.corroborated cache pnu (nu, v) = true ↔ v ∈ cache ∧ pnu !! v = Some nu.
Proof.
  unfold Belady.corroborated. simpl.
  rewrite andb_true_iff, !bool_decide_eq_true. done.
Qed.

(** Every resident page has its current next-use value in the table and the
    matching entry in the heap. *)
Definition bel_tracked (s : Belady.OptimalCache) : Prop :=
  ∀ k, k ∈ Belady.cache s →
       ∃ nu, Belady.page_next_use s !! k = Some nu ∧ (nu, k) ∈ Belady.heap s.

Definition bel_inv (c : Z) (s : Belady.OptimalCache) : Prop :=
  Belady.capacity s = c ∧ bel_tracked s ∧ Z.of_nat (size (Belady.cache s)) ≤ c.

Definition bel_step (s s' : Belady.OptimalCache) : Prop :=
  ∃ page nu, s' = (Belady.access_page s page nu).2.

Lemma gset_size_insert_new (x : Z) (X : gset Z) :
  x ∉ X → size ({[x]} ∪ X) = S (size X).
Proof. intros H. rewrite size_union by set_solver. by rewrite size_singleton. Qed.

Lemma gset_size_remove (x : Z) (X : gset Z) :
  x ∈ X → S (size (X ∖ {[x]})) = size X.
Proof.
  intros H. rewrite size_difference by set_solver. rewrite size_singleton.
  assert (size X ≠ 0%nat); [|lia]. intros H0%size_empty_inv. set_solver.
Qed.

(** The outcome of the eviction on a miss with a full cache. *)
Lemma bel_evict_full s :
  bel_tracked s → Belady.cache s ≠ ∅ →
  ∃ nu v pre h',
    Belady.evict_loop (Belady.heap s) (Belady.cache s) (Belady.page_next_use s) =
      (Some v, h', Belady.cache s ∖ {[v]}, delete v (Belady.page_next_use s)) ∧
    Belady.heap s = pre ++ (nu, v) :: h' ∧
    Forall (λ e, Belady.corroborated (Belady.cache s) (Belady.page_next_use s) e = false)
      pre ∧
    v ∈ Belady.cache s ∧ Belady.page_next_use s !! v = Some nu.
Proof.
  intros Htr Hne.
  pose proof (evict_loop_spec (Belady.heap s) (Belady.cache s) (Belady.page_next_use s)) as H.
  destruct (Belady.evict_loop _ _ _) as [[[[v|] h'] c'] pnu'].
  - destruct H as (nu & pre & Hh & Hpre & Hv & -> & ->).
    apply corroborated_true in Hv as [Hv1 Hv2].
    exists nu, v, pre, h'. by split_and!.
  - destruct H as (_ & _ & _ & Hall). exfalso.
    apply set_choose_L in Hne as [k Hk].
    destruct (Htr k Hk) as (nu & Hnu & Hin).
    rewrite Forall_forall in Hall. specialize (Hall _ Hin).
    assert (Belady.corroborated (Belady.cache s) (Belady.page_next_use s) (nu, k) = true)
      by by apply corroborated_true.
    congruence.
Qed.

(** The three ways through [access_page]: a hit, a miss with room, and a
    miss that evicts the page of the first corroborated heap entry. *)
Inductive bel_access_case (s : Belady.OptimalCache) (page : Z) (nu : Belady.NextUse)
  : (bool * option Z) * Belady.OptimalCache → Prop :=
| bel_case_hit :
    page ∈ Belady.cache s →
    bel_access_case s page nu
      ((true, None),
       {| Belady.capacity := Belady.capacity s; Belady.cache := Belady.cache s;
          Belady.heap := Belady.heappush (Belady.heap s) (nu, page);
          Belady.page_next_use := <[page := nu]> (Belady.page_next_use s) |})
| bel_case_room :
    page ∉ Belady.cache s →
    Z.of_nat (size (Belady.cache s)) < Belady.capacity s →
    bel_access_case s page nu
      ((false, None),
       {| Belady.capacity := Belady.capacity s;
          Belady.cache := {[page]} ∪ Belady.cache s;
          Belady.heap := Belady.heappush (Belady.heap s) (nu, page);
          Belady.page_next_use := <[page := nu]> (Belady.page_next_use s) |})
| bel_case_evict nu_v v pre h' :
    page ∉ Belady.cache s →
    Belady.capacity s ≤ Z.of_nat (size (Belady.cache s)) →
    Belady.heap s = pre ++ (nu_v, v) :: h' →
    Forall (λ e, Belady.corroborated (Belady.cache s) (Belady.page_next_use s) e = false)
      pre →
    v ∈ Belady.cache s →
    Belady.page_next_use s !! v = Some nu_v →
    bel_access_case s page nu
      ((false, Some v),
       {| Belady.capacity := Belady.capacity s;
          Belady.cache := {[page]} ∪ (Belady.cache s ∖ {[v]});
          Belady.heap := Belady.heappush h' (nu, page);
          Belady.page_next_use := <[page := nu]> (delete v (Belady.page_next_use s)) |}).

Lemma bel_access_cases c s page nu :
  0 < c → bel_inv c s → bel_access_case s page nu (Belady.access_page s page nu).
Proof.
  intros Hc (Hcap & Htr & Hsize). unfold Belady.access_page.
  destruct (bool_decide (page ∈ Belady.cache s)) eqn:E.
  - apply bool_decide_eq_true in E. by constructor.
  - apply bool_decide_eq_false in E.
    destruct (Z.geb_spec (Z.of_nat (size (Belady.cache s))) (Belady.capacity s))
      as [Hfull|Hroom].
    + assert (Belady.cache s ≠ ∅) as Hne.
      { intros H0. rewrite H0, size_empty in Hfull. lia. }
      destruct (bel_evict_full s Htr Hne) as (nu_v & v & pre & h' & -> & ?).
      destruct_and!. by eapply bel_case_evict.
    + by constructor.
Qed.

Ltac bel_simpl :=
  cbn [Belady.cache Belady.heap Belady.page_next_use Belady.capacity fst snd] in *.

Lemma bel_access_inv c s page nu :
  0 < c → bel_inv c s → bel_inv c (Belady.access_page s page nu).2.
Proof.
  intros Hc Hinv. pose proof (bel_access_cases c s page nu Hc Hinv) as Hcase.
  destruct Hinv as (Hcap & Htr & Hsize).
  destruct Hcase as [Hin | Hnin Hroom | nu_v v pre h' Hnin Hfull Hheap Hpre Hv Hnuv];
    (split_and!; unfold bel_tracked; bel_simpl; [done| |]).
  - intros k Hk. destruct (decide (k = page)) as [->|Hne].
    + exists nu. rewrite lookup_insert_eq. split; [done|]. apply heappush_elem. auto.
    + destruct (Htr k Hk) as (nk & Hnk & Hink). exists nk.
      rewrite lookup_insert_ne by done. split; [done|]. apply heappush_elem. auto.
  - done.
  - intros k Hk. destruct (decide (k = page)) as [->|Hne].
    + exists nu. rewrite lookup_insert_eq. split; [done|]. apply heappush_elem. auto.
    + assert (k ∈ Belady.cache s) as Hk' by set_solver.
      destruct (Htr k Hk') as (nk & Hnk & Hink). exists nk.
      rewrite lookup_insert_ne by done. split; [done|]. apply heappush_elem. auto.
  - rewrite gset_size_insert_new by done. lia.
  - intros k Hk. destruct (decide (k = page)) as [->|Hne].
    + exists nu. rewrite lookup_insert_eq. split; [done|]. apply heappush_elem. auto.
    + assert (k ∈ Belady.cache s ∧ k ≠ v) as [Hk' Hkv] by set_solver.
      destruct (Htr k Hk') as (nk & Hnk & Hink). exists nk.
      rewrite lookup_insert_ne, lookup_delete_ne by done. split; [done|].
      apply heappush_elem. right.
      rewrite Hheap in Hink. apply elem_of_app in Hink as [Hink|Hink].
      * rewrite Forall_forall in Hpre. specialize (Hpre _ Hink).
        assert (Belady.corroborated (Belady.cache s) (Belady.page_next_use s) (nk, k)
                = true) by by apply corroborated_true.
        congruence.
      * apply elem_of_cons in Hink as [[= _ ?]|Hink]; [congruence|done].
  - rewrite gset_size_insert_new by set_solver.
    pose proof (gset_size_remove v _ Hv). lia.
Qed.

Lemma bel_reachable_inv c s :
  0 < c → reachable (Belady.init c) bel_step s → bel_inv c s.
Proof.
  intros Hc. apply reachable_invariant.
  - intros s0 [= <-]. split_and!; bel_simpl; [done| |rewrite size_empty; lia].
    intros k Hk. bel_simpl. by apply not_elem_of_empty in Hk.
  - intros s1 s2 Hinv (page & nu & ->). by apply bel_access_inv.
Qed.

Lemma corroborated_false cache pnu (e : Belady.entry) :
  Belady.corroborated cache pnu e = false ↔ e.2 ∉ cache ∨ pnu !! e.2 ≠ Some e.1.
Proof.
  unfold Belady.corroborated. rewrite andb_false_iff, !bool_decide_eq_false. done.
Qed.

(** Whatever the capacity, a victim is the page of a corroborated entry that
    follows a prefix of discarded, uncorroborated entries. *)
Lemma bel_victim_spec s page nu v :
  (Belady.access_page s page nu).1.2 = Some v →
  v ∈ Belady.cache s ∧
  ∃ nu_v discarded rest,
    Belady.heap s = discarded ++ (nu_v, v) :: rest ∧
    Belady.page_next_use s !! v = Some nu_v ∧
    Forall (λ e : Belady.entry,
              e.2 ∉ Belady.cache s ∨ Belady.page_next_use s !! e.2 ≠ Some e.1)
      discarded ∧
    Belady.cache (Belady.access_page s page nu).2 = {[page]} ∪ (Belady.cache s ∖ {[v]}).
Proof.
  unfold Belady.access_page.
  destruct (bool_decide (page ∈ Belady.cache s)); [done|].
  destruct (Z.of_nat (size (Belady.cache s)) >=? Belady.capacity s); [|done].
  pose proof (evict_loop_spec (Belady.heap s) (Belady.cache s) (Belady.page_next_use s)) as H.
  destruct (Belady.evict_loop _ _ _) as [[[[w|] h'] c'] pnu']; [|done].
  simpl. intros [= ->].
  destruct H as (nu_v & pre & Hh & Hpre & Hv & -> & ->).
  apply corroborated_true in Hv as [Hv1 Hv2]. split; [done|].
  exists nu_v, pre, h'. split_and!; [done..| |done].
  eapply Forall_impl; [exact Hpre|]. intros e He. by apply corroborated_false.
Qed.

Lemma bel_access_dom s page nu :
  Belady.cache s ⊆ dom (Belady.page_next_use s) →
  Belady.cache (Belady.access_page s page nu).2
    ⊆ dom (Belady.page_next_use (Belady.access_page s page nu).2).
Proof.
  intros Hdom. unfold Belady.access_page.
  destruct (bool_decide (page ∈ Belady.cache s)).
  { bel_simpl. rewrite dom_insert_L. set_solver. }
  destruct (Z.of_nat (size (Belady.cache s)) >=? Belady.capacity s).
  2:{ bel_simpl. rewrite dom_insert_L. set_solver. }
  pose proof (evict_loop_spec (Belady.heap s) (Belady.cache s) (Belady.page_next_use s)) as H.
  destruct (Belady.evict_loop _ _ _) as [[[[w|] h'] c'] pnu']; bel_simpl.
  - destruct H as (nu_v & pre & Hh & Hpre & Hv & -> & ->).
    rewrite dom_insert_L, dom_delete_L. set_solver.
  - destruct H as (_ & -> & -> & _). rewrite dom_insert_L. set_solver.
Qed.

(** C7. In the Belady engine, after every [access_page] call every key of
    the cache has an entry in [page_next_use]; and a page evicted by the next
    call is resident and is the page of a heap entry that the table
    corroborates, every entry popped before it being discarded because its
    key is outside the cache or its next use disagrees with the table. *)
Theorem C7_belady_lazy_invalidation
  (c : Z) (s : Belady.OptimalCache) (page : Z) (nu : Belady.NextUse) :
  reachable (Belady.init c) bel_step s →
  (∀ k, k ∈ Belady.cache s → is_Some (Belady.page_next_use s !! k)) ∧
  ∀ v, (Belady.access_page s page nu).1.2 = Some v →
    v ∈ Belady.cache s ∧
    ∃ nu_v discarded rest,
      Belady.heap s = discarded ++ (nu_v, v) :: rest ∧
      Belady.page_next_use s !! v = Some nu_v ∧
      Forall (λ e : Belady.entry,
                e.2 ∉ Belady.cache s ∨ Belady.page_next_use s !! e.2 ≠ Some e.1)
        discarded ∧
      Belady.cache (Belady.access_page s page nu).2 = {[page]} ∪ (Belady.cache s ∖ {[v]}).
Proof.
  intros Hr. split.
  - assert (Belady.cache s ⊆ dom (Belady.page_next_use s)) as Hdom.
    { revert s Hr. apply reachable_invariant.
      - intros s0 [= <-]. bel_simpl. set_solver.
      - intros s1 s2 Hinv (p & n & ->). by apply bel_access_dom. }
    intros k Hk. apply elem_of_dom. set_solver.
  - intros v. apply bel_victim_spec.
Qed.

(** The Belady engine on a sequence of pages with their next-use values. *)
Definition bel_run (s : Belady.OptimalCache) (reqs : list (Z * Belady.NextUse))
  : Belady.OptimalCache :=
  foldl (λ s r, (Belady.access_page s r.1 r.2).2) s reqs.

Lemma bel_run_reachable c s reqs :
  reachable (Belady.init c) bel_step s →
  reachable (Belady.init c) bel_step (bel_run s reqs).
Proof.
  unfold bel_run. revert s. induction reqs as [|[page nu] reqs IH]; intros s Hr; simpl.
  - done.
  - apply IH. eapply reach_step; [done|]. by exists page, nu.
Qed.

(** Scenario S2 before its last miss: capacity 2 after the pages 1, 2, 3, 1
    of the sequence 1,2,3,1,2,1. *)
Definition bel_s2_requests : list (Z * Belady.NextUse) :=
  [(1, Belady.Idx 3); (2, Belady.Idx 4); (3, Belady.INFINITY); (1, Belady.Idx 5)].

Definition bel_s2_state : Belady.OptimalCache :=
  Eval vm_compute in
    bel_run {| Belady.capacity := 2; Belady.cache := ∅; Belady.heap := [];
               Belady.page_next_use := ∅ |} bel_s2_requests.

Lemma bel_s2_reachable : reachable (Belady.init 2) bel_step bel_s2_state.
Proof.
  change bel_s2_state with
    (bel_run {| Belady.capacity := 2; Belady.cache := ∅; Belady.heap := [];
                Belady.page_next_use := ∅ |} bel_s2_requests).
  apply bel_run_reachable. apply reach_init. reflexivity.
Qed.

Lemma C7_belady_lazy_invalidation_witness :
  (∀ k, k ∈ Belady.cache bel_s2_state →
        is_Some (Belady.page_next_use bel_s2_state !! k)) ∧
  ∀ v, (Belady.access_page bel_s2_state 2 Belady.INFINITY).1.2 = Some v →
    v ∈ Belady.cache bel_s2_state ∧
    ∃ nu_v discarded rest,
      Belady.heap bel_s2_state = discarded ++ (nu_v, v) :: rest ∧
      Belady.page_next_use bel_s2_state !! v = Some nu_v ∧
      Forall (λ e : Belady.entry,
                e.2 ∉ Belady.cache bel_s2_state ∨
                Belady.page_next_use bel_s2_state !! e.2 ≠ Some e.1)
        discarded ∧
      Belady.cache (Belady.access_page bel_s2_state 2 Belady.INFINITY).2
        = {[2]} ∪ (Belady.cache bel_s2_state ∖ {[v]}).
Proof.
  exact (C7_belady_lazy_invalidation 2 bel_s2_state 2 Belady.INFINITY bel_s2_reachable).
Defined.

(** ** LARC: the primary cache *)

Definition larc_inv (c : Z) (s : LARC.LARCCache) : Prop :=
  LARC.cache_size s = c ∧ OD.len (LARC.cache s) ≤ c.

Definition larc_step (s s' : LARC.LARCCache) : Prop :=
  ∃ page hit, LARC.process_request s page = Returns (hit, s').

Lemma larc_process_request_inv c s page hit s' :
  larc_inv c s → LARC.process_request s page = Returns (hit, s') → larc_inv c s'.
Proof.
  intros (Hc & Hlen). destruct s as [cap cache recent limit]. simpl in *. subst cap.
  unfold LARC.process_request, OD.len in *. simpl.
  destruct (OD.contains page cache) eqn:E1.
  - apply OD_contains_true in E1. pose proof (OD_length_move_to_end page cache E1).
    intros Hret. apply bind_returns in Hret as (cf & _ & Hret).
    apply bind_returns in Hret as (q & _ & [= <- <-]).
    split; simpl; [done|unfold OD.len; lia].
  - apply OD_contains_false in E1. pose proof (OD_length_set_new page cache E1) as Hset.
    destruct (OD.contains page recent) eqn:E2.
    + intros Hret. apply bind_returns in Hret as (cf & _ & Hret).
      apply bind_returns in Hret as (q & _ & H).
      apply bind_returns in H as (cache2 & H2 & [= <- <-]).
      split; simpl; [done|]. unfold OD.len in *.
      destruct (Z.gtb_spec (Z.of_nat (length (OD.set page cache))) c) as [Hover|Hok].
      * destruct (OD.set page cache) as [|old rest] eqn:E; [discriminate|].
        simpl in H2. injection H2 as <-. simpl in *. lia.
      * injection H2 as <-. lia.
    + intros Hret. apply bind_returns in Hret as (recent2 & _ & [= <- <-]).
      split; simpl; [done|unfold OD.len; lia].
Qed.

Lemma larc_reachable_inv c s :
  0 < c → reachable (LARC.init c) larc_step s → larc_inv c s.
Proof.
  intros Hc. apply reachable_invariant.
  - intros s0 H0. unfold LARC.init in H0.
    apply bind_returns in H0 as (cf & _ & [= <-]).
    split; simpl; [done|unfold OD.len; simpl; lia].
  - intros s1 s2 Hinv (page & hit & Hstep). by eapply larc_process_request_inv.
Qed.

(** ** N-Hit with eviction of the lowest count: cache and index *)

Lemma sorted_add_perm (l : list NHit.item3) (x : NHit.item3) :
  NHit.sorted_add l x ≡ₚ x :: l.
Proof.
  induction l as [|y l IH]; simpl; [done|].
  destruct (NHit.item3_ltb x y); [done|]. rewrite IH. apply Permutation_swap.
Qed.

(** The index holds exactly the cached keys, each once; the cache is within
    the capacity. *)
Definition nhit_inv (c : Z) (e : NHit.NHitCache) : Prop :=
  NHit.capacity e = c ∧
  NoDup (NHit.sorted_items e).*2 ∧
  (∀ k, k ∈ (NHit.sorted_items e).*2 ↔ k ∈ dom (NHit.cache e)) ∧
  Z.of_nat (size (NHit.cache e)) ≤ c.

Definition nhit_step (st st' : NHit.Sim) : Prop :=
  ∃ r, NHit.request st r = Returns st'.

Lemma nhit_promote_spec c e item :
  0 < c → nhit_inv c e → item ∉ dom (NHit.cache e) →
  ∃ e', NHit.promote e item = Returns e' ∧ nhit_inv c e' ∧
        item ∈ dom (NHit.cache e').
Proof.
  intros Hc (Hcap & Hnd & Hkeys & Hsize) Hnew.
  destruct e as [cap trig thr cache tracking items counter]. simpl in *. subst cap.
  unfold NHit.promote. simpl.
  assert (∀ (cache' : gmap Z Z) items' n,
    NoDup items'.*2 → (∀ k, k ∈ items'.*2 ↔ k ∈ dom cache') →
    item ∉ dom cache' → Z.of_nat (size cache') < c →
    nhit_inv c
      {| NHit.capacity := c; NHit.trigger_threshold := trig;
         NHit.insertion_threshold := thr;
         NHit.cache := <[item := n]> cache'; NHit.tracking := tracking;
         NHit.sorted_items := NHit.sorted_add items' (n, counter + 1, item);
         NHit.insertion_counter := counter + 1 |}) as Hins.
  { intros cache' items' n Hnd' Hkeys' Hnew' Hsize'.
    assert ((NHit.sorted_add items' (n, counter + 1, item)).*2 ≡ₚ item :: items'.*2) as Hp.
    { rewrite sorted_add_perm. done. }
    split_and!; simpl.
    - done.
    - rewrite Hp. apply NoDup_cons. split; [|done]. by rewrite Hkeys'.
    - intros k. rewrite Hp, elem_of_cons, Hkeys', dom_insert_L. set_solver.
    - rewrite map_size_insert_None by by apply not_elem_of_dom. lia. }
  destruct (Z.geb_spec (Z.of_nat (size cache)) c) as [Hfull|Hroom].
  - unfold NHit._evict. simpl.
    destruct items as [|[[n0 c0] victim] rest].
    { exfalso. assert (cache = ∅) as ->.
      { apply dom_empty_iff_L. apply set_eq. intros k. rewrite <- Hkeys. set_solver. }
      rewrite map_size_empty in Hfull. lia. }
    simpl in *. apply NoDup_cons in Hnd as [Hv Hnd].
    assert (victim ∈ dom cache) as Hvin by (apply Hkeys; left).
    destruct (cache !! victim) as [nv|] eqn:Ev; [|by apply not_elem_of_dom in Ev].
    simpl. eexists. split; [reflexivity|]. split.
    + apply Hins; simpl.
      * done.
      * intros k. rewrite dom_delete_L. specialize (Hkeys k).
        rewrite elem_of_cons in Hkeys. set_solver.
      * rewrite dom_delete_L. set_solver.
      * rewrite map_size_delete_Some by done. lia.
    + simpl. rewrite dom_insert_L. set_solver.
  - simpl. eexists. split; [reflexivity|]. split.
    + apply Hins; simpl; auto; lia.
    + simpl. rewrite dom_insert_L. set_solver.
Qed.

(** [should_promote] returns when the capacity is positive and convertible. *)
Lemma nhit_should_promote_returns c e item :
  0 < c → c < PyFloat.overflow_at → nhit_inv c e →
  ∃ go, NHit.should_promote e item = Returns go.
Proof.
  intros Hc Hbig (Hcap & _ & _ & Hsize).
  unfold NHit.should_promote, PyFloat.truediv_int. rewrite Hcap.
  rewrite (of_int_below (Z.of_nat (size (NHit.cache e))) c) by lia. simpl.
  rewrite (of_int_returns c) by lia. simpl.
  destruct (Z.eqb_spec c 0) as [?|_]; [lia|]. simpl.
  match goal with |- context [if PyFloat.le ?a ?b then _ else _] =>
    destruct (PyFloat.le a b) end; eauto.
Qed.

Lemma nhit_request_inv c st r st' :
  0 < c → nhit_inv c (NHit.engine st) →
  NHit.request st r = Returns st' → nhit_inv c (NHit.engine st').
Proof.
  intros Hc Hinv Hreq. destruct r as [offset operation]. unfold NHit.request in Hreq.
  destruct (bool_decide (offset ∈ dom (NHit.cache (NHit.engine st)))) eqn:E.
  - by injection Hreq as <-.
  - apply bool_decide_eq_false in E.
    assert (nhit_inv c (NHit.access (NHit.engine st) offset)) as Hinv1 by exact Hinv.
    apply bind_returns in Hreq as (go & _ & Hreq).
    apply bind_returns in Hreq as (e2 & He2 & [= <-]). simpl.
    destruct go; [|by injection He2 as <-].
    destruct (nhit_promote_spec c _ offset Hc Hinv1 E) as (e' & He' & Hinv' & _).
    congruence.
Qed.

Lemma nhit_request_spec c st r :
  0 < c → c < PyFloat.overflow_at → nhit_inv c (NHit.engine st) →
  ∃ st', NHit.request st r = Returns st' ∧ nhit_inv c (NHit.engine st').
Proof.
  intros Hc Hbig Hinv.
  assert (∃ st', NHit.request st r = Returns st') as (st' & Hreq).
  { destruct r as [offset operation]. unfold NHit.request.
    destruct (bool_decide (offset ∈ dom (NHit.cache (NHit.engine st)))) eqn:E; [eauto|].
    apply bool_decide_eq_false in E.
    assert (nhit_inv c (NHit.access (NHit.engine st) offset)) as Hinv1 by exact Hinv.
    destruct (nhit_should_promote_returns c _ offset Hc Hbig Hinv1) as (go & ->). simpl.
    destruct go; [|simpl; eauto].
    destruct (nhit_promote_spec c _ offset Hc Hinv1 E) as (e' & -> & _). simpl. eauto. }
  exists st'. split; [done|]. by eapply nhit_request_inv.
Qed.

Lemma nhit_reachable_inv c trig thr st :
  0 < c →
  reachable (NHit.init c trig thr ≫= λ e, Returns (NHit.start e)) nhit_step st →
  nhit_inv c (NHit.engine st).
Proof.
  intros Hc. apply (reachable_invariant _ _ (λ st, nhit_inv c (NHit.engine st))).
  - intros s0 [= <-]. split_and!; simpl; [done|apply NoDup_nil_2| |].
    + intros k. rewrite dom_empty_L. split; intros H; [by apply elem_of_nil in H|].
      by apply not_elem_of_empty in H.
    + rewrite map_size_empty. lia.
  - intros s1 s2 Hinv (r & Hstep). by eapply nhit_request_inv.
Qed.

(** ** N-Hit over LRU: cache and tracker *)

Definition nhitlru_step (st st' : NHitLRU.Sim) : Prop :=
  ∃ r, NHitLRU.request st r = Returns st'.

(** The LRU cache is within its capacity. *)
Definition nhitlru_safe (c : Z) (st : NHitLRU.Sim) : Prop :=
  NHitLRU.capacity (NHitLRU.lru_cache st) = c ∧
  OD.len (NHitLRU.cache (NHitLRU.lru_cache st)) ≤ c.

(** The tracker: the queue holds exactly the counted keys, each once, and
    tracks at least one key. *)
Definition nhitlru_tracker (c : Z) (pol : NHitLRU.NHitPolicy) : Prop :=
  NHitLRU.cache_capacity pol = c ∧
  0 < NHitLRU.max_tracked_items pol ∧
  NoDup (NHitLRU.tracking_queue pol) ∧
  ∀ k, k ∈ NHitLRU.tracking_queue pol ↔ k ∈ dom (NHitLRU.access_counts pol).

Lemma nhitlru_insert_spec c lru key :
  0 < c → NHitLRU.capacity lru = c → OD.len (NHitLRU.cache lru) ≤ c →
  ∃ ev lru', NHitLRU.insert lru key = Returns (ev, lru') ∧
             NHitLRU.capacity lru' = c ∧ OD.len (NHitLRU.cache lru') ≤ c.
Proof.
  intros Hc Hcap Hlen. destruct lru as [cap cache]. simpl in *. subst cap.
  unfold NHitLRU.insert, OD.len in *. simpl.
  set (c1 := if OD.contains key cache then OD.move_to_end key cache
             else OD.set key cache).
  assert (length c1 ≤ S (length cache))%nat as Hc1.
  { subst c1. destruct (OD.contains key cache) eqn:E.
    - apply OD_contains_true in E. pose proof (OD_length_move_to_end key cache E). lia.
    - apply OD_contains_false in E. rewrite OD_length_set_new by done. lia. }
  destruct (Z.gtb_spec (Z.of_nat (length c1)) c) as [Hover|Hok].
  - destruct c1 as [|old rest]; [simpl in Hover; lia|]. simpl.
    eexists _, _. split; [reflexivity|]. simpl in *. split; [done|lia].
  - eexists _, _. split; [reflexivity|]. simpl. split; [done|lia].
Qed.

Lemma nhitlru_access_len c lru key :
  NHitLRU.capacity lru = c → OD.len (NHitLRU.cache lru) ≤ c →
  NHitLRU.capacity (NHitLRU.access lru key).2 = c ∧
  OD.len (NHitLRU.cache (NHitLRU.access lru key).2) ≤ c.
Proof.
  intros Hcap Hlen. unfold NHitLRU.access.
  destruct (OD.contains key (NHitLRU.cache lru)) eqn:E; simpl; [|done].
  apply OD_contains_true in E. split; [done|]. unfold OD.len in *.
  pose proof (OD_length_move_to_end key _ E). lia.
Qed.

Lemma remove_first_elem (item k : Z) (q : list Z) :
  NoDup q → k ∈ NHitLRU.remove_first item q ↔ k ∈ q ∧ k ≠ item.
Proof.
  induction q as [|x q IH]; simpl; intros Hnd.
  - split; [intros H; by apply elem_of_nil in H|intros [H _]; by apply elem_of_nil in H].
  - apply NoDup_cons in Hnd as [Hx Hnd]. case_bool_decide as Hxi.
    + subst x. rewrite elem_of_cons. split; [|tauto].
      intros Hk. split; [auto|]. intros ->. done.
    + rewrite !elem_of_cons, IH by done. split; [|tauto].
      intros [->|[? ?]]; auto.
Qed.

Lemma remove_first_NoDup (item : Z) (q : list Z) :
  NoDup q → NoDup (NHitLRU.remove_first item q).
Proof.
  induction q as [|x q IH]; simpl; intros Hnd; [done|].
  pose proof Hnd as [Hx Hnd']%NoDup_cons. case_bool_decide; [done|].
  apply NoDup_cons. split; [|auto]. rewrite remove_first_elem by done. tauto.
Qed.

Lemma nhitlru_record_access_spec c pol item :
  nhitlru_tracker c pol →
  ∃ pol', NHitLRU.record_access pol item = Returns pol' ∧ nhitlru_tracker c pol'.
Proof.
  intros (Hcap & Hmax & Hnd & Hkeys).
  destruct pol as [trig N cap maxt counts queue]. simpl in *. subst cap.
  unfold NHitLRU.record_access, NHitLRU.with_tracking. simpl.
  destruct (counts !! item) as [n|] eqn:E.
  - eexists. split; [reflexivity|]. split_and!; simpl; auto.
    intros k. rewrite dom_insert_L, Hkeys.
    assert (item ∈ dom counts) by (apply elem_of_dom; eauto). set_solver.
  - apply not_elem_of_dom in E.
    assert (∀ (counts' : gmap Z Z) queue',
      NoDup queue' → (∀ k, k ∈ queue' ↔ k ∈ dom counts') → item ∉ dom counts' →
      nhitlru_tracker c
        {| NHitLRU.trigger_threshold := trig; NHitLRU.N := N;
           NHitLRU.cache_capacity := c; NHitLRU.max_tracked_items := maxt;
           NHitLRU.access_counts := <[item := 1]> counts';
           NHitLRU.tracking_queue := queue' ++ [item] |}) as Hins.
    { intros counts' queue' Hnd' Hkeys' Hnew. split_and!; simpl; auto.
      - apply NoDup_app. split_and!; [done| |apply NoDup_singleton].
        intros x Hx ->%list_elem_of_singleton. by apply Hkeys' in Hx.
      - intros k. rewrite elem_of_app, list_elem_of_singleton, dom_insert_L, Hkeys'.
        set_solver. }
    destruct (Z.geb_spec (Z.of_nat (size counts)) maxt) as [Hfull|Hroom].
    + destruct queue as [|oldest rest].
      { exfalso. assert (counts = ∅) as ->.
        { apply dom_empty_iff_L. apply set_eq. intros k. rewrite <- Hkeys. set_solver. }
        rewrite map_size_empty in Hfull. lia. }
      apply NoDup_cons in Hnd as [Hold Hnd].
      assert (oldest ∈ dom counts) as Hin by (apply Hkeys; left).
      destruct (counts !! oldest) eqn:Eo; [|by apply not_elem_of_dom in Eo].
      simpl. eexists. split; [reflexivity|]. apply Hins; [done| |].
      * intros k. rewrite dom_delete_L. specialize (Hkeys k).
        rewrite elem_of_cons in Hkeys. set_solver.
      * rewrite dom_delete_L. set_solver.
    + simpl. eexists. split; [reflexivity|]. by apply Hins.
Qed.

Lemma nhitlru_remove_from_tracking_spec c pol item :
  nhitlru_tracker c pol → nhitlru_tracker c (NHitLRU.remove_from_tracking pol item).
Proof.
  intros (Hcap & Hmax & Hnd & Hkeys). unfold NHitLRU.remove_from_tracking.
  destruct (NHitLRU.access_counts pol !! item) eqn:E; [|by split_and!].
  unfold NHitLRU.with_tracking. split_and!; simpl; auto using remove_first_NoDup.
  intros k. rewrite remove_first_elem, dom_delete_L, Hkeys by done. set_solver.
Qed.

Lemma nhitlru_record_access_capacity pol item pol' :
  NHitLRU.record_access pol item = Returns pol' →
  NHitLRU.cache_capacity pol' = NHitLRU.cache_capacity pol.
Proof.
  unfold NHitLRU.record_access, NHitLRU.with_tracking.
  destruct (NHitLRU.access_counts pol !! item); [by intros [= <-]|].
  intros H. apply bind_returns in H as ([counts queue] & _ & [= <-]). done.
Qed.

Lemma nhitlru_on_miss_safe c lru pol item is_hit lru' pol' :
  0 < c → NHitLRU.capacity lru = c → OD.len (NHitLRU.cache lru) ≤ c →
  NHitLRU.on_miss lru pol item is_hit = Returns (lru', pol') →
  NHitLRU.capacity lru' = c ∧ OD.len (NHitLRU.cache lru') ≤ c.
Proof.
  intros Hc Hcap Hlen. unfold NHitLRU.on_miss. intros H.
  apply bind_returns in H as ([|] & _ & H).
  - destruct (nhitlru_insert_spec c lru item Hc Hcap Hlen) as (ev & l1 & Heq & ? & ?).
    rewrite Heq in H. simpl in H. by injection H as <- <-.
  - by injection H as <- <-.
Qed.

Lemma nhitlru_on_miss_tracker c lru pol item is_hit lru' pol' :
  nhitlru_tracker c pol →
  NHitLRU.on_miss lru pol item is_hit = Returns (lru', pol') →
  nhitlru_tracker c pol'.
Proof.
  intros Htr H. unfold NHitLRU.on_miss in H.
  apply bind_returns in H as (go & _ & H). destruct go.
  - apply bind_returns in H as ([ev lru1] & _ & [= <- <-]).
    by apply nhitlru_remove_from_tracking_spec.
  - by injection H as <- <-.
Qed.

Lemma nhitlru_on_miss_total c lru pol item is_hit :
  0 < c → c < PyFloat.overflow_at →
  NHitLRU.capacity lru = c → OD.len (NHitLRU.cache lru) ≤ c →
  nhitlru_tracker c pol →
  ∃ lru' pol', NHitLRU.on_miss lru pol item is_hit = Returns (lru', pol') ∧
               nhitlru_tracker c pol'.
Proof.
  intros Hc Hbig Hcap Hlen Htr.
  assert (∃ lru' pol', NHitLRU.on_miss lru pol item is_hit = Returns (lru', pol'))
    as (lru' & pol' & Heq).
  { unfold NHitLRU.on_miss, NHitLRU.should_promote, NHitLRU.occupancy.
    unfold PyFloat.truediv_int. replace (NHitLRU.cache_capacity pol) with c
      by (symmetry; apply Htr).
    rewrite (of_int_below (OD.len (NHitLRU.cache lru)) c) by (unfold OD.len in *; lia).
    simpl. rewrite (of_int_returns c) by lia. simpl.
    destruct (Z.eqb_spec c 0) as [?|_]; [lia|]. simpl.
    destruct (nhitlru_insert_spec c lru item Hc Hcap Hlen) as (ev & l1 & Heq & ? & ?).
    match goal with |- context [if ?b then Returns true else _] => destruct b end; simpl.
    - rewrite Heq. simpl. eauto.
    - destruct (default 0 _ >=? _); simpl; [|eauto]. rewrite Heq. simpl. eauto. }
  exists lru', pol'. split; [done|]. by eapply nhitlru_on_miss_tracker.
Qed.

Lemma nhitlru_request_safe c st r st' :
  0 < c → nhitlru_safe c st → NHitLRU.request st r = Returns st' → nhitlru_safe c st'.
Proof.
  intros Hc [Hcap Hlen]. destruct r as [item raw]. unfold NHitLRU.request.
  intros H. apply bind_returns in H as (pol & _ & H).
  assert (∀ lru' pol',
    (if NHitLRU.is_present (NHitLRU.lru_cache st) item
     then Returns ((NHitLRU.access (NHitLRU.lru_cache st) item).2, pol)
     else NHitLRU.on_miss (NHitLRU.lru_cache st) pol item
            (NHitLRU.is_present (NHitLRU.lru_cache st) item)) = Returns (lru', pol') →
    NHitLRU.capacity lru' = c ∧ OD.len (NHitLRU.cache lru') ≤ c) as Hbranch.
  { intros lru' pol'. destruct (NHitLRU.is_present _ _).
    - intros [= <- <-]. by apply nhitlru_access_len.
    - by apply nhitlru_on_miss_safe. }
  destruct (String.eqb _ "read").
  { apply bind_returns in H as ([lru' pol'] & Hb & [= <-]).
    apply Hbranch in Hb. exact Hb. }
  destruct (String.eqb _ "write").
  { apply bind_returns in H as ([lru' pol'] & Hb & [= <-]).
    apply Hbranch in Hb. exact Hb. }
  injection H as <-. by split.
Qed.

Lemma nhitlru_request_tracker c st r st' :
  nhitlru_tracker c (NHitLRU.nhit_policy st) →
  NHitLRU.request st r = Returns st' →
  nhitlru_tracker c (NHitLRU.nhit_policy st').
Proof.
  intros Htr Hreq. destruct r as [item raw]. unfold NHitLRU.request in Hreq.
  destruct (nhitlru_record_access_spec c _ item Htr) as (pol & Hrec & Htr1).
  rewrite Hrec in Hreq. simpl in Hreq.
  assert (∀ lru' pol',
    (if NHitLRU.is_present (NHitLRU.lru_cache st) item
     then Returns ((NHitLRU.access (NHitLRU.lru_cache st) item).2, pol)
     else NHitLRU.on_miss (NHitLRU.lru_cache st) pol item
            (NHitLRU.is_present (NHitLRU.lru_cache st) item)) = Returns (lru', pol') →
    nhitlru_tracker c pol') as Hbranch.
  { intros lru' pol'. destruct (NHitLRU.is_present _ _).
    - by intros [= <- <-].
    - by apply nhitlru_on_miss_tracker. }
  destruct (String.eqb _ "read").
  { apply bind_returns in Hreq as ([lru' pol'] & Hb & [= <-]). simpl. eauto. }
  destruct (String.eqb _ "write").
  { apply bind_returns in Hreq as ([lru' pol'] & Hb & [= <-]). simpl. eauto. }
  by injection Hreq as <-.
Qed.

Lemma nhitlru_request_total c st r :
  0 < c → c < PyFloat.overflow_at →
  nhitlru_safe c st → nhitlru_tracker c (NHitLRU.nhit_policy st) →
  ∃ st', NHitLRU.request st r = Returns st' ∧
         nhitlru_tracker c (NHitLRU.nhit_policy st').
Proof.
  intros Hc Hbig [Hcap Hlen] Htr.
  assert (∃ st', NHitLRU.request st r = Returns st') as (st' & Hreq).
  { destruct r as [item raw]. unfold NHitLRU.request.
    destruct (nhitlru_record_access_spec c _ item Htr) as (pol & -> & Htr1). simpl.
    assert (∃ lru' pol',
      (if NHitLRU.is_present (NHitLRU.lru_cache st) item
       then Returns ((NHitLRU.access (NHitLRU.lru_cache st) item).2, pol)
       else NHitLRU.on_miss (NHitLRU.lru_cache st) pol item
              (NHitLRU.is_present (NHitLRU.lru_cache st) item)) = Returns (lru', pol'))
      as (lru' & pol' & Hb).
    { destruct (NHitLRU.is_present _ _); [eauto|].
      destruct (nhitlru_on_miss_total c (NHitLRU.lru_cache st) pol item false
                  Hc Hbig Hcap Hlen Htr1) as (lru' & pol' & Heq & _). eauto. }
    destruct (String.eqb _ "read"); [rewrite Hb; simpl; eauto|].
    destruct (String.eqb _ "write"); [rewrite Hb; simpl; eauto|]. eauto. }
  exists st'. split; [done|]. by eapply nhitlru_request_tracker.
Qed.

(** The constructed state of [simulate_nhit_lru]. *)
Definition nhitlru_init (c : Z) (trigger : float) (N ratio : Z) : outcome NHitLRU.Sim :=
  lru ← NHitLRU.LRUCache_init c;
  pol ← NHitLRU.NHitPolicy_init c trigger N ratio;
  Returns (NHitLRU.start lru pol).

Lemma nhitlru_reachable_safe c trigger N ratio st :
  0 < c → reachable (nhitlru_init c trigger N ratio) nhitlru_step st →
  nhitlru_safe c st.
Proof.
  intros Hc. apply reachable_invariant.
  - intros s0 [= <-]. split; simpl; [done|unfold OD.len; simpl; lia].
  - intros s1 s2 Hinv (r & Hstep). by eapply nhitlru_request_safe.
Qed.

Lemma nhitlru_reachable_tracker c trigger N ratio st :
  0 < c → 0 < ratio → reachable (nhitlru_init c trigger N ratio) nhitlru_step st →
  nhitlru_safe c st ∧ nhitlru_tracker c (NHitLRU.nhit_policy st).
Proof.
  intros Hc Hratio.
  apply (reachable_invariant _ _
           (λ st, nhitlru_safe c st ∧ nhitlru_tracker c (NHitLRU.nhit_policy st))).
  - intros s0 [= <-]. split.
    + split; simpl; [done|unfold OD.len; simpl; lia].
    + split_and!; simpl; [done|nia|apply NoDup_nil_2|].
      intros k. rewrite dom_empty_L. split; intros H; [by apply elem_of_nil in H|].
      by apply not_elem_of_empty in H.
  - intros s1 s2 [Hsafe Htr] (r & Hstep). split.
    + by eapply nhitlru_request_safe.
    + by eapply nhitlru_request_tracker.
Qed.

(** ** Residency within the capacity *)

(** The constructed state of [simulate_nhit]. *)
Definition nhit_init (c : Z) (trigger : float) (threshold : Z) : outcome NHit.Sim :=
  e ← NHit.init c trigger threshold; Returns (NHit.start e).

(** C2. For every engine constructed with a positive capacity, after every
    request-processing call the number of resident entries of the primary
    cache is at most the capacity: LRU's [cache_store], Belady's [cache],
    ARC's |T1|+|T2|, LARC's [cache], and the caches of both N-Hit variants.
    Moreover the next call returns in the LRU and ARC engines, and, when
    the capacity is below 2^1024 - 2^970, in N-Hit (lowest count) and in
    N-Hit over LRU with a positive tracking ratio: [should_promote] converts
    the capacity to a float and raises [OverflowError] from there on.
    Belady's [access_page] is a total function. For LARC the bound is stated
    for the calls that return: its two float divisions raise
    [ZeroDivisionError] on a zero divisor. *)
Theorem C2_resident_within_capacity (c : Z) :
  0 < c →
  (∀ s, reachable (LRU.init c) lru_step s →
        OD.len (LRU.cache_store s) ≤ c ∧
        ∀ item, returns (LRU.access_or_update_cache s item)) ∧
  (∀ s, reachable (Belady.init c) bel_step s → Belady.current_occupancy s ≤ c) ∧
  (∀ s, reachable (ARC.init c) arc_step s →
        OD.len (ARC.T1 s) + OD.len (ARC.T2 s) ≤ c ∧
        ∀ page, returns (ARC.process_request s page)) ∧
  (∀ s, reachable (LARC.init c) larc_step s → OD.len (LARC.cache s) ≤ c) ∧
  (∀ trigger threshold st,
      reachable (nhit_init c trigger threshold) nhit_step st →
      Z.of_nat (size (NHit.cache (NHit.engine st))) ≤ c ∧
      (c < PyFloat.overflow_at → ∀ r, returns (NHit.request st r))) ∧
  (∀ trigger N ratio st,
      reachable (nhitlru_init c trigger N ratio) nhitlru_step st →
      NHitLRU.occupancy (NHitLRU.lru_cache st) ≤ c ∧
      (0 < ratio → c < PyFloat.overflow_at →
       ∀ r, returns (NHitLRU.request st r))).
Proof.
  intros Hc. split_and!.
  - intros s Hr. pose proof (lru_reachable_inv c s Hc Hr) as Hinv.
    split; [apply Hinv|]. intros item.
    destruct (lru_access_spec c s item Hc Hinv) as (s' & Heq & _). eexists. exact Heq.
  - intros s Hr. apply (bel_reachable_inv c s Hc Hr).
  - intros s Hr. destruct (arc_reachable_inv c s Hc Hr) as [Hinv Hcs].
    split; [rewrite <- Hcs; apply Hinv|]. intros page.
    destruct (arc_process_request_spec s page Hinv) as (s' & Heq & _).
    eexists. exact Heq.
  - intros s Hr. apply (larc_reachable_inv c s Hc Hr).
  - intros trigger threshold st Hr.
    pose proof (nhit_reachable_inv c trigger threshold st Hc Hr) as Hinv.
    split; [apply Hinv|]. intros Hbig r.
    destruct (nhit_request_spec c st r Hc Hbig Hinv) as (st' & Heq & _).
    eexists. exact Heq.
  - intros trigger N ratio st Hr. split.
    + apply (nhitlru_reachable_safe c trigger N ratio st Hc Hr).
    + intros Hratio Hbig r.
      destruct (nhitlru_reachable_tracker c trigger N ratio st Hc Hratio Hr)
        as [Hsafe Htr].
      destruct (nhitlru_request_total c st r Hc Hbig Hsafe Htr) as (st' & Heq & _).
      eexists. exact Heq.
Qed.

Lemma C2_resident_within_capacity_witness :
  (∀ s, reachable (LRU.init 2) lru_step s →
        OD.len (LRU.cache_store s) ≤ 2 ∧
        ∀ item, returns (LRU.access_or_update_cache s item)) ∧
  (∀ s, reachable (Belady.init 2) bel_step s → Belady.current_occupancy s ≤ 2) ∧
  (∀ s, reachable (ARC.init 2) arc_step s →
        OD.len (ARC.T1 s) + OD.len (ARC.T2 s) ≤ 2 ∧
        ∀ page, returns (ARC.process_request s page)) ∧
  (∀ s, reachable (LARC.init 2) larc_step s → OD.len (LARC.cache s) ≤ 2) ∧
  (∀ trigger threshold st,
      reachable (nhit_init 2 trigger threshold) nhit_step st →
      Z.of_nat (size (NHit.cache (NHit.engine st))) ≤ 2 ∧
      ∀ r, returns (NHit.request st r)) ∧
  (∀ trigger N ratio st,
      reachable (nhitlru_init 2 trigger N ratio) nhitlru_step st →
      NHitLRU.occupancy (NHitLRU.lru_cache st) ≤ 2 ∧
      (0 < ratio → ∀ r, returns (NHitLRU.request st r))).
Proof.
  destruct (C2_resident_within_capacity 2) as (HL & HB & HA & HLA & HN & HNL); [lia|].
  assert (2 < PyFloat.overflow_at) as Hbig by by vm_compute.
  split_and!; [exact HL|exact HB|exact HA|exact HLA| |].
  - intros trigger threshold st Hr. destruct (HN trigger threshold st Hr) as [Hsz Hret].
    split; [exact Hsz|exact (Hret Hbig)].
  - intros trigger N ratio st Hr. destruct (HNL trigger N ratio st Hr) as [Hsz Hret].
    split; [exact Hsz|]. intros Hratio. exact (Hret Hratio Hbig).
Defined.

(** ** LARC: the admission filter *)

(** The LARC engine on a sequence of pages. *)
Definition larc_run (s : LARC.LARCCache) (pages : list Z) : outcome LARC.LARCCache :=
  for_each (λ s page, r ← LARC.process_request s page; Returns r.2) pages s.

(** C4, as the code has it. On an access to a key in neither structure the
    call is a miss that appends the key to [recent_cache] and then drops the
    oldest entry once, exactly when [len(recent_cache) > recent_cache_limit]
    (an [if], not a loop); the cache and the limit are unchanged. Such a call
    keeps [len(recent_cache) <= recent_cache_limit] when it held before. *)
Theorem C4_larc_recent_single_drop (s : LARC.LARCCache) (page : Z) :
  page ∉ LARC.cache s → page ∉ LARC.recent_cache s →
  ∃ s', LARC.process_request s page = Returns (false, s') ∧
        LARC.cache s' = LARC.cache s ∧
        LARC.recent_cache_limit s' = LARC.recent_cache_limit s ∧
        LARC.recent_cache s' =
          (if PyFloat.int_gt (OD.len (LARC.recent_cache s ++ [page]))
                (LARC.recent_cache_limit s)
           then tail (LARC.recent_cache s ++ [page])
           else LARC.recent_cache s ++ [page]) ∧
        (PyFloat.int_gt (OD.len (LARC.recent_cache s)) (LARC.recent_cache_limit s)
           = false →
         PyFloat.int_gt (OD.len (LARC.recent_cache s')) (LARC.recent_cache_limit s')
           = false).
Proof.
  intros H1 H2. destruct s as [c cache recent limit]. simpl in *.
  unfold LARC.process_request. simpl.
  apply OD_contains_false in H1, H2. rewrite H1, H2. unfold OD.set. rewrite H2.
  destruct (PyFloat.int_gt (OD.len (recent ++ [page])) limit) eqn:E.
  - destruct (recent ++ [page]) as [|old rest] eqn:Er.
    { by apply app_eq_nil in Er as [_ ?]. }
    simpl. eexists. split; [reflexivity|]. simpl. split_and!; try done.
    intros Hle. assert (OD.len rest = OD.len recent) as ->; [|done].
    apply (f_equal length) in Er. rewrite length_app in Er. simpl in Er.
    unfold OD.len. lia.
  - simpl. eexists. split; [reflexivity|]. simpl. split_and!; try done.
Qed.

(** Capacity 10 after the pages 1, 1: key 1 promoted, the limit raised to 9. *)
Definition larc_warm_state : LARC.LARCCache :=
  {| LARC.cache_size := 10; LARC.cache := [1]; LARC.recent_cache := [];
     LARC.recent_cache_limit := 9%float |}.

Lemma C4_larc_recent_single_drop_witness :
  ∃ s', LARC.process_request larc_warm_state 2 = Returns (false, s') ∧
        LARC.cache s' = [1] ∧
        LARC.recent_cache_limit s' = 9%float ∧
        LARC.recent_cache s' =
          (if PyFloat.int_gt (OD.len ([] ++ [2])) 9%float
           then tail ([] ++ [2]) else [] ++ [2]) ∧
        (PyFloat.int_gt (OD.len []) 9%float = false →
         PyFloat.int_gt (OD.len (LARC.recent_cache s')) (LARC.recent_cache_limit s')
           = false).
Proof.
  apply (C4_larc_recent_single_drop larc_warm_state 2).
  - simpl. intros H. apply elem_of_cons in H as [H|H]; [discriminate|].
    by apply elem_of_nil in H.
  - simpl. apply not_elem_of_nil.
Defined.

(** C4 as stated fails. With capacity 10, the pages 1,1,2,3,4 leave three
    keys in [recent_cache] under a limit of 9; the hit on 1 lowers the limit to
    1 without trimming, so after that call [recent_cache] holds 3 > 1 keys.
    The next new key, 5, drops one entry only: 3 keys remain. *)
Lemma C4_larc_recent_exceeds_limit :
  (∃ e, larc_run {| LARC.cache_size := 10; LARC.cache := []; LARC.recent_cache := [];
                    LARC.recent_cache_limit := 1%float |} [1; 1; 2; 3; 4; 1]
        = Returns e ∧
        LARC.recent_cache e = [2; 3; 4] ∧ LARC.recent_cache_limit e = 1%float ∧
        PyFloat.int_gt (OD.len (LARC.recent_cache e)) (LARC.recent_cache_limit e)
          = true ∧
        ∃ e', LARC.process_request e 5 = Returns (false, e') ∧
              LARC.recent_cache e' = [3; 4; 5] ∧ LARC.recent_cache_limit e' = 1%float ∧
              PyFloat.int_gt (OD.len (LARC.recent_cache e')) (LARC.recent_cache_limit e')
                = true) ∧
  LARC.init 10 = Returns {| LARC.cache_size := 10; LARC.cache := [];
                            LARC.recent_cache := [];
                            LARC.recent_cache_limit := 1%float |}.
Proof.
  split; [|vm_compute; reflexivity].
  eexists. split; [vm_compute; reflexivity|].
  split_and!; try (vm_compute; reflexivity).
  eexists. split_and!; vm_compute; reflexivity.
Qed.

(** ** N-Hit with eviction of the lowest count: scenario S5 *)

(** The key sequence A,A,A,B,B,B,C,C,A with A = 1, B = 2, C = 3, all reads. *)
Definition s5_rows : list (Z * string) :=
  (λ k, (k, "Read"%string)) <$> [1; 1; 1; 2; 2; 2; 3; 3; 1].

(** Keys of the cache of the final engine. *)
Definition nhit_cached (r : outcome (Stats * Z * NHit.Sim)) : option (gset Z) :=
  match r with
  | Returns (_, st) => Some (dom (NHit.cache (NHit.engine st)))
  | _ => None
  end.

(** C8, as the code has it. With capacity 2, trigger threshold 0 and
    insertion threshold 3 on A,A,A,B,B,B,C,C,A: A is promoted on its first
    access (the empty cache has occupancy 0 <= 0), its second and third
    accesses are hits; B is promoted exactly on its third access and evicts
    nothing (the cache is {A} before and {A, B} after); C is never promoted;
    the final access to A is a hit; the final cache is exactly {A, B}. *)
Theorem C8_nhit_scenario_s5 :
  ∃ stats st,
    NHit.simulate 2 0%float 3 s5_rows = Returns (stats, st) ∧
    NHit.promoted st = [true; false; false; false; false; true; false; false; false] ∧
    NHit.log st = [false; true; true; false; false; false; false; false; true] ∧
    nhit_cached (NHit.simulate 2 0%float 3 (take 5 s5_rows)) = Some {[1]} ∧
    nhit_cached (NHit.simulate 2 0%float 3 (take 6 s5_rows)) = Some {[1; 2]} ∧
    nhit_cached (NHit.simulate 2 0%float 3 s5_rows) = Some {[1; 2]} ∧
    total_hit stats.1 = 3.
Proof.
  eexists _, _. split; [vm_compute; reflexivity|].
  split_and!; vm_compute; reflexivity.
Qed.

(** C8 as stated fails: A is not promoted on its third access but on its
    first, and its third access is a hit. *)
Lemma C8_promoted_on_first_access :
  ∃ stats st,
    NHit.simulate 2 0%float 3 s5_rows = Returns (stats, st) ∧
    NHit.promoted st !! 0%nat = Some true ∧
    NHit.promoted st !! 2%nat = Some false ∧
    NHit.log st !! 2%nat = Some true.
Proof.
  eexists _, _. split; [vm_compute; reflexivity|].
  split_and!; reflexivity.
Qed.

(** ** Operations do not interfere *)

(** Two runs end alike: both return related values, or both raise the same
    exception, or both loop. *)
Definition outcome_rel {A B} (R : A → B → Prop) (m1 : outcome A) (m2 : outcome B) : Prop :=
  match m1, m2 with
  | Returns a, Returns b => R a b
  | Raises e1, Raises e2 => e1 = e2
  | Loops, Loops => True
  | _, _ => False
  end.

(** Two request sequences with the same keys, position by position. *)
Definition same_keys (rows1 rows2 : list (Z * string)) : Prop :=
  Forall2 (λ r1 r2, r1.1 = r2.1) rows1 rows2.

(** The operations of the trace format. *)
Definition valid_op (op : string) : Prop := op = "Read"%string ∨ op = "Write"%string.

(** The same final engine, the same hit and miss at every request, and the
    same totals. *)
Definition same_result {E} (r1 r2 : Stats * E * list bool) : Prop :=
  r1.1.2 = r2.1.2 ∧ r1.2 = r2.2 ∧
  total_req r1.1.1 = total_req r2.1.1 ∧
  total_hit r1.1.1 = total_hit r2.1.1 ∧
  total_miss r1.1.1 = total_miss r2.1.1.

Definition nhit_same_result (r1 r2 : Stats * Z * NHit.Sim) : Prop :=
  NHit.engine r1.2 = NHit.engine r2.2 ∧
  NHit.log r1.2 = NHit.log r2.2 ∧
  NHit.promoted r1.2 = NHit.promoted r2.2 ∧
  NHit.tracked_access r1.2 = NHit.tracked_access r2.2 ∧
  r1.1.2 = r2.1.2 ∧
  total_req r1.1.1 = total_req r2.1.1 ∧
  total_hit r1.1.1 = total_hit r2.1.1 ∧
  total_miss r1.1.1 = total_miss r2.1.1.

Definition nhitlru_same_result (r1 r2 : NHitLRU.Totals * NHitLRU.Sim) : Prop :=
  NHitLRU.lru_cache r1.2 = NHitLRU.lru_cache r2.2 ∧
  NHitLRU.nhit_policy r1.2 = NHitLRU.nhit_policy r2.2 ∧
  NHitLRU.log r1.2 = NHitLRU.log r2.2 ∧
  NHitLRU.t_total_requests r1.1 = NHitLRU.t_total_requests r2.1 ∧
  NHitLRU.t_total_hits r1.1 = NHitLRU.t_total_hits r2.1 ∧
  NHitLRU.t_total_misses r1.1 = NHitLRU.t_total_misses r2.1.

Lemma for_each_rel {S1 S2 X1 X2} (R : S1 → S2 → Prop) (P : X1 → X2 → Prop)
  (body1 : S1 → X1 → outcome S1) (body2 : S2 → X2 → outcome S2) xs1 xs2 :
  (∀ s1 s2 x1 x2, R s1 s2 → P x1 x2 → outcome_rel R (body1 s1 x1) (body2 s2 x2)) →
  Forall2 P xs1 xs2 →
  ∀ s1 s2, R s1 s2 → outcome_rel R (for_each body1 xs1 s1) (for_each body2 xs2 s2).
Proof.
  intros Hbody Hxs. induction Hxs as [|x1 x2 xs1 xs2 Hx Hxs IH]; intros s1 s2 Hs; simpl.
  - done.
  - specialize (Hbody s1 s2 x1 x2 Hs Hx).
    destruct (body1 s1 x1), (body2 s2 x2); simpl in *; try done. by apply IH.
Qed.

Lemma outcome_rel_bind {A1 A2 B1 B2} (R : A1 → A2 → Prop) (Q : B1 → B2 → Prop)
  (m1 : outcome A1) (m2 : outcome A2) (f1 : A1 → outcome B1) (f2 : A2 → outcome B2) :
  outcome_rel R m1 m2 →
  (∀ a1 a2, R a1 a2 → outcome_rel Q (f1 a1) (f2 a2)) →
  outcome_rel Q (m1 ≫= f1) (m2 ≫= f2).
Proof. destruct m1, m2; simpl; try done. intros HR Hf. by apply Hf. Qed.

(** Loop states that agree on the engine, the log and the totals. *)
Definition lru_agree (st1 st2 : LRU.Sim) : Prop :=
  LRU.engine st1 = LRU.engine st2 ∧ LRU.log st1 = LRU.log st2 ∧
  LRU.read_requests st1 + LRU.write_requests st1
    = LRU.read_requests st2 + LRU.write_requests st2 ∧
  LRU.read_misses st1 + LRU.write_misses st1
    = LRU.read_misses st2 + LRU.write_misses st2.

Lemma lru_request_agree st1 st2 (r1 r2 : Z * string) :
  lru_agree st1 st2 → r1.1 = r2.1 →
  outcome_rel lru_agree (LRU.request st1 r1) (LRU.request st2 r2).
Proof.
  intros (He & Hl & Hreq & Hmiss) Hk. destruct r1 as [k op1], r2 as [k2 op2].
  simpl in Hk. subst k2. unfold LRU.request. rewrite He, Hl.
  destruct (String.eqb op1 "Read"), (String.eqb op2 "Read");
    destruct (LRU.access_or_update_cache (LRU.engine st2) k) as [[[|] e]| |];
    simpl; try done; split_and!; simpl; try done; lia.
Qed.

Lemma lru_simulate_agree c rows1 rows2 :
  same_keys rows1 rows2 →
  outcome_rel same_result (LRU.simulate c rows1) (LRU.simulate c rows2).
Proof.
  intros Hk. unfold LRU.simulate. simpl.
  eapply outcome_rel_bind.
  - eapply (for_each_rel lru_agree); [|exact Hk|].
    + intros s1 s2 x1 x2 Hs Hx. by apply lru_request_agree.
    + by split_and!.
  - intros st1 st2 (He & Hl & Hreq & Hmiss). simpl.
    split_and!; simpl; try done; lia.
Qed.

Definition arc_agree (st1 st2 : ARC.Sim) : Prop :=
  ARC.engine st1 = ARC.engine st2 ∧ ARC.log st1 = ARC.log st2 ∧
  ARC.read_requests st1 + ARC.write_requests st1
    = ARC.read_requests st2 + ARC.write_requests st2 ∧
  ARC.read_hits st1 + ARC.write_hits st1 = ARC.read_hits st2 + ARC.write_hits st2 ∧
  ARC.read_misses st1 + ARC.write_misses st1
    = ARC.read_misses st2 + ARC.write_misses st2.

Lemma arc_request_agree st1 st2 (r1 r2 : Z * string) :
  arc_agree st1 st2 → r1.1 = r2.1 → valid_op r1.2 → valid_op r2.2 →
  outcome_rel arc_agree (ARC.request st1 r1) (ARC.request st2 r2).
Proof.
  intros (He & Hl & Hreq & Hhit & Hmiss) Hk Hv1 Hv2.
  destruct r1 as [k op1], r2 as [k2 op2]. simpl in *. subst k2.
  unfold ARC.request. rewrite He, Hl.
  destruct Hv1 as [-> | ->], Hv2 as [-> | ->]; simpl;
    destruct (ARC.process_request (ARC.engine st2) k) as [[[|] e]| |];
    simpl; try done; split_and!; simpl; try done; lia.
Qed.

Definition larc_agree (st1 st2 : LARC.Sim) : Prop :=
  LARC.engine st1 = LARC.engine st2 ∧ LARC.log st1 = LARC.log st2 ∧
  LARC.read_requests st1 + LARC.write_requests st1
    = LARC.read_requests st2 + LARC.write_requests st2 ∧
  LARC.read_hits st1 + LARC.write_hits st1
    = LARC.read_hits st2 + LARC.write_hits st2 ∧
  LARC.read_misses st1 + LARC.write_misses st1
    = LARC.read_misses st2 + LARC.write_misses st2.

Lemma larc_request_agree st1 st2 (r1 r2 : Z * string) :
  larc_agree st1 st2 → r1.1 = r2.1 → valid_op r1.2 → valid_op r2.2 →
  outcome_rel larc_agree (LARC.request st1 r1) (LARC.request st2 r2).
Proof.
  intros (He & Hl & Hreq & Hhit & Hmiss) Hk Hv1 Hv2.
  destruct r1 as [k op1], r2 as [k2 op2]. simpl in *. subst k2.
  unfold LARC.request. rewrite He, Hl.
  destruct Hv1 as [-> | ->], Hv2 as [-> | ->]; simpl;
    destruct (LARC.process_request (LARC.engine st2) k) as [[[|] e]| |];
    simpl; try done; split_and!; simpl; try done; lia.
Qed.

(** Rows with the same keys and valid operations, position by position. *)
Definition same_valid (r1 r2 : Z * string) : Prop :=
  r1.1 = r2.1 ∧ valid_op r1.2 ∧ valid_op r2.2.

Lemma same_keys_valid rows1 rows2 :
  same_keys rows1 rows2 → Forall valid_op rows1.*2 → Forall valid_op rows2.*2 →
  Forall2 same_valid rows1 rows2.
Proof.
  intros Hk. induction Hk as [|r1 r2 l1 l2 Hr Hk IH]; simpl; intros H1 H2.
  - constructor.
  - apply Forall_cons in H1 as [? ?], H2 as [? ?].
    constructor; [by split_and!|auto].
Qed.

Lemma arc_simulate_agree c rows1 rows2 :
  Forall2 same_valid rows1 rows2 →
  outcome_rel same_result (ARC.simulate c rows1) (ARC.simulate c rows2).
Proof.
  intros Hk. unfold ARC.simulate. simpl.
  eapply outcome_rel_bind.
  - eapply (for_each_rel arc_agree); [|exact Hk|].
    + intros s1 s2 x1 x2 Hs (Hx & Hv1 & Hv2). by apply arc_request_agree.
    + by split_and!.
  - intros st1 st2 (He & Hl & Hreq & Hhit & Hmiss). simpl.
    split_and!; simpl; try done; lia.
Qed.

Lemma larc_simulate_agree c rows1 rows2 :
  Forall2 same_valid rows1 rows2 →
  outcome_rel same_result (LARC.simulate c rows1) (LARC.simulate c rows2).
Proof.
  intros Hk. unfold LARC.simulate.
  destruct (LARC.init c) as [e| |]; simpl; [|done..].
  eapply outcome_rel_bind.
  - eapply (for_each_rel larc_agree); [|exact Hk|].
    + intros s1 s2 x1 x2 Hs (Hx & Hv1 & Hv2). by apply larc_request_agree.
    + by split_and!.
  - intros st1 st2 (He & Hl & Hreq & Hhit & Hmiss). simpl.
    split_and!; simpl; try done; lia.
Qed.

Definition nhit_agree (st1 st2 : NHit.Sim) : Prop :=
  NHit.engine st1 = NHit.engine st2 ∧ NHit.log st1 = NHit.log st2 ∧
  NHit.promoted st1 = NHit.promoted st2 ∧
  NHit.tracked_access st1 = NHit.tracked_access st2 ∧
  NHit.cold_misses st1 = NHit.cold_misses st2 ∧
  NHit.total_requests st1 = NHit.total_requests st2 ∧
  NHit.read_hits st1 + NHit.write_hits st1 = NHit.read_hits st2 + NHit.write_hits st2 ∧
  NHit.read_misses st1 + NHit.write_misses st1
    = NHit.read_misses st2 + NHit.write_misses st2.

Lemma nhit_request_agree st1 st2 (r1 r2 : Z * string) :
  nhit_agree st1 st2 → r1.1 = r2.1 →
  outcome_rel nhit_agree (NHit.request st1 r1) (NHit.request st2 r2).
Proof.
  intros (He & Hl & Hp & Hta & Hcold & Hreq & Hhit & Hmiss) Hk.
  destruct r1 as [k op1], r2 as [k2 op2]. simpl in *. subst k2.
  unfold NHit.request. rewrite He, Hl, Hp, Hta, Hcold, Hreq.
  destruct (bool_decide (k ∈ dom (NHit.cache (NHit.engine st2)))).
  - destruct (String.eqb op1 "Read"), (String.eqb op2 "Read");
      simpl; split_and!; simpl; try done; lia.
  - destruct (NHit.should_promote _ k) as [go| |]; simpl; try done.
    destruct (if go then NHit.promote _ k else Returns _) as [e2| |]; simpl; try done.
    destruct (String.eqb op1 "Read"), (String.eqb op2 "Read");
      simpl; split_and!; simpl; try done; lia.
Qed.

Lemma nhit_simulate_agree c trigger threshold rows1 rows2 :
  same_keys rows1 rows2 →
  outcome_rel nhit_same_result (NHit.simulate c trigger threshold rows1)
    (NHit.simulate c trigger threshold rows2).
Proof.
  intros Hk. unfold NHit.simulate. simpl.
  eapply outcome_rel_bind.
  - eapply (for_each_rel nhit_agree); [|exact Hk|].
    + intros s1 s2 x1 x2 Hs Hx. by apply nhit_request_agree.
    + by split_and!.
  - intros st1 st2 (He & Hl & Hp & Hta & Hcold & Hreq & Hhit & Hmiss). simpl.
    split_and!; simpl; try done; lia.
Qed.

Definition nhitlru_agree (st1 st2 : NHitLRU.Sim) : Prop :=
  NHitLRU.lru_cache st1 = NHitLRU.lru_cache st2 ∧
  NHitLRU.nhit_policy st1 = NHitLRU.nhit_policy st2 ∧
  NHitLRU.log st1 = NHitLRU.log st2 ∧
  NHitLRU.read_requests st1 + NHitLRU.write_requests st1
    = NHitLRU.read_requests st2 + NHitLRU.write_requests st2 ∧
  NHitLRU.read_hits st1 + NHitLRU.write_hits st1
    = NHitLRU.read_hits st2 + NHitLRU.write_hits st2.

Lemma nhitlru_request_agree st1 st2 (r1 r2 : Z * string) :
  nhitlru_agree st1 st2 → r1.1 = r2.1 → valid_op r1.2 → valid_op r2.2 →
  outcome_rel nhitlru_agree (NHitLRU.request st1 r1) (NHitLRU.request st2 r2).
Proof.
  intros (Hlru & Hpol & Hl & Hreq & Hhit) Hk Hv1 Hv2.
  destruct r1 as [k op1], r2 as [k2 op2]. simpl in *. subst k2.
  unfold NHitLRU.request. rewrite Hlru, Hpol, Hl.
  destruct (NHitLRU.record_access (NHitLRU.nhit_policy st2) k) as [pol| |];
    simpl; try done.
  destruct (NHitLRU.is_present (NHitLRU.lru_cache st2) k).
  - destruct Hv1 as [-> | ->], Hv2 as [-> | ->]; simpl;
      split_and!; simpl; try done; lia.
  - destruct (NHitLRU.on_miss (NHitLRU.lru_cache st2) pol k false)
      as [[lru' pol']| |];
      destruct Hv1 as [-> | ->], Hv2 as [-> | ->]; simpl; try done;
      split_and!; simpl; try done; lia.
Qed.

Lemma nhitlru_simulate_agree c trigger N ratio rows1 rows2 :
  Forall2 same_valid rows1 rows2 →
  outcome_rel nhitlru_same_result (NHitLRU.simulate c trigger N ratio rows1)
    (NHitLRU.simulate c trigger N ratio rows2).
Proof.
  intros Hk. unfold NHitLRU.simulate. simpl.
  eapply outcome_rel_bind.
  - eapply (for_each_rel nhitlru_agree); [|exact Hk|].
    + intros s1 s2 x1 x2 Hs (Hx & Hv1 & Hv2). by apply nhitlru_request_agree.
    + by split_and!.
  - intros st1 st2 (Hlru & Hpol & Hl & Hreq & Hhit). simpl.
    split_and!; simpl; try done; lia.
Qed.

Lemma same_keys_keys_of rows1 rows2 :
  same_keys rows1 rows2 → keys_of rows1 = keys_of rows2.
Proof.
  unfold keys_of. induction 1 as [|r1 r2 l1 l2 Hr Hk IH]; csimpl; [done|].
  by f_equal.
Qed.

Lemma precompute_next_use_keys rows1 rows2 :
  keys_of rows1 = keys_of rows2 →
  Belady.precompute_next_use rows1 = Belady.precompute_next_use rows2.
Proof.
  intros Hk.
  destruct (precompute_next_use_returns rows1) as (nu1 & -> & Hlen1 & Hspec1).
  destruct (precompute_next_use_returns rows2) as (nu2 & -> & Hlen2 & Hspec2).
  f_equal. assert (length rows1 = length rows2) as Hlen.
  { apply (f_equal length) in Hk. unfold keys_of in Hk. by rewrite !length_fmap in Hk. }
  apply list_eq. intros i. rewrite Hk in Hspec1.
  destruct (keys_of rows2 !! i) as [x|] eqn:E.
  - by rewrite (Hspec1 i x E), (Hspec2 i x E).
  - apply lookup_ge_None in E. unfold keys_of in E. rewrite length_fmap in E.
    rewrite !lookup_ge_None_2; [done|lia..].
Qed.

Definition bel_agree (st1 st2 : Belady.Sim) : Prop :=
  Belady.engine st1 = Belady.engine st2 ∧ Belady.log st1 = Belady.log st2 ∧
  Belady.total_hits st1 = Belady.total_hits st2 ∧
  Belady.total_misses st1 = Belady.total_misses st2.

Lemma bel_request_agree rows1 rows2 next_use st1 st2 i :
  same_keys rows1 rows2 → bel_agree st1 st2 →
  outcome_rel bel_agree (Belady.request rows1 next_use st1 i)
    (Belady.request rows2 next_use st2 i).
Proof.
  intros Hk (He & Hl & Hhit & Hmiss). unfold Belady.request, Belady.index.
  pose proof (proj1 (Forall2_lookup _ _ _) Hk i) as Hi.
  destruct Hi as [[k op1] [k2 op2] Hr|]; simpl in *; [subst k2|done].
  destruct (next_use !! i) as [nu|]; simpl; [|done].
  rewrite He, Hl, Hhit, Hmiss.
  destruct (Belady.is_hit (Belady.engine st2) k); simpl; by split_and!.
Qed.

Lemma bel_simulate_agree c rows1 rows2 :
  same_keys rows1 rows2 →
  outcome_rel same_result (Belady.simulate_precomputed c rows1)
    (Belady.simulate_precomputed c rows2).
Proof.
  intros Hk. unfold Belady.simulate_precomputed.
  rewrite (precompute_next_use_keys rows1 rows2) by by apply same_keys_keys_of.
  destruct (Belady.precompute_next_use rows2) as [nu| |]; simpl; try done.
  unfold Belady.simulate. simpl.
  assert (length rows1 = length rows2) as -> by by eapply Forall2_length.
  eapply outcome_rel_bind.
  - eapply (for_each_rel bel_agree eq).
    + intros s1 s2 x1 x2 Hs <-. by apply bel_request_agree.
    + clear. induction (seq 0 (length rows2)); constructor; auto.
    + by split_and!.
  - intros st1 st2 (He & Hl & Hhit & Hmiss). simpl. by split_and!.
Qed.

(** The request types of the Belady driver: its reader keeps the rows whose
    operation, stripped and in lower case, is "read" or "write", and hands
    on that string. *)
Definition belady_op (op : string) : Prop := op = "read"%string ∨ op = "write"%string.

(** C10. For every driver and two request sequences with the same keys whose
    operations are all Read or Write - in the driver's own spelling: "Read"
    and "Write", and "read" and "write" for Belady - the two runs end alike:
    the same per-request hit and miss log, the same final engine state, and
    the same total requests, hits and misses; only the split between the
    read and write counters can differ. *)
Theorem C10_operation_noninterference
  (rows1 rows2 brows1 brows2 : list (Z * string)) (c threshold ratio : Z)
  (trigger : float) :
  same_keys rows1 rows2 →
  Forall valid_op rows1.*2 → Forall valid_op rows2.*2 →
  same_keys brows1 brows2 →
  Forall belady_op brows1.*2 → Forall belady_op brows2.*2 →
  outcome_rel same_result (LRU.simulate c rows1) (LRU.simulate c rows2) ∧
  outcome_rel same_result (Belady.simulate_precomputed c brows1)
    (Belady.simulate_precomputed c brows2) ∧
  outcome_rel same_result (ARC.simulate c rows1) (ARC.simulate c rows2) ∧
  outcome_rel same_result (LARC.simulate c rows1) (LARC.simulate c rows2) ∧
  outcome_rel nhit_same_result (NHit.simulate c trigger threshold rows1)
    (NHit.simulate c trigger threshold rows2) ∧
  outcome_rel nhitlru_same_result (NHitLRU.simulate c trigger threshold ratio rows1)
    (NHitLRU.simulate c trigger threshold ratio rows2).
Proof.
  intros Hk H1 H2 Hbk _ _. pose proof (same_keys_valid _ _ Hk H1 H2) as Hv.
  split_and!.
  - by apply lru_simulate_agree.
  - by apply bel_simulate_agree.
  - by apply arc_simulate_agree.
  - by apply larc_simulate_agree.
  - by apply nhit_simulate_agree.
  - by apply nhitlru_simulate_agree.
Qed.

(** Scenario S1 with its third and fifth reads turned into writes, in the
    spelling of the trace and in that of the Belady driver. *)
Definition s1_reads : list (Z * string) :=
  [(1, "Read"); (2, "Read"); (1, "Read"); (3, "Read"); (2, "Read")]%string.
Definition s1_mixed : list (Z * string) :=
  [(1, "Read"); (2, "Read"); (1, "Write"); (3, "Read"); (2, "Write")]%string.
Definition s1_reads_belady : list (Z * string) :=
  [(1, "read"); (2, "read"); (1, "read"); (3, "read"); (2, "read")]%string.
Definition s1_mixed_belady : list (Z * string) :=
  [(1, "read"); (2, "read"); (1, "write"); (3, "read"); (2, "write")]%string.

Lemma C10_operation_noninterference_witness :
  outcome_rel same_result (LRU.simulate 2 s1_reads) (LRU.simulate 2 s1_mixed) ∧
  outcome_rel same_result (Belady.simulate_precomputed 2 s1_reads_belady)
    (Belady.simulate_precomputed 2 s1_mixed_belady) ∧
  outcome_rel same_result (ARC.simulate 2 s1_reads) (ARC.simulate 2 s1_mixed) ∧
  outcome_rel same_result (LARC.simulate 2 s1_reads) (LARC.simulate 2 s1_mixed) ∧
  outcome_rel nhit_same_result (NHit.simulate 2 80%float 2 s1_reads)
    (NHit.simulate 2 80%float 2 s1_mixed) ∧
  outcome_rel nhitlru_same_result (NHitLRU.simulate 2 80%float 2 2 s1_reads)
    (NHitLRU.simulate 2 80%float 2 2 s1_mixed).
Proof.
  apply (C10_operation_noninterference s1_reads s1_mixed
           s1_reads_belady s1_mixed_belady 2 2 2 80%float).
  - repeat constructor.
  - repeat constructor; by (left + right).
  - repeat constructor; by (left + right).
  - repeat constructor.
  - repeat constructor; by (left + right).
  - repeat constructor; by (left + right).
Defined.

(** ** Belady: the heap order *)

(** [x <= y] in Python's order on the heap tuples. *)
Definition entry_le (x y : Belady.entry) : Prop := Belady.entry_ltb y x = false.

Lemma nu_ltb_irrefl a : Belady.nu_ltb a a = false.
Proof. destruct a; simpl; [apply Nat.ltb_irrefl|done]. Qed.

Lemma nu_ltb_trans a b c :
  Belady.nu_ltb a b = true → Belady.nu_ltb b c = true → Belady.nu_ltb a c = true.
Proof.
  destruct a, b, c; simpl; try done.
  rewrite !Nat.ltb_lt. lia.
Qed.

Lemma nu_ltb_total a b :
  Belady.nu_ltb a b = false → Belady.nu_ltb b a = false → a = b.
Proof.
  destruct a, b; simpl; try done.
  rewrite !Nat.ltb_ge. intros. f_equal. lia.
Qed.

Lemma entry_le_trans x y z : entry_le x y → entry_le y z → entry_le x z.
Proof.
  unfold entry_le, Belady.entry_ltb. destruct x as [a p], y as [b q], z as [c r]. simpl.
  rewrite !orb_false_iff, !andb_false_iff, !bool_decide_eq_false, !Z.ltb_ge.
  intros [H1 H1'] [H2 H2'].
  destruct (Belady.nu_ltb a c) eqn:Eac.
  - (* a < c <= b <= a *)
    exfalso. destruct (Belady.nu_ltb b c) eqn:Ebc; [done|].
    clear H2. destruct (Belady.nu_ltb c b) eqn:Ecb.
    + rewrite (nu_ltb_trans a c b Eac Ecb) in H1. done.
    + assert (b = c) as -> by by apply nu_ltb_total. congruence.
  - split; [done|]. destruct (decide (c = a)) as [->|Hne]; [|by left].
    right. destruct (decide (b = a)) as [->|Hba].
    + destruct H1' as [?|?], H2' as [?|?]; try done. lia.
    + exfalso. destruct (Belady.nu_ltb b a) eqn:Eba.
      * discriminate.
      * apply Hba. by apply nu_ltb_total.
Qed.

Lemma entry_ltb_le x y : Belady.entry_ltb x y = true → entry_le x y.
Proof.
  unfold entry_le, Belady.entry_ltb. destruct x as [a p], y as [b q]. simpl.
  rewrite orb_true_iff, andb_true_iff, bool_decide_eq_true, Z.ltb_lt.
  rewrite orb_false_iff, andb_false_iff, bool_decide_eq_false, Z.ltb_ge.
  intros [H|[-> H]].
  - split.
    + destruct (Belady.nu_ltb a b) eqn:E; [|done].
      pose proof (nu_ltb_trans _ _ _ H E) as Hbb. by rewrite nu_ltb_irrefl in Hbb.
    + left. intros ->. by rewrite nu_ltb_irrefl in H.
  - rewrite nu_ltb_irrefl. split; [done|]. right. lia.
Qed.

Lemma heappush_sorted h e :
  StronglySorted entry_le h → StronglySorted entry_le (Belady.heappush h e).
Proof.
  induction h as [|x h IH]; simpl; intros Hs.
  - repeat constructor.
  - apply StronglySorted_cons in Hs as [Hx Hs].
    destruct (Belady.entry_ltb x e) eqn:E.
    + apply StronglySorted_cons. split; [|auto].
      apply Forall_forall. intros y Hy. apply heappush_elem in Hy as [->|Hy].
      * by apply entry_ltb_le.
      * rewrite Forall_forall in Hx. auto.
    + apply StronglySorted_cons. split.
      * constructor; [exact E|].
        eapply Forall_impl; [exact Hx|]. intros y Hy.
        eapply entry_le_trans; [exact E|exact Hy].
      * apply StronglySorted_cons. auto.
Qed.

(** ** Counting the resident keys that are requested soon *)

Lemma gset_count_split (A G : gset Z) (x : Z) :
  size (A ∩ ({[x]} ∪ G)) =
    (size ((A ∖ {[x]}) ∩ G) + (if decide (x ∈ A) then 1 else 0))%nat.
Proof.
  destruct (decide (x ∈ A)) as [Hx|Hx].
  - replace (A ∩ ({[x]} ∪ G)) with (((A ∖ {[x]}) ∩ G) ∪ {[x]}).
    + rewrite size_union by set_solver. by rewrite size_singleton.
    + apply set_eq. intros y. destruct (decide (y = x)); set_solver.
  - replace (A ∩ ({[x]} ∪ G)) with ((A ∖ {[x]}) ∩ G) by set_solver. lia.
Qed.

Lemma gset_count_after (A A' G : gset Z) (x : Z) :
  A' ⊆ {[x]} ∪ A →
  (size (A' ∩ G) ≤ size ((A ∖ {[x]}) ∩ G) + (if decide (x ∈ G) then 1 else 0))%nat.
Proof.
  intros Hsub. destruct (decide (x ∈ G)) as [Hx|Hx].
  - transitivity (size (((A ∖ {[x]}) ∩ G) ∪ {[x]})).
    + apply subseteq_size. intros y Hy. destruct (decide (y = x)); set_solver.
    + rewrite size_union by set_solver. by rewrite size_singleton.
  - rewrite Nat.add_0_r. apply subseteq_size. set_solver.
Qed.

Lemma gset_count_resident (A' G : gset Z) (x : Z) :
  x ∈ A' →
  (size (A' ∩ G) + 1 ≤ size A' + (if decide (x ∈ G) then 1 else 0))%nat.
Proof.
  intros Hx. pose proof (gset_size_remove x A' Hx) as Hsz.
  destruct (decide (x ∈ G)) as [HG|HG].
  - assert (size (A' ∩ G) ≤ size A')%nat by (apply subseteq_size; set_solver). lia.
  - assert (size (A' ∩ G) ≤ size (A' ∖ {[x]}))%nat; [|lia].
    apply subseteq_size. set_solver.
Qed.

Lemma gset_count_insert (B G : gset Z) (x : Z) :
  size (({[x]} ∪ B) ∩ G) =
    (size ((B ∖ {[x]}) ∩ G) + (if decide (x ∈ G) then 1 else 0))%nat.
Proof.
  destruct (decide (x ∈ G)) as [Hx|Hx].
  - replace (({[x]} ∪ B) ∩ G) with (((B ∖ {[x]}) ∩ G) ∪ {[x]}).
    + rewrite size_union by set_solver. by rewrite size_singleton.
    + apply set_eq. intros y. destruct (decide (y = x)); set_solver.
  - replace (({[x]} ∪ B) ∩ G) with ((B ∖ {[x]}) ∩ G) by set_solver. lia.
Qed.

Lemma gset_count_remove (B G : gset Z) (v : Z) :
  v ∈ B →
  size (B ∩ G) = (size ((B ∖ {[v]}) ∩ G) + (if decide (v ∈ G) then 1 else 0))%nat.
Proof.
  intros Hv. destruct (decide (v ∈ G)) as [HG|HG].
  - replace (B ∩ G) with (((B ∖ {[v]}) ∩ G) ∪ {[v]}).
    + rewrite size_union by set_solver. by rewrite size_singleton.
    + apply set_eq. intros y. destruct (decide (y = v)); set_solver.
  - replace ((B ∖ {[v]}) ∩ G) with (B ∩ G) by set_solver. lia.
Qed.

(** ** Belady against a policy that admits every requested key *)

(** One request [x] seen on the resident set of the Belady engine: a hit, a
    miss with room, or a miss that evicts a key [v] requested no sooner than
    any other resident key ([F' k] holds the next [k] requested keys). *)
Definition bel_set_step (c : Z) (B : gset Z) (x : Z) (F' : nat → gset Z)
  (B' : gset Z) : Prop :=
  (x ∈ B ∧ B' = B) ∨
  ((x ∉ B) ∧ B' = {[x]} ∪ B) ∨
  ((x ∉ B) ∧ ∃ v, v ∈ B ∧ c ≤ Z.of_nat (size B) ∧ B' = {[x]} ∪ (B ∖ {[v]}) ∧
                  ∀ k, v ∈ F' k → B ⊆ F' k).

(** The exchange argument as an invariant. [A] is the resident set of a
    policy that keeps at most [c] keys, loads only the requested key and
    always has it resident after the request; [d] is the lead of Belady in
    hits. If, for every [k], [A] holds at most [d] more of the next [k]
    requested keys than [B], the same is true after the request, and the lead
    stays non-negative. *)
Lemma dominance_step (c : Z) (A B A' B' : gset Z) (x : Z) (F F' : nat → gset Z) (d : Z) :
  F' 0%nat = ∅ →
  (∀ k, F (S k) = {[x]} ∪ F' k) →
  (∀ k, Z.of_nat (size (A ∩ F k)) ≤ Z.of_nat (size (B ∩ F k)) + d) →
  A' ⊆ {[x]} ∪ A → x ∈ A' → Z.of_nat (size A') ≤ c →
  bel_set_step c B x F' B' →
  0 ≤ d + (if decide (x ∈ B) then 1 else 0) - (if decide (x ∈ A) then 1 else 0) ∧
  ∀ k, Z.of_nat (size (A' ∩ F' k))
       ≤ Z.of_nat (size (B' ∩ F' k))
         + (d + (if decide (x ∈ B) then 1 else 0) - (if decide (x ∈ A) then 1 else 0)).
Proof.
  intros HF0 HF Hinv Hsub HxA' HsizeA' Hstep.
  assert (0 ≤ d + (if decide (x ∈ B) then 1 else 0) - (if decide (x ∈ A) then 1 else 0))
    as Hd'.
  { specialize (Hinv 1%nat). rewrite HF, HF0, !gset_count_split in Hinv.
    replace ((A ∖ {[x]}) ∩ (∅ : gset Z)) with (∅ : gset Z) in Hinv by set_solver.
    replace ((B ∖ {[x]}) ∩ (∅ : gset Z)) with (∅ : gset Z) in Hinv by set_solver.
    rewrite size_empty in Hinv.
    destruct (decide (x ∈ A)), (decide (x ∈ B)); simpl in *; lia. }
  split; [done|]. intros k.
  specialize (Hinv (S k)). rewrite HF, !gset_count_split in Hinv.
  pose proof (gset_count_after A A' (F' k) x Hsub) as HA'.
  pose proof (gset_count_resident A' (F' k) x HxA') as HA''.
  destruct Hstep as [[HxB ->] | [[HxB ->] | [HxB (v & Hv & Hfull & -> & Hfar)]]].
  - rewrite (gset_count_remove B (F' k) x HxB).
    destruct (decide (x ∈ A)), (decide (x ∈ B)), (decide (x ∈ F' k)); try done; lia.
  - rewrite gset_count_insert.
    destruct (decide (x ∈ A)), (decide (x ∈ B)), (decide (x ∈ F' k)); try done; lia.
  - rewrite gset_count_insert.
    replace ((B ∖ {[v]}) ∖ {[x]}) with (B ∖ {[v]}) by set_solver.
    replace (B ∖ {[x]}) with B in Hinv by set_solver.
    pose proof (gset_count_remove B (F' k) v Hv) as Hrem.
    destruct (decide (v ∈ F' k)) as [HvF|HvF].
    + assert (size (B ∩ F' k) = size B) as HB.
      { f_equal. specialize (Hfar k HvF). set_solver. }
      destruct (decide (x ∈ A)), (decide (x ∈ B)), (decide (x ∈ F' k)); try done; lia.
    + destruct (decide (x ∈ A)), (decide (x ∈ B)), (decide (x ∈ F' k)); try done; lia.
Qed.

(** The keys of the next [k] requests from position [t] on. *)
Definition window (keys : list Z) (t k : nat) : gset Z :=
  list_to_set (take k (drop t keys)).

Lemma window_0 keys t : window keys t 0 = ∅.
Proof. unfold window. by rewrite take_0. Qed.

Lemma window_S keys t k x :
  keys !! t = Some x → window keys t (S k) = {[x]} ∪ window keys (S t) k.
Proof. intros H. unfold window. by rewrite (drop_S _ _ _ H). Qed.

Lemma elem_of_window keys t k p :
  p ∈ window keys t k ↔ ∃ j, next_occ keys t p = Belady.Idx j ∧ (j < t + k)%nat.
Proof.
  unfold window. rewrite elem_of_list_to_set. split.
  - intros Hin. apply list_elem_of_lookup_1 in Hin as [i Hi].
    apply lookup_take_Some in Hi as [Hi Hik]. rewrite lookup_drop in Hi.
    destruct (next_occ keys t p) as [j|] eqn:E.
    + exists j. split; [done|]. apply next_occ_Idx in E as (Hle & Hj & Hmin).
      destruct (decide (j ≤ t + i)%nat); [lia|].
      exfalso. apply (Hmin (t + i)%nat); [lia|done].
    + exfalso. apply (next_occ_INFINITY keys t p (t + i)%nat E); [lia|done].
  - intros (j & E & Hlt). apply next_occ_Idx in E as (Hle & Hj & _).
    apply (list_elem_of_lookup_2 _ (j - t)%nat).
    rewrite lookup_take_lt by lia. rewrite lookup_drop.
    by replace (t + (j - t))%nat with j by lia.
Qed.

(** The Belady engine when the requests before position [t] are done: the
    heap is sorted and the table holds, for every resident page, its next
    request from [t] on. *)
Definition bel_trace_inv (keys : list Z) (t : nat) (s : Belady.OptimalCache) : Prop :=
  StronglySorted entry_le (Belady.heap s) ∧
  ∀ p, p ∈ Belady.cache s →
       Belady.page_next_use s !! p = Some (next_occ keys t p).

Lemma bel_access_trace c keys t s x :
  0 < c → bel_inv c s → bel_trace_inv keys t s → keys !! t = Some x →
  bel_trace_inv keys (S t) (Belady.access_page s x (next_occ keys (S t) x)).2 ∧
  bel_set_step c (Belady.cache s) x (window keys (S t))
    (Belady.cache (Belady.access_page s x (next_occ keys (S t) x)).2).
Proof.
  intros Hc Hinv [Hsorted Hpnu] Hx.
  assert (∀ p, p ∈ Belady.cache s → p ≠ x →
               Belady.page_next_use s !! p = Some (next_occ keys (S t) p)) as Hpnu'.
  { intros p Hp Hne. rewrite (Hpnu p Hp), (next_occ_step _ _ _ _ Hx).
    by rewrite decide_False by done. }
  pose proof (bel_access_cases c s x (next_occ keys (S t) x) Hc Hinv) as Hcase.
  destruct Hinv as (Hcap & Htr & Hsize).
  destruct Hcase as [Hin | Hnin Hroom | nu_v v pre h' Hnin Hfull Hheap Hpre Hv Hnuv];
    unfold bel_trace_inv; bel_simpl.
  - split; [split|].
    + by apply heappush_sorted.
    + intros p Hp. destruct (decide (p = x)) as [->|Hne].
      * by rewrite lookup_insert_eq.
      * rewrite lookup_insert_ne by done. by apply Hpnu'.
    + left. done.
  - split; [split|].
    + by apply heappush_sorted.
    + intros p Hp. destruct (decide (p = x)) as [->|Hne].
      * by rewrite lookup_insert_eq.
      * rewrite lookup_insert_ne by done. apply Hpnu'; [set_solver|done].
    + right. left. done.
  - rewrite Hheap in Hsorted. apply StronglySorted_app in Hsorted as (_ & _ & Hs).
    apply StronglySorted_cons in Hs as [Hmin Hs].
    split; [split|].
    + by apply heappush_sorted.
    + intros p Hp. destruct (decide (p = x)) as [->|Hne].
      * by rewrite lookup_insert_eq.
      * assert (p ∈ Belady.cache s ∧ p ≠ v) as [Hp' Hpv] by set_solver.
        rewrite lookup_insert_ne, lookup_delete_ne by done. by apply Hpnu'.
    + right. right. split; [done|]. exists v. split_and!; [done|lia|done|].
      intros k Hvk p Hp.
      assert (v ≠ x) as Hvx by (intros ->; done).
      assert (p ≠ x) as Hpx by (intros ->; done).
      apply elem_of_window in Hvk as (jv & Ev & Hjv).
      rewrite (Hpnu' v Hv Hvx) in Hnuv. injection Hnuv as <-.
      apply elem_of_window.
      destruct (decide (p = v)) as [->|Hpv]; [eauto|].
      (* the entry of [p] comes after the victim's in the sorted heap *)
      destruct (Htr p Hp) as (nu_p & Hnp & Hinp).
      rewrite Hheap in Hinp. apply elem_of_app in Hinp as [Hinp|Hinp].
      { exfalso. rewrite Forall_forall in Hpre. specialize (Hpre _ Hinp).
        assert (Belady.corroborated (Belady.cache s) (Belady.page_next_use s) (nu_p, p)
                = true) by by apply corroborated_true.
        congruence. }
      apply elem_of_cons in Hinp as [[= _ ?]|Hinp]; [congruence|].
      rewrite Forall_forall in Hmin. specialize (Hmin _ Hinp).
      unfold entry_le, Belady.entry_ltb in Hmin. simpl in Hmin.
      apply orb_false_iff in Hmin as [Hmin _].
      rewrite (Hpnu' p Hp Hpx) in Hnp. injection Hnp as <-.
      rewrite Ev in Hmin. destruct (next_occ keys (S t) p) as [jp|]; simpl in Hmin.
      * exists jp. split; [done|]. apply Nat.ltb_ge in Hmin. lia.
      * discriminate.
Qed.

(** Hits counted so far by the LRU driver: requests minus misses. *)
Definition lru_hits (st : LRU.Sim) : Z :=
  LRU.read_requests st + LRU.write_requests st
  - LRU.read_misses st - LRU.write_misses st.

(** The two drivers when the requests before position [t] are done. *)
Definition joint_inv (c : Z) (keys : list Z) (t : nat)
  (stL : LRU.Sim) (stB : Belady.Sim) : Prop :=
  lru_inv c (LRU.engine stL) ∧
  bel_inv c (Belady.engine stB) ∧
  bel_trace_inv keys t (Belady.engine stB) ∧
  0 ≤ Belady.total_hits stB - lru_hits stL ∧
  ∀ k, Z.of_nat (size ((list_to_set (LRU.cache_store (LRU.engine stL)) : gset Z)
                       ∩ window keys t k))
       ≤ Z.of_nat (size (Belady.cache (Belady.engine stB) ∩ window keys t k))
         + (Belady.total_hits stB - lru_hits stL).

Lemma joint_step c rows next_use t stL stB x op :
  0 < c →
  joint_inv c (keys_of rows) t stL stB →
  rows !! t = Some (x, op) →
  next_use !! t = Some (next_occ (keys_of rows) (S t) x) →
  ∃ stL' stB',
    LRU.request stL (x, op) = Returns stL' ∧
    Belady.request rows next_use stB t = Returns stB' ∧
    joint_inv c (keys_of rows) (S t) stL' stB'.
Proof.
  intros Hc (HL & HB & HT & Hd & Hdom) Hrow Hnu.
  assert (keys_of rows !! t = Some x) as Hkey.
  { unfold keys_of. by rewrite list_lookup_fmap, Hrow. }
  destruct (lru_access_spec c (LRU.engine stL) x Hc HL)
    as (eL & HeqL & HL' & HxL & HsubL).
  pose proof (bel_access_inv c (Belady.engine stB) x
                (next_occ (keys_of rows) (S t) x) Hc HB) as HB'.
  destruct (bel_access_trace c (keys_of rows) t (Belady.engine stB) x Hc HB HT Hkey)
    as [HT' Hset].
  set (eB := (Belady.access_page (Belady.engine stB) x
                (next_occ (keys_of rows) (S t) x)).2) in *.
  (* the exchange invariant on the two resident sets *)
  destruct HL' as (HcapL & HndL & HlenL).
  pose proof (dominance_step c
    (list_to_set (LRU.cache_store (LRU.engine stL)))
    (Belady.cache (Belady.engine stB))
    (list_to_set (LRU.cache_store eL)) (Belady.cache eB) x
    (window (keys_of rows) t) (window (keys_of rows) (S t))
    (Belady.total_hits stB - lru_hits stL)) as Hstep.
  destruct Hstep as [Hd' Hdom'].
  { apply window_0. }
  { intros k. by apply window_S. }
  { exact Hdom. }
  { intros y Hy. apply elem_of_list_to_set in Hy.
    destruct (HsubL y Hy) as [->|Hy']; set_solver. }
  { by apply elem_of_list_to_set. }
  { rewrite size_list_to_set by done. exact HlenL. }
  { exact Hset. }
  (* the counters of the two loop bodies *)
  assert ((if decide (x ∈ (list_to_set (LRU.cache_store (LRU.engine stL)) : gset Z))
           then 1 else 0)
          = if OD.contains x (LRU.cache_store (LRU.engine stL)) then 1 else 0) as HhitL.
  { destruct (decide (x ∈ (list_to_set (LRU.cache_store (LRU.engine stL)) : gset Z)))
      as [H|H]; rewrite elem_of_list_to_set in H.
    - apply OD_contains_true in H. by rewrite H.
    - apply OD_contains_false in H. by rewrite H. }
  rewrite HhitL in Hd', Hdom'.
  assert (∃ stL', LRU.request stL (x, op) = Returns stL' ∧ LRU.engine stL' = eL ∧
            lru_hits stL' = lru_hits stL +
              (if OD.contains x (LRU.cache_store (LRU.engine stL)) then 1 else 0))
    as (stL' & HreqL & HengL & HhitsL).
  { unfold LRU.request. rewrite HeqL. simpl.
    destruct (String.eqb op "Read"); eexists; (split; [reflexivity|]);
      unfold lru_hits; simpl;
      destruct (OD.contains x (LRU.cache_store (LRU.engine stL))); split; try done; lia. }
  assert (∃ stB', Belady.request rows next_use stB t = Returns stB' ∧
            Belady.engine stB' = eB ∧
            Belady.total_hits stB' = Belady.total_hits stB +
              (if decide (x ∈ Belady.cache (Belady.engine stB)) then 1 else 0))
    as (stB' & HreqB & HengB & HhitsB).
  { unfold Belady.request, Belady.index, Belady.is_hit. rewrite Hrow, Hnu. simpl.
    destruct (decide (x ∈ Belady.cache (Belady.engine stB))) as [H|H].
    - rewrite bool_decide_eq_true_2 by done. eexists. by split_and!.
    - rewrite bool_decide_eq_false_2 by done. eexists. split_and!; try done.
      simpl. lia. }
  exists stL', stB'. split_and!; [done|done|].
  unfold joint_inv. rewrite HengL, HengB, HhitsL, HhitsB.
  split_and!; [by split_and!|done|done|lia|].
  intros k. specialize (Hdom' k). lia.
Qed.

Lemma joint_loop c rows next_use t :
  0 < c →
  length next_use = length rows →
  (∀ i x, keys_of rows !! i = Some x →
          next_use !! i = Some (next_occ (keys_of rows) (S i) x)) →
  (t ≤ length rows)%nat →
  ∃ stL stB,
    for_each LRU.request (take t rows)
      (LRU.start {| LRU.max_capacity := c; LRU.cache_store := OD.empty |}) = Returns stL ∧
    for_each (Belady.request rows next_use) (seq 0 t)
      (Belady.start {| Belady.capacity := c; Belady.cache := ∅; Belady.heap := [];
                       Belady.page_next_use := ∅ |}) = Returns stB ∧
    joint_inv c (keys_of rows) t stL stB.
Proof.
  intros Hc Hlen Hnu. induction t as [|t IH]; intros Ht.
  - simpl. eexists _, _. split_and!; [reflexivity..|].
    split_and!; simpl.
    + split_and!; simpl; [done|apply NoDup_nil_2|unfold OD.len; simpl; lia].
    + split_and!; bel_simpl; [done| |rewrite size_empty; lia].
      intros k Hk. bel_simpl. by apply not_elem_of_empty in Hk.
    + split; bel_simpl; [constructor|]. intros p Hp. by apply not_elem_of_empty in Hp.
    + unfold lru_hits. simpl. lia.
    + intros k. unfold lru_hits. simpl. lia.
  - destruct IH as (stL & stB & HL & HB & Hinv); [lia|].
    destruct (lookup_lt_is_Some_2 rows t) as [[x op] Hrow]; [lia|].
    assert (keys_of rows !! t = Some x) as Hkey.
    { unfold keys_of. by rewrite list_lookup_fmap, Hrow. }
    destruct (joint_step c rows next_use t stL stB x op Hc Hinv Hrow (Hnu t x Hkey))
      as (stL' & stB' & HreqL & HreqB & Hinv').
    exists stL', stB'. split_and!; [| |done].
    + rewrite (take_S_r _ _ _ Hrow), for_each_snoc, HL. exact HreqL.
    + rewrite seq_S, for_each_snoc, HB. exact HreqB.
Qed.

(** C1, as the code has it. For every request sequence and every positive
    capacity, the Belady engine driven by its precomputed next-use array
    returns at least as many total hits as the LRU engine on the same
    sequence and capacity; both simulations return. (The other policies of
    the suite can leave a missed key out of the cache and are not bounded by
    Belady's count.) *)
Theorem C1_belady_at_least_lru (c : Z) (rows : list (Z * string)) :
  0 < c →
  ∃ stats_opt engine_opt log_opt stats_lru engine_lru log_lru,
    Belady.simulate_precomputed c rows = Returns (stats_opt, engine_opt, log_opt) ∧
    LRU.simulate c rows = Returns (stats_lru, engine_lru, log_lru) ∧
    total_hit stats_lru ≤ total_hit stats_opt.
Proof.
  intros Hc.
  destruct (precompute_next_use_returns rows) as (nu & Hpre & Hlen & Hspec).
  destruct (joint_loop c rows nu (length rows) Hc Hlen Hspec)
    as (stL & stB & HL & HB & (_ & _ & _ & Hd & _)); [done|].
  rewrite firstn_all in HL.
  unfold Belady.simulate_precomputed, Belady.simulate, LRU.simulate.
  rewrite Hpre. simpl. rewrite HL, HB. simpl.
  eexists _, _, _, _, _, _. split_and!; [reflexivity..|].
  simpl. unfold lru_hits in Hd. lia.
Qed.

(** Scenario S2: the pages 1,2,3,1,2,1, all reads. *)
Definition s2_rows : list (Z * string) :=
  (λ k, (k, "Read"%string)) <$> [1; 2; 3; 1; 2; 1].

Lemma C1_belady_at_least_lru_witness :
  ∃ stats_opt engine_opt log_opt stats_lru engine_lru log_lru,
    Belady.simulate_precomputed 2 s2_rows = Returns (stats_opt, engine_opt, log_opt) ∧
    LRU.simulate 2 s2_rows = Returns (stats_lru, engine_lru, log_lru) ∧
    total_hit stats_lru ≤ total_hit stats_opt.
Proof. apply (C1_belady_at_least_lru 2 s2_rows). lia. Defined.

(** Total hits of a finished simulation. *)
Definition hits_of {E L} (r : outcome (Stats * E * L)) : option Z :=
  match r with
  | Returns (stats, _, _) => Some (total_hit stats)
  | _ => None
  end.

Definition nhit_hits_of (r : outcome (Stats * Z * NHit.Sim)) : option Z :=
  match r with
  | Returns (stats, _, _) => Some (total_hit stats)
  | _ => None
  end.

Definition nhitlru_hits_of (r : outcome (NHitLRU.Totals * NHitLRU.Sim)) : option Z :=
  match r with
  | Returns (totals, _) => Some (NHitLRU.t_total_hits totals)
  | _ => None
  end.

Definition reads (keys : list Z) : list (Z * string) :=
  (λ k, (k, "Read"%string)) <$> keys.

(** Ten keys requested twice each, then eleven rounds of one new key followed
    by the ten keys. *)
Definition larc_rounds : list Z :=
  [1; 1; 2; 2; 3; 3; 4; 4; 5; 5; 6; 6; 7; 7; 8; 8; 9; 9; 10; 10]
  ++ concat ((λ i, (100 + i) :: [1; 2; 3; 4; 5; 6; 7; 8; 9; 10])
             <$> [1; 2; 3; 4; 5; 6; 7; 8; 9; 10; 11]).

(** C1 as stated fails for every policy of the suite but LRU: each of them
    can leave a missed key out of its cache, where the Belady engine must
    admit it and evict a resident key.
    - ARC, capacity 1, keys A,A,B,A: 2 hits against 1 (with p = 0 the
      balancing loop sends the new key B straight to the ghost list B1).
    - Both N-Hit variants, capacity 1, trigger threshold 80, N = 2, keys
      A,B,A: 1 hit against 0 (B is not promoted).
    - LARC, capacity 10, on [larc_rounds]: 110 hits against 109. *)
Lemma C1_belady_beaten_by_bypass :
  (hits_of (ARC.simulate 1 (reads [1; 1; 2; 1])) = Some 2 ∧
   hits_of (Belady.simulate_precomputed 1 (reads [1; 1; 2; 1])) = Some 1) ∧
  (nhit_hits_of (NHit.simulate 1 80%float 2 (reads [1; 2; 1])) = Some 1 ∧
   nhitlru_hits_of (NHitLRU.simulate 1 80%float 2 2 (reads [1; 2; 1])) = Some 1 ∧
   hits_of (Belady.simulate_precomputed 1 (reads [1; 2; 1])) = Some 0) ∧
  (hits_of (LARC.simulate 10 (reads larc_rounds)) = Some 110 ∧
   hits_of (Belady.simulate_precomputed 10 (reads larc_rounds)) = Some 109).
Proof. split_and!; vm_compute; reflexivity. Qed.

(** * Further properties of the engines *)

(** ** LRU: recency *)

(** The store a call leaves: the requested key goes last; on a miss with a
    full store the oldest key goes first. *)
Lemma lru_access_shape c s item :
  0 < c → lru_inv c s →
  ∃ s', LRU.access_or_update_cache s item =
          Returns (OD.contains item (LRU.cache_store s), s') ∧
        LRU.max_capacity s' = c ∧
        LRU.cache_store s' =
          (if OD.contains item (LRU.cache_store s)
           then OD.pop item (LRU.cache_store s)
           else if OD.len (LRU.cache_store s) >=? c
                then tail (LRU.cache_store s)
                else LRU.cache_store s) ++ [item].
Proof.
  intros Hc (Hcap & Hnd & Hlen). destruct s as [cap store]. simpl in *. subst cap.
  unfold LRU.access_or_update_cache. simpl.
  destruct (OD.contains item store) eqn:E.
  - eexists. split; [reflexivity|]. done.
  - apply OD_contains_false in E. unfold OD.len in *.
    destruct (Z.geb_spec (Z.of_nat (length store)) c) as [Hfull|Hroom].
    + destruct store as [|old rest]; [simpl in Hfull; lia|]. simpl.
      apply not_elem_of_cons in E as [_ E]. apply OD_contains_false in E.
      eexists. split; [reflexivity|]. simpl. unfold OD.set. by rewrite E.
    + simpl. apply OD_contains_false in E.
      eexists. split; [reflexivity|]. simpl. unfold OD.set. by rewrite E.
Qed.

Lemma OD_pop_absent (k : Z) (d : list Z) : k ∉ d → OD.pop k d = d.
Proof.
  unfold OD.pop. induction d as [|x d IH]; intros H; [done|].
  apply not_elem_of_cons in H as [Hne H].
  rewrite filter_cons, decide_True by congruence. by rewrite IH.
Qed.

Lemma OD_pop_snoc (k : Z) (d : list Z) : k ∉ d → OD.pop k (d ++ [k]) = d.
Proof.
  intros H. unfold OD.pop. rewrite filter_app. fold (OD.pop k d).
  rewrite OD_pop_absent by done. rewrite filter_cons, decide_False by tauto.
  rewrite filter_nil. apply app_nil_r.
Qed.

(** X1. In the LRU engine with positive capacity, a request returns Hit
    exactly when the key is in [cache_store], leaves the key at the
    most-recent end, and an immediate repeat of the same key is a Hit that
    leaves the engine unchanged. *)
Theorem X1_lru_repeat_is_hit (c : Z) (s : LRU.LRUCache) (item : Z) :
  0 < c →
  reachable (LRU.init c) lru_step s →
  ∃ s', LRU.access_or_update_cache s item =
          Returns (bool_decide (item ∈ LRU.cache_store s), s') ∧
        last (LRU.cache_store s') = Some item ∧
        LRU.access_or_update_cache s' item = Returns (true, s').
Proof.
  intros Hc Hr. pose proof (lru_reachable_inv c s Hc Hr) as Hinv.
  destruct (lru_access_spec c s item Hc Hinv) as (s1 & Heq1 & Hinv1 & Hin1 & _).
  destruct (lru_access_shape c s item Hc Hinv) as (s' & Heq & Hcap' & Hstore).
  assert (s1 = s') as -> by congruence.
  exists s'. split_and!; [exact Heq| |].
  - rewrite Hstore. apply last_snoc.
  - destruct (lru_access_shape c s' item Hc Hinv1) as (s2 & Heq2 & Hcap2 & Hstore2).
    apply OD_contains_true in Hin1. rewrite Hin1 in Heq2, Hstore2.
    rewrite Heq2. do 2 f_equal.
    destruct s' as [cap' store'], s2 as [cap2 store2]. simpl in *. subst cap' cap2.
    f_equal. rewrite Hstore2, Hstore.
    set (l := if OD.contains item (LRU.cache_store s) then _ else _) in *.
    assert (item ∉ l) as Hl.
    { destruct Hinv1 as (_ & Hnd & _). simpl in Hnd. rewrite Hstore in Hnd.
      apply NoDup_app in Hnd as (_ & Hd & _). intros Hin. apply (Hd item Hin).
      apply list_elem_of_here. }
    by rewrite OD_pop_snoc.
Qed.

(** The store of capacity 2 after the keys 1, 2, 1 of scenario S1. *)
Definition lru_s1_state : LRU.LRUCache :=
  {| LRU.max_capacity := 2; LRU.cache_store := [2; 1] |}.

(** The LRU engine on a sequence of keys. *)
Definition lru_run (s : LRU.LRUCache) (items : list Z) : outcome LRU.LRUCache :=
  for_each (λ s item, r ← LRU.access_or_update_cache s item; Returns r.2) items s.

Lemma lru_run_reachable c s items s' :
  reachable (LRU.init c) lru_step s → lru_run s items = Returns s' →
  reachable (LRU.init c) lru_step s'.
Proof.
  unfold lru_run. revert s. induction items as [|item items IH]; intros s Hr; simpl.
  - intros [= <-]. done.
  - intros H. apply bind_returns in H as (s1 & H1 & H2).
    apply bind_returns in H1 as ([hit s2] & H1 & [= <-]).
    eapply IH; [|done]. eapply reach_step; [done|]. by exists item, hit.
Qed.

Lemma lru_s1_reachable : reachable (LRU.init 2) lru_step lru_s1_state.
Proof.
  eapply (lru_run_reachable 2 _ [1; 2; 1]).
  - apply reach_init. reflexivity.
  - vm_compute. reflexivity.
Qed.

Lemma X1_lru_repeat_is_hit_witness :
  ∃ s', LRU.access_or_update_cache lru_s1_state 3 =
          Returns (bool_decide (3 ∈ LRU.cache_store lru_s1_state), s') ∧
        last (LRU.cache_store s') = Some 3 ∧
        LRU.access_or_update_cache s' 3 = Returns (true, s').
Proof. apply (X1_lru_repeat_is_hit 2 lru_s1_state 3); [lia|exact lru_s1_reachable]. Defined.

(** X2. In the LRU engine with positive capacity, a request never lowers the
    occupancy and removes at most the oldest key: the store after the call
    holds every key it held before, except possibly the first (oldest) one.
    So once the store holds [max_capacity] keys it holds that many after
    every later request. *)
Theorem X2_lru_occupancy_monotone (c : Z) (s : LRU.LRUCache) (item : Z) :
  0 < c →
  reachable (LRU.init c) lru_step s →
  ∃ hit s', LRU.access_or_update_cache s item = Returns (hit, s') ∧
    OD.len (LRU.cache_store s) ≤ OD.len (LRU.cache_store s') ≤ c ∧
    (∀ x, x ∈ tail (LRU.cache_store s) → x ∈ LRU.cache_store s') ∧
    (OD.len (LRU.cache_store s) < c →
     ∀ x, x ∈ LRU.cache_store s → x ∈ LRU.cache_store s').
Proof.
  intros Hc Hr. pose proof (lru_reachable_inv c s Hc Hr) as Hinv.
  destruct (lru_access_spec c s item Hc Hinv) as (s1 & Heq1 & Hinv1 & _ & _).
  destruct (lru_access_shape c s item Hc Hinv) as (s' & Heq & Hcap' & Hstore).
  assert (s1 = s') as -> by congruence.
  destruct Hinv as (_ & Hnd & Hlen). destruct Hinv1 as (_ & _ & Hlen').
  exists (OD.contains item (LRU.cache_store s)), s'. split; [done|].
  unfold OD.len in *. rewrite Hstore in *.
  destruct (OD.contains item (LRU.cache_store s)) eqn:E.
  - apply OD_contains_true in E.
    pose proof (OD_length_pop_NoDup item _ Hnd E) as Hpop.
    rewrite length_app in *. simpl in *. split_and!; [lia|lia| |].
    + intros x Hx. apply elem_of_app. destruct (decide (x = item)) as [->|Hne].
      * right. apply list_elem_of_here.
      * left. apply OD_elem_of_pop. split; [|done].
        destruct (LRU.cache_store s); [done|]. by apply list_elem_of_further.
    + intros _ x Hx. apply elem_of_app. destruct (decide (x = item)) as [->|Hne].
      * right. apply list_elem_of_here.
      * left. by apply OD_elem_of_pop.
  - destruct (Z.geb_spec (Z.of_nat (length (LRU.cache_store s))) c) as [Hfull|Hroom].
    + destruct (LRU.cache_store s) as [|old rest] eqn:Es; [simpl in Hfull; lia|].
      simpl in *. rewrite length_app in *. simpl in *. split_and!; [lia|lia| |lia].
      intros x Hx. apply elem_of_app. by left.
    + rewrite length_app in *. simpl in *. split_and!; [lia|lia| |].
      * intros x Hx. apply elem_of_app. left.
        destruct (LRU.cache_store s); [done|]. by apply list_elem_of_further.
      * intros _ x Hx. apply elem_of_app. by left.
Qed.

Lemma X2_lru_occupancy_monotone_witness :
  ∃ hit s', LRU.access_or_update_cache lru_s1_state 3 = Returns (hit, s') ∧
    OD.len (LRU.cache_store lru_s1_state) ≤ OD.len (LRU.cache_store s') ≤ 2 ∧
    (∀ x, x ∈ tail (LRU.cache_store lru_s1_state) → x ∈ LRU.cache_store s') ∧
    (OD.len (LRU.cache_store lru_s1_state) < 2 →
     ∀ x, x ∈ LRU.cache_store lru_s1_state → x ∈ LRU.cache_store s').
Proof. apply (X2_lru_occupancy_monotone 2 lru_s1_state 3); [lia|exact lru_s1_reachable]. Defined.

(** ** LRU: the inclusion property *)

(** The store is the most recent part of the recency list [r] of all keys
    requested so far: all of it, or its last [c] keys. *)
Definition lru_suffix (c : Z) (r store : list Z) : Prop :=
  NoDup r ∧ ∃ older, r = older ++ store ∧ (older = [] ∨ OD.len store = c).

Lemma lru_suffix_step c s item r :
  0 < c → lru_inv c s → lru_suffix c r (LRU.cache_store s) →
  ∃ s', LRU.access_or_update_cache s item =
          Returns (OD.contains item (LRU.cache_store s), s') ∧
        lru_inv c s' ∧
        lru_suffix c (OD.move_to_end item r) (LRU.cache_store s').
Proof.
  intros Hc Hinv (Hnd & older & Hr & Hfull).
  destruct (lru_access_spec c s item Hc Hinv) as (s1 & Heq1 & Hinv1 & _ & _).
  destruct (lru_access_shape c s item Hc Hinv) as (s' & Heq & _ & Hstore).
  assert (s1 = s') as -> by congruence.
  exists s'. split_and!; [done..|]. split; [by apply OD_NoDup_move_to_end|].
  destruct Hinv as (_ & _ & Hlen). unfold OD.len in *.
  rewrite Hstore. unfold OD.move_to_end. subst r.
  apply NoDup_app in Hnd as (Hnd1 & Hdisj & Hnd2).
  destruct (OD.contains item (LRU.cache_store s)) eqn:E.
  - apply OD_contains_true in E.
    assert (item ∉ older) as Ho by (intros Hin; by apply (Hdisj item Hin)).
    exists older. split.
    + unfold OD.pop. rewrite filter_app. fold (OD.pop item older).
      rewrite OD_pop_absent by done. by rewrite <- app_assoc.
    + destruct Hfull as [->|Hfull]; [by left|right].
      pose proof (OD_length_pop_NoDup item _ Hnd2 E).
      rewrite length_app. simpl. lia.
  - apply OD_contains_false in E.
    destruct (Z.geb_spec (Z.of_nat (length (LRU.cache_store s))) c) as [Hge|Hlt].
    + destruct (LRU.cache_store s) as [|old rest] eqn:Es; [simpl in Hge; lia|].
      exists (OD.pop item older ++ [old]). split.
      * unfold OD.pop. rewrite filter_app. fold (OD.pop item older).
        fold (OD.pop item (old :: rest)). rewrite (OD_pop_absent item (old :: rest)) by done.
        simpl. by rewrite <- !app_assoc.
      * right. rewrite length_app. simpl in *. lia.
    + destruct Hfull as [->|Hfull]; [|lia].
      exists []. split; [|by left]. simpl. by rewrite OD_pop_absent.
Qed.

(** A smaller store is the most recent part of a larger one. *)
Lemma lru_suffix_inclusion c1 c2 r store1 store2 :
  c1 ≤ c2 → OD.len store1 ≤ c1 → OD.len store2 ≤ c2 →
  lru_suffix c1 r store1 → lru_suffix c2 r store2 →
  ∀ x, x ∈ store1 → x ∈ store2.
Proof.
  intros Hc Hl1 Hl2 (_ & o1 & Hr1 & Hf1) (_ & o2 & Hr2 & Hf2) x Hx.
  unfold OD.len in *.
  assert (length store1 ≤ length store2)%nat as Hle.
  { destruct Hf2 as [->|Hf2]; [|lia]. simpl in Hr2. subst store2.
    rewrite Hr1, length_app. lia. }
  rewrite Hr1 in Hr2. apply app_eq_app in Hr2 as [l [[-> ->]|[-> ->]]].
  - apply elem_of_app. by right.
  - rewrite length_app in Hle. destruct l; [done|simpl in Hle; lia].
Qed.

(** Two LRU loop states, of capacity [c1] and [c2], after the same requests. *)
Definition lru_included (c1 c2 : Z) (st1 st2 : LRU.Sim) : Prop :=
  lru_inv c1 (LRU.engine st1) ∧ lru_inv c2 (LRU.engine st2) ∧
  (∃ r, lru_suffix c1 r (LRU.cache_store (LRU.engine st1)) ∧
        lru_suffix c2 r (LRU.cache_store (LRU.engine st2))) ∧
  Forall2 (λ h1 h2 : bool, h1 = true → h2 = true) (LRU.log st1) (LRU.log st2) ∧
  lru_hits st1 ≤ lru_hits st2.

Lemma lru_request_included c1 c2 st1 st2 row :
  0 < c1 → c1 ≤ c2 → lru_included c1 c2 st1 st2 →
  ∃ st1' st2', LRU.request st1 row = Returns st1' ∧ LRU.request st2 row = Returns st2' ∧
               lru_included c1 c2 st1' st2'.
Proof.
  intros Hc1 Hc12 (Hi1 & Hi2 & (r & Hs1 & Hs2) & Hlog & Hhits).
  destruct row as [item op].
  destruct (lru_suffix_step c1 _ item r Hc1 Hi1 Hs1) as (e1 & Heq1 & Hi1' & Hs1').
  destruct (lru_suffix_step c2 _ item r ltac:(lia) Hi2 Hs2) as (e2 & Heq2 & Hi2' & Hs2').
  assert (OD.contains item (LRU.cache_store (LRU.engine st1)) = true →
          OD.contains item (LRU.cache_store (LRU.engine st2)) = true) as Himp.
  { rewrite !OD_contains_true.
    apply (lru_suffix_inclusion c1 c2 r); [done|apply Hi1|apply Hi2|done..]. }
  unfold LRU.request. rewrite Heq1, Heq2. simpl.
  destruct (String.eqb op "Read"); eexists _, _; (split_and!; [reflexivity..|]);
    (split_and!; simpl; [done|done|eauto| |]);
    try (apply Forall2_app; [done|]; by constructor);
    unfold lru_hits in *; simpl;
    destruct (OD.contains item (LRU.cache_store (LRU.engine st1))),
             (OD.contains item (LRU.cache_store (LRU.engine st2)));
    try lia; by specialize (Himp eq_refl).
Qed.

Lemma lru_loop_included c1 c2 rows st1 st2 :
  0 < c1 → c1 ≤ c2 → lru_included c1 c2 st1 st2 →
  ∃ st1' st2', for_each LRU.request rows st1 = Returns st1' ∧
               for_each LRU.request rows st2 = Returns st2' ∧
               lru_included c1 c2 st1' st2'.
Proof.
  intros Hc1 Hc12. revert st1 st2. induction rows as [|row rows IH]; intros st1 st2 H.
  - simpl. eauto.
  - destruct (lru_request_included c1 c2 st1 st2 row Hc1 Hc12 H)
      as (a & b & Ha & Hb & Hab).
    simpl. rewrite Ha, Hb. simpl. by apply IH.
Qed.

(** X3. LRU is a stack algorithm. On the same request sequence, with
    capacities [0 < c1 <= c2]: every request that hits with capacity [c1] hits
    with capacity [c2], the final store of capacity [c1] is contained in the
    one of capacity [c2], and the total hits do not decrease. *)
Theorem X3_lru_hits_monotone_in_capacity (c1 c2 : Z) (rows : list (Z * string)) :
  0 < c1 → c1 ≤ c2 →
  ∃ stats1 e1 log1 stats2 e2 log2,
    LRU.simulate c1 rows = Returns (stats1, e1, log1) ∧
    LRU.simulate c2 rows = Returns (stats2, e2, log2) ∧
    Forall2 (λ h1 h2 : bool, h1 = true → h2 = true) log1 log2 ∧
    (∀ x, x ∈ LRU.cache_store e1 → x ∈ LRU.cache_store e2) ∧
    total_hit stats1 ≤ total_hit stats2.
Proof.
  intros Hc1 Hc12. unfold LRU.simulate. simpl.
  destruct (lru_loop_included c1 c2 rows
              (LRU.start {| LRU.max_capacity := c1; LRU.cache_store := OD.empty |})
              (LRU.start {| LRU.max_capacity := c2; LRU.cache_store := OD.empty |})
              Hc1 Hc12)
    as (st1 & st2 & -> & -> & Hi1 & Hi2 & (r & Hs1 & Hs2) & Hlog & Hhits).
  { split_and!; simpl.
    - split_and!; simpl; [done|apply NoDup_nil_2|unfold OD.len; simpl; lia].
    - split_and!; simpl; [done|apply NoDup_nil_2|unfold OD.len; simpl; lia].
    - exists []. split; (split; [apply NoDup_nil_2|]); exists []; split; auto.
    - constructor.
    - unfold lru_hits. simpl. lia. }
  simpl. eexists _, _, _, _, _, _. split_and!; [reflexivity..|done| |].
  - apply (lru_suffix_inclusion c1 c2 r); [done|apply Hi1|apply Hi2|done..].
  - unfold lru_hits in Hhits. simpl. lia.
Qed.

Lemma X3_lru_hits_monotone_in_capacity_witness :
  ∃ stats1 e1 log1 stats2 e2 log2,
    LRU.simulate 2 s2_rows = Returns (stats1, e1, log1) ∧
    LRU.simulate 3 s2_rows = Returns (stats2, e2, log2) ∧
    Forall2 (λ h1 h2 : bool, h1 = true → h2 = true) log1 log2 ∧
    (∀ x, x ∈ LRU.cache_store e1 → x ∈ LRU.cache_store e2) ∧
    total_hit stats1 ≤ total_hit stats2.
Proof. apply (X3_lru_hits_monotone_in_capacity 2 3 s2_rows); lia. Defined.

(** ** Drivers: what the counters count *)

(** Number of elements of [l] that satisfy [P]. *)
Definition count_if {A} (P : A → Prop) `{!∀ x, Decision (P x)} (l : list A) : Z :=
  Z.of_nat (length (filter P l)).

Lemma count_if_cons {A} (P : A → Prop) `{!∀ x, Decision (P x)} (x : A) (l : list A) :
  count_if P (x :: l) = (if decide (P x) then 1 else 0) + count_if P l.
Proof.
  unfold count_if. rewrite filter_cons. destruct (decide (P x)); simpl; lia.
Qed.

Lemma count_if_nil {A} (P : A → Prop) `{!∀ x, Decision (P x)} : count_if P [] = 0.
Proof. done. Qed.

(** The requests of a run paired with their outcomes. *)
Definition outcomes (rows : list (Z * string)) (hits : list bool)
  : list (string * bool) := zip rows.*2 hits.

Lemma lru_loop_counts rows st st' :
  for_each LRU.request rows st = Returns st' →
  ∃ hits, LRU.log st' = LRU.log st ++ hits ∧ length hits = length rows ∧
    LRU.read_requests st' = LRU.read_requests st + count_if (λ r, r.2 = "Read"%string) rows ∧
    LRU.write_requests st'
      = LRU.write_requests st + count_if (λ r, r.2 ≠ "Read"%string) rows ∧
    LRU.read_misses st'
      = LRU.read_misses st
        + count_if (λ o, o.1 = "Read"%string ∧ o.2 = false) (outcomes rows hits) ∧
    LRU.write_misses st'
      = LRU.write_misses st
        + count_if (λ o, o.1 ≠ "Read"%string ∧ o.2 = false) (outcomes rows hits).
Proof.
  revert st. induction rows as [|[item op] rows IH]; intros st; simpl.
  - intros [= <-]. exists []. rewrite app_nil_r. unfold outcomes. simpl.
    rewrite !count_if_nil. split_and!; try done; lia.
  - intros H. apply bind_returns in H as (st1 & H1 & H2).
    destruct (IH st1 H2) as (hits & Hlog & Hlen & Hrr & Hwr & Hrm & Hwm).
    unfold LRU.request in H1.
    assert (∃ hit e,
      LRU.access_or_update_cache (LRU.engine st) item = Returns (hit, e))
      as (hit & e & Hacc).
    { destruct (String.eqb op "Read");
        apply bind_returns in H1 as ([hit e] & Hacc & _); eauto. }
    rewrite Hacc in H1. simpl in H1.
    exists (hit :: hits). unfold outcomes in *. csimpl.
    rewrite !count_if_cons. simpl.
    destruct (String.eqb_spec op "Read") as [->|Hne]; injection H1 as <-;
      simpl in *; rewrite Hlog, Hrr, Hwr, Hrm, Hwm, <- app_assoc; simpl;
      (split_and!; [done|by rewrite Hlen|..]);
      repeat case_decide; destruct hit; try lia; try tauto; try naive_solver.
Qed.

(** X4. The LRU driver counts every row exactly once: the log has one entry
    per row; a row counts as a read when its operation is the string "Read"
    and as a write otherwise (whatever the string is); the read and write
    misses are the rows of each kind whose request missed; hits are requests
    minus misses, so hits and misses add up to the requests in each column
    and in the totals. *)
Theorem X4_lru_driver_counts (c : Z) (rows : list (Z * string))
  (stats : Stats) (e : LRU.LRUCache) (log : list bool) :
  LRU.simulate c rows = Returns (stats, e, log) →
  length log = length rows ∧
  read_req stats = count_if (λ r, r.2 = "Read"%string) rows ∧
  write_req stats = count_if (λ r, r.2 ≠ "Read"%string) rows ∧
  read_miss stats
    = count_if (λ o, o.1 = "Read"%string ∧ o.2 = false) (outcomes rows log) ∧
  write_miss stats
    = count_if (λ o, o.1 ≠ "Read"%string ∧ o.2 = false) (outcomes rows log) ∧
  read_hit stats + read_miss stats = read_req stats ∧
  write_hit stats + write_miss stats = write_req stats ∧
  total_req stats = read_req stats + write_req stats ∧
  total_hit stats = read_hit stats + write_hit stats ∧
  total_miss stats = read_miss stats + write_miss stats.
Proof.
  unfold LRU.simulate. simpl. intros H.
  apply bind_returns in H as (st & Hloop & [= <- <- <-]).
  apply lru_loop_counts in Hloop as (hits & Hlog & Hlen & Hrr & Hwr & Hrm & Hwm).
  simpl in *. subst. rewrite Hrr, Hwr, Hrm, Hwm.
  split_and!; try done; lia.
Qed.

(** The statistics of capacity 2 on [s1_mixed]: three reads, two writes, one
    write hit. *)
Definition s1_mixed_stats : Stats :=
  {| read_req := 3; read_hit := 0; read_miss := 3;
     write_req := 2; write_hit := 1; write_miss := 1;
     total_req := 5; total_hit := 1; total_miss := 4 |}.

Definition s1_mixed_log : list bool := [false; false; true; false; false].

Lemma X4_lru_driver_counts_witness :
  length s1_mixed_log = length s1_mixed ∧
  read_req s1_mixed_stats = count_if (λ r, r.2 = "Read"%string) s1_mixed ∧
  write_req s1_mixed_stats = count_if (λ r, r.2 ≠ "Read"%string) s1_mixed ∧
  read_miss s1_mixed_stats
    = count_if (λ o, o.1 = "Read"%string ∧ o.2 = false)
        (outcomes s1_mixed s1_mixed_log) ∧
  write_miss s1_mixed_stats
    = count_if (λ o, o.1 ≠ "Read"%string ∧ o.2 = false)
        (outcomes s1_mixed s1_mixed_log) ∧
  read_hit s1_mixed_stats + read_miss s1_mixed_stats = read_req s1_mixed_stats ∧
  write_hit s1_mixed_stats + write_miss s1_mixed_stats = write_req s1_mixed_stats ∧
  total_req s1_mixed_stats = read_req s1_mixed_stats + write_req s1_mixed_stats ∧
  total_hit s1_mixed_stats = read_hit s1_mixed_stats + write_hit s1_mixed_stats ∧
  total_miss s1_mixed_stats = read_miss s1_mixed_stats + write_miss s1_mixed_stats.
Proof.
  apply (X4_lru_driver_counts 2 s1_mixed s1_mixed_stats
           {| LRU.max_capacity := 2; LRU.cache_store := [3; 2] |} s1_mixed_log).
  vm_compute. reflexivity.
Defined.

(** A row whose operation is "Read" or "Write". *)
Definition served (r : Z * string) : Prop :=
  r.2 = "Read"%string ∨ r.2 = "Write"%string.

#[global] Instance served_dec r : Decision (served r).
Proof. unfold served. apply _. Defined.

Lemma arc_request_skips st r : ¬ served r → ARC.request st r = Returns st.
Proof.
  destruct r as [page op]. unfold served, ARC.request. simpl. intros H.
  destruct (String.eqb_spec op "Read") as [->|_]; [tauto|].
  destruct (String.eqb_spec op "Write") as [->|_]; [tauto|]. done.
Qed.

Lemma larc_request_skips st r : ¬ served r → LARC.request st r = Returns st.
Proof.
  destruct r as [page op]. unfold served, LARC.request. simpl. intros H.
  destruct (String.eqb_spec op "Read") as [->|_]; [tauto|].
  destruct (String.eqb_spec op "Write") as [->|_]; [tauto|]. done.
Qed.

Lemma for_each_filter {S X} (body : S → X → outcome S) (P : X → Prop)
  `{!∀ x, Decision (P x)} (xs : list X) :
  (∀ s x, ¬ P x → body s x = Returns s) →
  ∀ s, for_each body xs s = for_each body (filter P xs) s.
Proof.
  intros Hskip. induction xs as [|x xs IH]; intros s; [done|].
  rewrite filter_cons. destruct (decide (P x)) as [HP|HP]; simpl.
  - destruct (body s x); simpl; auto.
  - rewrite (Hskip s x HP). simpl. apply IH.
Qed.

Lemma arc_loop_counts rows st st' :
  for_each ARC.request rows st = Returns st' →
  ∃ hits, ARC.log st' = ARC.log st ++ hits ∧
    Z.of_nat (length hits) = count_if served rows ∧
    ARC.read_requests st' + ARC.write_requests st'
      = ARC.read_requests st + ARC.write_requests st + count_if served rows ∧
    ARC.read_hits st' + ARC.write_hits st'
      = ARC.read_hits st + ARC.write_hits st + count_if (λ h, h = true) hits ∧
    ARC.read_misses st' + ARC.write_misses st'
      = ARC.read_misses st + ARC.write_misses st + count_if (λ h, h = false) hits.
Proof.
  revert st. induction rows as [|[page op] rows IH]; intros st; simpl.
  - intros [= <-]. exists []. rewrite app_nil_r, !count_if_nil. split_and!; try done; lia.
  - intros H. apply bind_returns in H as (st1 & H1 & H2).
    destruct (IH st1 H2) as (hits & Hlog & Hlen & Hreq & Hhit & Hmiss).
    rewrite count_if_cons. unfold ARC.request in H1.
    destruct (String.eqb_spec op "Read") as [->|Hr].
    { apply bind_returns in H1 as ([hit e] & _ & [= <-]). simpl in *.
      exists (hit :: hits). rewrite Hlog, <- app_assoc, !count_if_cons. simpl.
      destruct hit; repeat case_decide; try done; (split_and!; [done|simpl in *; lia..]). }
    destruct (String.eqb_spec op "Write") as [->|Hw].
    { apply bind_returns in H1 as ([hit e] & _ & [= <-]). simpl in *.
      exists (hit :: hits). rewrite Hlog, <- app_assoc, !count_if_cons. simpl.
      destruct hit; repeat case_decide; try done; (split_and!; [done|simpl in *; lia..]). }
    injection H1 as <-. exists hits.
    rewrite (decide_False (P := served _)) by (unfold served; simpl; tauto).
    split_and!; [done|lia..].
Qed.

(** X5. The ARC and LARC drivers serve only the rows whose operation is
    exactly "Read" or "Write": every other row is skipped without reaching the
    engine, so a run on a data set equals the run on its served rows; and the
    total requests, the length of the hit log, and hits plus misses all equal
    the number of served rows. *)
Theorem X5_arc_driver_serves_read_write_only (c : Z) (rows : list (Z * string)) :
  ARC.simulate c rows = ARC.simulate c (filter served rows) ∧
  LARC.simulate c rows = LARC.simulate c (filter served rows) ∧
  ∀ stats e log, ARC.simulate c rows = Returns (stats, e, log) →
    total_req stats = count_if served rows ∧
    Z.of_nat (length log) = count_if served rows ∧
    total_hit stats = count_if (λ h, h = true) log ∧
    total_miss stats = count_if (λ h, h = false) log ∧
    total_hit stats + total_miss stats = total_req stats.
Proof.
  split_and!.
  - unfold ARC.simulate. simpl.
    by rewrite (for_each_filter ARC.request served rows arc_request_skips).
  - unfold LARC.simulate. destruct (LARC.init c) as [e0| |]; simpl; [|done..].
    by rewrite (for_each_filter LARC.request served rows larc_request_skips).
  - unfold ARC.simulate. simpl. intros stats e log H.
    apply bind_returns in H as (st & Hloop & [= <- <- <-]).
    apply arc_loop_counts in Hloop as (hits & Hlog & Hlen & Hreq & Hhit & Hmiss).
    simpl in *. subst hits.
    assert (count_if (λ h, h = true) (ARC.log st) + count_if (λ h, h = false) (ARC.log st)
            = Z.of_nat (length (ARC.log st))) as Hsum.
    { clear. induction (ARC.log st) as [|[|] l IH]; [done|..];
        rewrite !count_if_cons; simpl; repeat case_decide; try done; lia. }
    split_and!; lia.
Qed.

(** ** ARC: hits, and the new key that is not kept *)

(** X6. In the ARC engine with positive capacity, a request for a key of T1
    or T2 is a Hit that leaves the key at the most-recent end of T2 and out of
    T1; the resident keys are the same as before, and the ghost lists and [p]
    are untouched. *)
Theorem X6_arc_hit_moves_to_T2 (c : Z) (s : ARC.ARCCache) (page : Z) :
  0 < c →
  reachable (ARC.init c) arc_step s →
  page ∈ ARC.T1 s ∨ page ∈ ARC.T2 s →
  ∃ s', ARC.process_request s page = Returns (true, s') ∧
        last (ARC.T2 s') = Some page ∧ (page ∉ ARC.T1 s') ∧
        (∀ x, x ∈ ARC.T1 s' ∨ x ∈ ARC.T2 s' ↔ x ∈ ARC.T1 s ∨ x ∈ ARC.T2 s) ∧
        ARC.B1 s' = ARC.B1 s ∧ ARC.B2 s' = ARC.B2 s ∧ ARC.p s' = ARC.p s.
Proof.
  intros Hc Hr Hin. destruct (arc_reachable_inv c s Hc Hr) as [Hinv Hcs].
  destruct Hinv as (((N1 & N2 & _) & (D12 & _) & _) & _).
  destruct s as [cs t1 t2 b1 b2 p]. simpl in *.
  unfold ARC.process_request. simpl.
  destruct (OD.contains page t1) eqn:E1; simpl.
  - apply OD_contains_true in E1.
    assert (page ∉ t2) as E2 by (intros ?; eapply D12; eauto).
    eexists. split; [reflexivity|]. simpl.
    unfold OD.set. apply OD_contains_false in E2. rewrite E2.
    split_and!; try done.
    + apply last_snoc.
    + intros Hp. apply OD_elem_of_pop in Hp. tauto.
    + intros x. rewrite OD_elem_of_pop, elem_of_app, list_elem_of_singleton.
      destruct (decide (x = page)) as [->|]; tauto.
  - apply OD_contains_false in E1. destruct Hin as [?|Hin]; [done|].
    apply OD_contains_true in Hin. rewrite Hin.
    eexists. split; [reflexivity|]. simpl. split_and!; try done.
    + unfold OD.move_to_end. apply last_snoc.
    + intros x. rewrite OD_elem_of_move_to_end. apply OD_contains_true in Hin.
      destruct (decide (x = page)) as [->|]; tauto.
Qed.

Lemma X6_arc_hit_moves_to_T2_witness :
  ∃ s', ARC.process_request arc_s3_state 5 = Returns (true, s') ∧
        last (ARC.T2 s') = Some 5 ∧ (5 ∉ ARC.T1 s') ∧
        (∀ x, x ∈ ARC.T1 s' ∨ x ∈ ARC.T2 s'
              ↔ x ∈ ARC.T1 arc_s3_state ∨ x ∈ ARC.T2 arc_s3_state) ∧
        ARC.B1 s' = ARC.B1 arc_s3_state ∧ ARC.B2 s' = ARC.B2 arc_s3_state ∧
        ARC.p s' = ARC.p arc_s3_state.
Proof.
  apply (X6_arc_hit_moves_to_T2 4 arc_s3_state 5); [lia|exact arc_s3_reachable|].
  left. simpl. apply list_elem_of_here.
Defined.

Lemma arc_balance_done fuel s :
  OD.len (ARC.T1 s) + OD.len (ARC.T2 s) ≤ ARC.cache_size s →
  ARC.balance fuel s = Returns s.
Proof.
  intros H. destruct fuel; simpl;
    destruct (Z.gtb_spec (OD.len (ARC.T1 s) + OD.len (ARC.T2 s)) (ARC.cache_size s));
    (lia || done).
Qed.

Lemma arc_balance_S fuel s :
  ARC.balance (S fuel) s =
    if OD.len (ARC.T1 s) + OD.len (ARC.T2 s) >? ARC.cache_size s then
      if OD.len (ARC.T1 s) >? ARC.p s then
        match ARC.T1 s with
        | old :: rest =>
            ARC.balance fuel
              {| ARC.cache_size := ARC.cache_size s; ARC.T1 := rest; ARC.T2 := ARC.T2 s;
                 ARC.B1 := OD.set old (ARC.B1 s); ARC.B2 := ARC.B2 s; ARC.p := ARC.p s |}
        | [] => Loops
        end
      else
        match ARC.T2 s with
        | old :: rest =>
            ARC.balance fuel
              {| ARC.cache_size := ARC.cache_size s; ARC.T1 := ARC.T1 s; ARC.T2 := rest;
                 ARC.B1 := ARC.B1 s; ARC.B2 := OD.set old (ARC.B2 s); ARC.p := ARC.p s |}
        | [] => Loops
        end
    else Returns s.
Proof. reflexivity. Qed.

Ltac arc_simpl :=
  cbn [ARC.T1 ARC.T2 ARC.B1 ARC.B2 ARC.p ARC.cache_size] in *.

(** X7. A new key is not always admitted. In the ARC engine with positive
    capacity, a request for a key that is in none of the four lists is a
    Miss; the key is left resident, at the most-recent end of T1, unless T1 is
    empty, T2 holds [cache_size] keys and [p] is 0. In that one case the
    balancing loop moves the new key itself to the ghost list: it is in
    neither T1 nor T2 after its own miss, and T2 is unchanged. *)
Theorem X7_arc_new_key_admission (c : Z) (s : ARC.ARCCache) (page : Z) :
  0 < c →
  reachable (ARC.init c) arc_step s →
  page ∉ ARC.T1 s → page ∉ ARC.T2 s → page ∉ ARC.B1 s → page ∉ ARC.B2 s →
  ∃ s', ARC.process_request s page = Returns (false, s') ∧
    (ARC.T1 s = [] ∧ OD.len (ARC.T2 s) = c ∧ ARC.p s = 0 →
     ARC.T1 s' = [] ∧ ARC.T2 s' = ARC.T2 s) ∧
    (¬ (ARC.T1 s = [] ∧ OD.len (ARC.T2 s) = c ∧ ARC.p s = 0) →
     last (ARC.T1 s') = Some page).
Proof.
  intros Hc Hr H1 H2 H3 H4. destruct (arc_reachable_inv c s Hc Hr) as [Hinv Hcs].
  pose proof Hinv as (Hwf & HT & Htot).
  destruct s as [cs t1 t2 b1 b2 p]. simpl in *. subst cs.
  unfold ARC.process_request. simpl.
  apply OD_contains_false in H1, H2, H3, H4. rewrite H1, H2, H3, H4. simpl.
  unfold OD.set. rewrite H1. apply OD_contains_false in H1, H2, H3, H4.
  set (s0 := {| ARC.cache_size := c; ARC.T1 := t1 ++ [page]; ARC.T2 := t2;
                ARC.B1 := b1; ARC.B2 := b2; ARC.p := p |}).
  assert (arc_wf s0) as Hwf0.
  { destruct Hwf as ((N1 & N2 & N3 & N4) & (D12 & D13 & D14 & D23 & D24 & D34) & Hp).
    simpl in *. subst s0. split_and!; simpl; auto; try lia.
    - apply NoDup_app. split_and!; [done| |apply NoDup_singleton].
      intros x Hx ->%list_elem_of_singleton. done.
    - intros x Hx%elem_of_app Hx'. destruct Hx as [Hx|Hx%list_elem_of_singleton];
        subst; eauto.
    - intros x Hx%elem_of_app Hx'. destruct Hx as [Hx|Hx%list_elem_of_singleton];
        subst; eauto.
    - intros x Hx%elem_of_app Hx'. destruct Hx as [Hx|Hx%list_elem_of_singleton];
        subst; eauto. }
  assert (0 ≤ p ≤ c) as Hp by apply Hwf.
  (* the balancing loop, one iteration at most *)
  assert (∃ s1, ARC.balance (length (ARC.T1 s0) + length (ARC.T2 s0)) s0 = Returns s1 ∧
            arc_wf s1 ∧ ARC.cache_size s1 = c ∧
            OD.len (ARC.T1 s1) + OD.len (ARC.T2 s1) ≤ c ∧
            (t1 = [] ∧ OD.len t2 = c ∧ p = 0 → ARC.T1 s1 = [] ∧ ARC.T2 s1 = t2) ∧
            (¬ (t1 = [] ∧ OD.len t2 = c ∧ p = 0) → last (ARC.T1 s1) = Some page))
    as (s1 & Hbal & Hwf1 & Hc1 & HT1 & Hcase1 & Hcase2).
  { unfold OD.len in *. simpl in HT.
    destruct (decide (Z.of_nat (length t1) + Z.of_nat (length t2) < c)) as [Hroom|Hfull].
    - exists s0. split_and!; [|done|done| | |].
      + apply arc_balance_done. subst s0. unfold OD.len. simpl.
        rewrite length_app. simpl. lia.
      + subst s0. simpl. rewrite length_app. simpl. lia.
      + intros (-> & Hlen & _). simpl in *. lia.
      + intros _. subst s0. simpl. apply last_snoc.
    - assert (Z.of_nat (length t1) + Z.of_nat (length t2) = c) as Hsum by lia.
      subst s0. arc_simpl. rewrite length_app. cbn [length].
      replace (length t1 + 1 + length t2)%nat with (S (length t1 + length t2)) by lia.
      rewrite arc_balance_S. arc_simpl. unfold OD.len. rewrite length_app. cbn [length].
      destruct (Z.gtb_spec (Z.of_nat (length t1 + 1) + Z.of_nat (length t2)) c)
        as [_|?]; [|lia].
      destruct (Z.gtb_spec (Z.of_nat (length t1 + 1)) p) as [Hgt|Hle].
      + destruct t1 as [|old rest]; cbn [app].
        * (* T1 was empty: the new key itself is demoted *)
          eexists. split; [apply arc_balance_done; unfold OD.len; simpl in *; lia|].
          pose proof (arc_demote_T1 c [] t2 b1 b2 p page Hwf0) as [Hwf' _].
          split_and!; [done|done|simpl in *; lia|done|].
          intros Hn. exfalso. apply Hn. simpl in *. split_and!; [done|lia|lia].
        * eexists. split.
          { apply arc_balance_done. unfold OD.len. simpl in *.
            rewrite length_app. simpl. lia. }
          pose proof (arc_demote_T1 c (rest ++ [page]) t2 b1 b2 p old Hwf0) as [Hwf' _].
          split_and!; [done|done| | |].
          -- simpl in *. rewrite length_app. simpl. lia.
          -- intros ([=] & _).
          -- intros _. simpl. apply last_snoc.
      + destruct t2 as [|old rest]; [simpl in *; lia|].
        eexists. split.
        { apply arc_balance_done. unfold OD.len. simpl in *.
          rewrite length_app. simpl. lia. }
        pose proof (arc_demote_T2 c (t1 ++ [page]) rest b1 b2 p old Hwf0) as [Hwf' _].
        split_and!; [done|done| | |].
        * simpl in *. rewrite length_app. simpl. lia.
        * intros (-> & _ & ->). simpl in *. lia.
        * intros _. simpl. apply last_snoc. }
  unfold ARC.rebalance. rewrite Hbal. simpl.
  destruct (arc_trim_spec (length (ARC.B1 s1) + length (ARC.B2 s1)) s1 Hwf1)
    as (s2 & -> & _ & _ & _ & HT1' & HT2' & _); [lia|lia|].
  simpl. exists s2. split; [done|]. rewrite HT1', HT2'. split; assumption.
Qed.

(** Capacity 1 after the keys 1, 1: key 1 in T2, T1 empty, p = 0. *)
Definition arc_t2_full_state : ARC.ARCCache :=
  {| ARC.cache_size := 1; ARC.T1 := []; ARC.T2 := [1];
     ARC.B1 := []; ARC.B2 := []; ARC.p := 0 |}.

Lemma arc_t2_full_reachable : reachable (ARC.init 1) arc_step arc_t2_full_state.
Proof.
  eapply (arc_run_reachable 1 _ [1; 1]).
  - apply reach_init. reflexivity.
  - vm_compute. reflexivity.
Qed.

Lemma X7_arc_new_key_admission_witness :
  ∃ s', ARC.process_request arc_t2_full_state 2 = Returns (false, s') ∧
    (ARC.T1 arc_t2_full_state = [] ∧ OD.len (ARC.T2 arc_t2_full_state) = 1 ∧
     ARC.p arc_t2_full_state = 0 →
     ARC.T1 s' = [] ∧ ARC.T2 s' = ARC.T2 arc_t2_full_state) ∧
    (¬ (ARC.T1 arc_t2_full_state = [] ∧ OD.len (ARC.T2 arc_t2_full_state) = 1 ∧
        ARC.p arc_t2_full_state = 0) →
     last (ARC.T1 s') = Some 2).
Proof.
  apply (X7_arc_new_key_admission 1 arc_t2_full_state 2);
    [lia|exact arc_t2_full_reachable|simpl..].
  - apply not_elem_of_nil.
  - intros H. apply elem_of_cons in H as [H|H]; [discriminate|]. by apply elem_of_nil in H.
  - apply not_elem_of_nil.
  - apply not_elem_of_nil.
Defined.

(** ** Belady: what one call does *)

(** X8. In the Belady engine with positive capacity, [access_page] reports a
    hit exactly when the page is resident; afterwards the page is resident
    and the table holds the next use just given. A hit and a miss with room
    evict nothing; a miss in a full cache evicts exactly one page, which was
    resident, is not the requested page, and leaves both the cache and the
    table, so the cache stays full. *)
Theorem X8_belady_access_page_post
  (c : Z) (s : Belady.OptimalCache) (page : Z) (nu : Belady.NextUse) :
  0 < c →
  reachable (Belady.init c) bel_step s →
  ∃ evicted s',
    Belady.access_page s page nu
      = ((bool_decide (page ∈ Belady.cache s), evicted), s') ∧
    page ∈ Belady.cache s' ∧
    Belady.page_next_use s' !! page = Some nu ∧
    (page ∈ Belady.cache s → evicted = None ∧ Belady.cache s' = Belady.cache s) ∧
    (page ∉ Belady.cache s → Z.of_nat (size (Belady.cache s)) < c →
     evicted = None ∧ Belady.cache s' = {[page]} ∪ Belady.cache s) ∧
    (page ∉ Belady.cache s → Z.of_nat (size (Belady.cache s)) = c →
     ∃ v, evicted = Some v ∧ v ≠ page ∧ v ∈ Belady.cache s ∧
          (v ∉ Belady.cache s') ∧ Belady.page_next_use s' !! v = None ∧
          Belady.cache s' = {[page]} ∪ (Belady.cache s ∖ {[v]}) ∧
          Z.of_nat (size (Belady.cache s')) = c).
Proof.
  intros Hc Hr. pose proof (bel_reachable_inv c s Hc Hr) as Hinv.
  pose proof (bel_access_cases c s page nu Hc Hinv) as Hcase.
  destruct Hinv as (Hcap & Htr & Hsize).
  destruct (Belady.access_page s page nu) as [[hit ev] s'].
  inversion Hcase as [Hin | Hnin Hroom | nu_v v pre h' Hnin Hfull Hheap Hpre Hv Hnuv];
    subst; bel_simpl.
  - exists None. eexists. rewrite bool_decide_eq_true_2 by done.
    split; [reflexivity|]. bel_simpl. rewrite lookup_insert_eq.
    split_and!; [done|done|done|done|done].
  - exists None. eexists. rewrite bool_decide_eq_false_2 by done.
    split; [reflexivity|]. bel_simpl. rewrite lookup_insert_eq.
    split_and!; [set_solver|done|done|done|intros; lia].
  - exists (Some v). eexists. rewrite bool_decide_eq_false_2 by done.
    split; [reflexivity|]. bel_simpl. rewrite lookup_insert_eq.
    assert (v ≠ page) as Hne by (intros ->; done).
    split_and!; [set_solver|done|done|intros; lia|].
    intros _ _. exists v. split_and!; [done|done|done|set_solver| |done|].
    + rewrite lookup_insert_ne, lookup_delete_eq by done. done.
    + rewrite gset_size_insert_new by set_solver.
      pose proof (gset_size_remove v _ Hv). lia.
Qed.

Lemma X8_belady_access_page_post_witness :
  ∃ evicted s',
    Belady.access_page bel_s2_state 2 Belady.INFINITY
      = ((bool_decide (2 ∈ Belady.cache bel_s2_state), evicted), s') ∧
    2 ∈ Belady.cache s' ∧
    Belady.page_next_use s' !! 2 = Some Belady.INFINITY ∧
    (2 ∈ Belady.cache bel_s2_state →
     evicted = None ∧ Belady.cache s' = Belady.cache bel_s2_state) ∧
    (2 ∉ Belady.cache bel_s2_state →
     Z.of_nat (size (Belady.cache bel_s2_state)) < 2 →
     evicted = None ∧ Belady.cache s' = {[2]} ∪ Belady.cache bel_s2_state) ∧
    (2 ∉ Belady.cache bel_s2_state →
     Z.of_nat (size (Belady.cache bel_s2_state)) = 2 →
     ∃ v, evicted = Some v ∧ v ≠ 2 ∧ v ∈ Belady.cache bel_s2_state ∧
          (v ∉ Belady.cache s') ∧ Belady.page_next_use s' !! v = None ∧
          Belady.cache s' = {[2]} ∪ (Belady.cache bel_s2_state ∖ {[v]}) ∧
          Z.of_nat (size (Belady.cache s')) = 2).
Proof.
  apply (X8_belady_access_page_post 2 bel_s2_state 2 Belady.INFINITY);
    [lia|apply bel_s2_reachable].
Defined.

(** The heap stays sorted: [heappush] inserts in order and the pop loop
    leaves a suffix. *)
Lemma bel_access_sorted s page nu :
  StronglySorted entry_le (Belady.heap s) →
  StronglySorted entry_le (Belady.heap (Belady.access_page s page nu).2).
Proof.
  intros Hs. unfold Belady.access_page.
  destruct (bool_decide (page ∈ Belady.cache s)).
  { bel_simpl. by apply heappush_sorted. }
  destruct (Z.of_nat (size (Belady.cache s)) >=? Belady.capacity s).
  2:{ bel_simpl. by apply heappush_sorted. }
  pose proof (evict_loop_spec (Belady.heap s) (Belady.cache s) (Belady.page_next_use s)) as H.
  destruct (Belady.evict_loop _ _ _) as [[[[w|] h'] c'] pnu']; bel_simpl.
  - destruct H as (nu_v & pre & Hh & _). apply heappush_sorted.
    rewrite Hh in Hs. apply StronglySorted_app in Hs as (_ & _ & Hs).
    by apply StronglySorted_cons in Hs as [_ Hs].
  - destruct H as (-> & _). apply heappush_sorted. constructor.
Qed.

Lemma bel_reachable_sorted c s :
  reachable (Belady.init c) bel_step s → StronglySorted entry_le (Belady.heap s).
Proof.
  revert s.
  apply (reachable_invariant _ _ (λ s, StronglySorted entry_le (Belady.heap s))).
  - intros s0 [= <-]. bel_simpl. constructor.
  - intros s1 s2 Hs (page & nu & ->). by apply bel_access_sorted.
Qed.

(** X9. The page the Belady engine evicts is the resident page with the
    largest recorded next use ([INFINITY] above every index); among pages
    with the same recorded next use it is the one with the smallest page
    number. *)
Theorem X9_belady_victim_farthest
  (c : Z) (s : Belady.OptimalCache) (page : Z) (nu : Belady.NextUse) (v : Z) :
  0 < c →
  reachable (Belady.init c) bel_step s →
  (Belady.access_page s page nu).1.2 = Some v →
  ∃ nu_v, Belady.page_next_use s !! v = Some nu_v ∧
    ∀ p, p ∈ Belady.cache s →
      ∃ nu_p, Belady.page_next_use s !! p = Some nu_p ∧
              Belady.nu_ltb nu_v nu_p = false ∧
              (nu_p = nu_v → v ≤ p).
Proof.
  intros Hc Hr Hev.
  destruct (bel_reachable_inv c s Hc Hr) as (_ & Htr & _).
  pose proof (bel_reachable_sorted c s Hr) as Hs.
  apply bel_victim_spec in Hev as (Hv & nu_v & pre & rest & Hheap & Hnuv & Hpre & _).
  exists nu_v. split; [done|]. intros p Hp.
  destruct (Htr p Hp) as (nu_p & Hnp & Hinp). exists nu_p. split; [done|].
  rewrite Hheap in Hs, Hinp.
  apply StronglySorted_app in Hs as (_ & _ & Hs).
  apply StronglySorted_cons in Hs as [Hmin _].
  apply elem_of_app in Hinp as [Hinp|Hinp].
  { exfalso. rewrite Forall_forall in Hpre. destruct (Hpre _ Hinp) as [H|H]; done. }
  apply elem_of_cons in Hinp as [[= -> ->]|Hinp].
  { rewrite nu_ltb_irrefl. split; [done|]. lia. }
  rewrite Forall_forall in Hmin. specialize (Hmin _ Hinp).
  unfold entry_le, Belady.entry_ltb in Hmin. simpl in Hmin.
  apply orb_false_iff in Hmin as [Hlt Htie]. split; [done|].
  intros ->. rewrite bool_decide_eq_true_2 in Htie by done. simpl in Htie.
  apply Z.ltb_ge in Htie. done.
Qed.

Lemma X9_belady_victim_farthest_witness :
  ∃ nu_v, Belady.page_next_use bel_s2_state !! 3 = Some nu_v ∧
    ∀ p, p ∈ Belady.cache bel_s2_state →
      ∃ nu_p, Belady.page_next_use bel_s2_state !! p = Some nu_p ∧
              Belady.nu_ltb nu_v nu_p = false ∧
              (nu_p = nu_v → 3 ≤ p).
Proof.
  apply (X9_belady_victim_farthest 2 bel_s2_state 2 (Belady.Idx 4) 3);
    [lia|apply bel_s2_reachable|reflexivity].
Defined.

(** ** Belady: no schedule that loads every missed key has more hits *)

(** A demand schedule for [keys] with [c] slots: [A t] is the resident set
    before request [t]. It starts empty, loads nothing but the requested
    key, has the requested key resident after the request, and never holds
    more than [c] keys. *)
Definition demand_schedule (c : Z) (keys : list Z) (A : nat → gset Z) : Prop :=
  A 0%nat = ∅ ∧
  ∀ t x, keys !! t = Some x →
    A (S t) ⊆ {[x]} ∪ A t ∧ x ∈ A (S t) ∧ Z.of_nat (size (A (S t))) ≤ c.

(** Hits of the schedule among the first [t] requests. *)
Fixpoint schedule_hits (keys : list Z) (A : nat → gset Z) (t : nat) : Z :=
  match t with
  | O => 0
  | S t' =>
      schedule_hits keys A t' +
      match keys !! t' with
      | Some x => if decide (x ∈ A t') then 1 else 0
      | None => 0
      end
  end.

(** One iteration of the Belady driver. *)
Lemma bel_request_step rows next_use t stB x op nu :
  rows !! t = Some (x, op) → next_use !! t = Some nu →
  ∃ stB', Belady.request rows next_use stB t = Returns stB' ∧
    Belady.engine stB' = (Belady.access_page (Belady.engine stB) x nu).2 ∧
    Belady.total_hits stB' = Belady.total_hits stB +
      (if decide (x ∈ Belady.cache (Belady.engine stB)) then 1 else 0) ∧
    Belady.total_hits stB' + Belady.total_misses stB'
      = Belady.total_hits stB + Belady.total_misses stB + 1.
Proof.
  intros Hrow Hnu.
  unfold Belady.request, Belady.index, Belady.is_hit. rewrite Hrow, Hnu. simpl.
  destruct (decide (x ∈ Belady.cache (Belady.engine stB))) as [H|H].
  - rewrite bool_decide_eq_true_2 by done. eexists. split_and!; try done. simpl. lia.
  - rewrite bool_decide_eq_false_2 by done. eexists. split_and!; try done; simpl; lia.
Qed.

Definition opt_inv (c : Z) (keys : list Z) (A : nat → gset Z) (t : nat)
  (stB : Belady.Sim) : Prop :=
  bel_inv c (Belady.engine stB) ∧
  bel_trace_inv keys t (Belady.engine stB) ∧
  0 ≤ Belady.total_hits stB - schedule_hits keys A t ∧
  ∀ k, Z.of_nat (size (A t ∩ window keys t k))
       ≤ Z.of_nat (size (Belady.cache (Belady.engine stB) ∩ window keys t k))
         + (Belady.total_hits stB - schedule_hits keys A t).

Lemma opt_loop c rows next_use A t :
  0 < c →
  (∀ i x, keys_of rows !! i = Some x →
          next_use !! i = Some (next_occ (keys_of rows) (S i) x)) →
  demand_schedule c (keys_of rows) A →
  (t ≤ length rows)%nat →
  ∃ stB,
    for_each (Belady.request rows next_use) (seq 0 t)
      (Belady.start {| Belady.capacity := c; Belady.cache := ∅; Belady.heap := [];
                       Belady.page_next_use := ∅ |}) = Returns stB ∧
    opt_inv c (keys_of rows) A t stB.
Proof.
  intros Hc Hnu [HA0 HA]. induction t as [|t IH]; intros Ht.
  - simpl. eexists. split; [reflexivity|]. unfold opt_inv. rewrite HA0.
    split_and!; simpl.
    + split_and!; bel_simpl; [done| |rewrite size_empty; lia].
      intros k Hk. bel_simpl. by apply not_elem_of_empty in Hk.
    + split; bel_simpl; [constructor|]. intros p Hp. by apply not_elem_of_empty in Hp.
    + lia.
    + intros k. replace (∅ ∩ window (keys_of rows) 0 k) with (∅ : gset Z) by set_solver.
      rewrite size_empty. lia.
  - destruct IH as (stB & HB & HI & HT & Hd & Hdom); [lia|].
    destruct (lookup_lt_is_Some_2 rows t) as [[x op] Hrow]; [lia|].
    assert (keys_of rows !! t = Some x) as Hkey.
    { unfold keys_of. by rewrite list_lookup_fmap, Hrow. }
    destruct (bel_request_step rows next_use t stB x op _ Hrow (Hnu t x Hkey))
      as (stB' & Hreq & Heng & Hhits & _).
    exists stB'. split.
    { rewrite seq_S, for_each_snoc, HB. exact Hreq. }
    pose proof (bel_access_inv c (Belady.engine stB) x
                  (next_occ (keys_of rows) (S t) x) Hc HI) as HI'.
    destruct (bel_access_trace c (keys_of rows) t (Belady.engine stB) x Hc HI HT Hkey)
      as [HT' Hset].
    destruct (HA t x Hkey) as (Hsub & Hin & Hsize).
    destruct (dominance_step c (A t) (Belady.cache (Belady.engine stB))
                (A (S t)) (Belady.cache (Belady.engine stB')) x
                (window (keys_of rows) t) (window (keys_of rows) (S t))
                (Belady.total_hits stB - schedule_hits (keys_of rows) A t))
      as [Hd' Hdom'].
    { apply window_0. }
    { intros k. by apply window_S. }
    { exact Hdom. }
    { exact Hsub. }
    { exact Hin. }
    { exact Hsize. }
    { rewrite Heng. exact Hset. }
    unfold opt_inv. rewrite Heng in *. simpl schedule_hits. rewrite Hkey, Hhits.
    split_and!; [done|done|lia|].
    intros k. specialize (Hdom' k). lia.
Qed.

(** X10. The Belady driver is optimal among demand schedules: for every
    request sequence and positive capacity, a schedule that starts empty,
    loads only the requested key, keeps it after the request and never holds
    more than [c] keys has at most as many hits as the Belady simulation
    reports. *)
Theorem X10_belady_optimal_among_demand_schedules
  (c : Z) (rows : list (Z * string)) (A : nat → gset Z) :
  0 < c →
  demand_schedule c (keys_of rows) A →
  ∃ stats e log,
    Belady.simulate_precomputed c rows = Returns (stats, e, log) ∧
    schedule_hits (keys_of rows) A (length rows) ≤ total_hit stats.
Proof.
  intros Hc HA.
  destruct (precompute_next_use_returns rows) as (nu & Hpre & Hlen & Hspec).
  destruct (opt_loop c rows nu A (length rows) Hc Hspec HA)
    as (stB & HB & (_ & _ & Hd & _)); [done|].
  unfold Belady.simulate_precomputed, Belady.simulate.
  rewrite Hpre. simpl. rewrite HB. simpl.
  eexists _, _, _. split; [reflexivity|]. simpl. lia.
Qed.

(** A schedule for scenario S2 with two slots: it drops key 2 for key 3. *)
Definition s2_schedule (t : nat) : gset Z :=
  nth t [∅; {[1]}; {[1; 2]}; {[1; 3]}; {[1; 3]}; {[1; 2]}; {[1; 2]}] ∅.

Lemma s2_schedule_demand : demand_schedule 2 (keys_of s2_rows) s2_schedule.
Proof.
  split; [done|]. intros t x H.
  do 6 (destruct t as [|t];
        [injection H as <-; split_and!;
           [set_solver|set_solver|vm_compute; discriminate]|]).
  by destruct t.
Qed.

Lemma X10_belady_optimal_among_demand_schedules_witness :
  ∃ stats e log,
    Belady.simulate_precomputed 2 s2_rows = Returns (stats, e, log) ∧
    schedule_hits (keys_of s2_rows) s2_schedule (length s2_rows) ≤ total_hit stats.
Proof.
  apply (X10_belady_optimal_among_demand_schedules 2 s2_rows s2_schedule);
    [lia|apply s2_schedule_demand].
Defined.

(** ** Belady: the driver and the length of the next-use array *)

Lemma bel_loop_counts rows next_use st0 t :
  (t ≤ length rows)%nat → (t ≤ length next_use)%nat →
  ∃ st, for_each (Belady.request rows next_use) (seq 0 t) st0 = Returns st ∧
    Belady.total_hits st + Belady.total_misses st
      = Belady.total_hits st0 + Belady.total_misses st0 + Z.of_nat t ∧
    Belady.read_hits st + Belady.read_misses st
      = Belady.read_hits st0 + Belady.read_misses st0
        + count_if (λ r, r.2 = "read"%string) (take t rows) ∧
    Belady.write_hits st + Belady.write_misses st
      = Belady.write_hits st0 + Belady.write_misses st0
        + count_if (λ r, r.2 ≠ "read"%string) (take t rows) ∧
    Belady.total_hits st
      = Belady.read_hits st + Belady.write_hits st
        + (Belady.total_hits st0 - Belady.read_hits st0 - Belady.write_hits st0) ∧
    length (Belady.log st) = (length (Belady.log st0) + t)%nat.
Proof.
  induction t as [|t IH]; intros Hr Hn.
  - simpl. eexists. split; [reflexivity|]. unfold count_if. simpl. split_and!; lia.
  - destruct IH as (st & Hloop & Htot & Hrd & Hwr & Hth & Hlog); [lia..|].
    destruct (lookup_lt_is_Some_2 rows t) as [[x op] Hrow]; [lia|].
    destruct (lookup_lt_is_Some_2 next_use t) as [nu Hnu]; [lia|].
    rewrite seq_S, for_each_snoc, Hloop. simpl.
    rewrite (take_S_r _ _ _ Hrow).
    assert (∀ P `{!∀ x, Decision (P x)},
              count_if P (take t rows ++ [(x, op)])
              = count_if P (take t rows) + if decide (P (x, op)) then 1 else 0) as Hsnoc.
    { intros P ?. unfold count_if. rewrite filter_app, length_app, filter_cons, filter_nil.
      destruct (decide (P (x, op))); simpl; lia. }
    rewrite !Hsnoc. simpl.
    unfold Belady.request, Belady.index. rewrite Hrow, Hnu. simpl.
    destruct (Belady.is_hit (Belady.engine st) x);
      destruct (String.eqb_spec op "read") as [->|Hne];
      eexists; (split; [reflexivity|]); simpl; rewrite ?length_app; simpl;
      repeat case_decide; try done; split_and!; lia.
Qed.

(** X11. [simulate] reads [next_use[i]] for every request: with a next-use
    array shorter than the sequence it raises [IndexError]; otherwise it
    returns, whatever the capacity, and entries beyond the sequence are never
    read. When it returns there is one hit-or-miss per request, a request
    counts as a read when its type is the string "read" and as a write for
    any other string, and the total hits are the read plus the write hits. *)
Theorem X11_belady_simulate_next_use_length
  (c : Z) (rows : list (Z * string)) (next_use : list Belady.NextUse) :
  ((length rows ≤ length next_use)%nat →
   Belady.simulate c rows next_use
     = Belady.simulate c rows (take (length rows) next_use) ∧
   ∃ stats e log,
     Belady.simulate c rows next_use = Returns (stats, e, log) ∧
     length log = length rows ∧
     total_req stats = Z.of_nat (length rows) ∧
     total_hit stats + total_miss stats = total_req stats ∧
     read_req stats = count_if (λ r, r.2 = "read"%string) rows ∧
     write_req stats = count_if (λ r, r.2 ≠ "read"%string) rows ∧
     total_hit stats = read_hit stats + write_hit stats) ∧
  ((length next_use < length rows)%nat →
   Belady.simulate c rows next_use = Raises IndexError).
Proof.
  split.
  - intros Hlen. split.
    + unfold Belady.simulate. simpl. f_equal.
      assert (∀ l st, (∀ i, i ∈ l → (i < length rows)%nat) →
                for_each (Belady.request rows next_use) l st
                = for_each (Belady.request rows (take (length rows) next_use)) l st)
        as Hsame.
      { induction l as [|i l IH]; intros st Hl; [done|]. simpl.
        assert (Belady.request rows next_use st i
                = Belady.request rows (take (length rows) next_use) st i) as ->.
        { unfold Belady.request, Belady.index.
          rewrite lookup_take_lt by (apply Hl; left). done. }
        destruct (Belady.request _ _ st i); simpl; [|done..].
        apply IH. intros j Hj. apply Hl. by right. }
      rewrite Hsame; [done|]. intros i Hi%elem_of_seq. lia.
    + unfold Belady.simulate. simpl.
      destruct (bel_loop_counts rows next_use
                  (Belady.start {| Belady.capacity := c; Belady.cache := ∅;
                                   Belady.heap := []; Belady.page_next_use := ∅ |})
                  (length rows))
        as (st & -> & Htot & Hrd & Hwr & Hth & Hlog); [lia..|].
      rewrite firstn_all in Hrd, Hwr. simpl in *.
      eexists _, _, _. split; [reflexivity|]. simpl. split_and!; lia.
  - intros Hlen. unfold Belady.simulate. simpl.
    replace (length rows) with (length next_use + S (length rows - S (length next_use)))%nat
      by lia.
    rewrite seq_app, for_each_app.
    destruct (bel_loop_counts rows next_use
                (Belady.start {| Belady.capacity := c; Belady.cache := ∅;
                                 Belady.heap := []; Belady.page_next_use := ∅ |})
                (length next_use))
      as (st & -> & _); [lia..|].
    simpl. destruct (lookup_lt_is_Some_2 rows (length next_use)) as [[x op] Hrow]; [lia|].
    assert (Belady.request rows next_use st (length next_use) = Raises IndexError) as ->.
    { unfold Belady.request, Belady.index. rewrite Hrow.
      rewrite (lookup_ge_None_2 next_use (length next_use)) by lia. done. }
    done.
Qed.

(** ** LARC: small capacities, and what a hit needs *)

(** Below capacity 10 the initial limit [0.1 * cache_size] is under 1. *)
Lemma larc_small_limit (c : Z) :
  0 ≤ c ≤ 9 →
  PyFloat.int_gt 1 (PrimFloat.mul PyFloat.f0_1 (PyFloat.round_int c)) = true.
Proof.
  intros Hc.
  assert (c = 0 ∨ c = 1 ∨ c = 2 ∨ c = 3 ∨ c = 4 ∨ c = 5 ∨ c = 6 ∨ c = 7 ∨ c = 8 ∨ c = 9)
    as Hcases by lia.
  repeat (destruct Hcases as [->|Hcases]; [vm_compute; reflexivity|]).
  subst c. vm_compute. reflexivity.
Qed.

(** The LARC engine as constructed. *)
Definition larc_fresh (c : Z) : LARC.LARCCache :=
  {| LARC.cache_size := c; LARC.cache := OD.empty; LARC.recent_cache := OD.empty;
     LARC.recent_cache_limit := PrimFloat.mul PyFloat.f0_1 (PyFloat.round_int c) |}.

Lemma larc_small_request (c : Z) (page : Z) :
  0 ≤ c ≤ 9 →
  LARC.process_request (larc_fresh c) page = Returns (false, larc_fresh c).
Proof.
  intros Hc. unfold LARC.process_request, larc_fresh, OD.empty.
  cbn [LARC.cache LARC.recent_cache LARC.cache_size LARC.recent_cache_limit].
  assert (OD.contains page [] = false) as E.
  { apply OD_contains_false, not_elem_of_nil. }
  rewrite E. unfold OD.set. rewrite E.
  change (OD.len ([] ++ [page])) with 1.
  rewrite (larc_small_limit c Hc). done.
Qed.

(** X12. Below capacity 10 the LARC engine caches nothing. With
    [0 <= cache_size <= 9] the limit [0.1 * cache_size] is under 1, so every
    new key is dropped from [recent_cache] by the call that added it: the
    simulation returns, every served request is a miss, and both structures
    are empty at the end. *)
Theorem X12_larc_small_capacity_never_hits (c : Z) (rows : list (Z * string)) :
  0 ≤ c ≤ 9 →
  ∃ stats e log,
    LARC.simulate c rows = Returns (stats, e, log) ∧
    Forall (λ h, h = false) log ∧
    total_hit stats = 0 ∧
    total_miss stats = count_if served rows ∧
    LARC.cache e = [] ∧ LARC.recent_cache e = [].
Proof.
  intros Hc. unfold LARC.simulate, LARC.init.
  rewrite (of_int_returns c) by (pose proof overflow_at_large; lia).
  simpl. fold (larc_fresh c).
  assert (∀ st, LARC.engine st = larc_fresh c →
            ∃ st', for_each LARC.request rows st = Returns st' ∧
              LARC.engine st' = larc_fresh c ∧
              (Forall (λ h, h = false) (LARC.log st) →
               Forall (λ h, h = false) (LARC.log st')) ∧
              LARC.read_hits st' = LARC.read_hits st ∧
              LARC.write_hits st' = LARC.write_hits st ∧
              LARC.read_misses st' + LARC.write_misses st'
                = LARC.read_misses st + LARC.write_misses st + count_if served rows)
    as Hloop.
  { induction rows as [|[page op] rows IH]; intros st Hst.
    - simpl. exists st. unfold count_if. simpl. split_and!; [done..|lia].
    - assert (∃ st1, LARC.request st (page, op) = Returns st1 ∧
                LARC.engine st1 = larc_fresh c ∧
                (Forall (λ h, h = false) (LARC.log st) →
                 Forall (λ h, h = false) (LARC.log st1)) ∧
                LARC.read_hits st1 = LARC.read_hits st ∧
                LARC.write_hits st1 = LARC.write_hits st ∧
                LARC.read_misses st1 + LARC.write_misses st1
                  = LARC.read_misses st + LARC.write_misses st
                    + (if decide (served (page, op)) then 1 else 0))
        as (st1 & Hreq & He1 & Hlog1 & Hrh1 & Hwh1 & Hm1).
      { unfold LARC.request. rewrite Hst, (larc_small_request c page Hc).
        unfold served. simpl.
        destruct (String.eqb_spec op "Read") as [->|Hr];
          [|destruct (String.eqb_spec op "Write") as [->|Hw]];
          simpl; eexists; (split; [reflexivity|]); simpl;
          (split_and!; [done| |done|done|]);
          try (intros H; apply Forall_app; split; [done|by constructor]);
          try done;
          first [lia | case_decide as Hd; [try lia|try lia]];
          first [exfalso; apply Hd; by auto | destruct Hd; done]. }
      change (for_each LARC.request ((page, op) :: rows) st)
        with (LARC.request st (page, op) ≫= for_each LARC.request rows).
      rewrite Hreq. simpl.
      destruct (IH st1 He1) as (st' & -> & He & Hlog & Hrh & Hwh & Hm).
      exists st'. rewrite count_if_cons. split_and!; [done|done|auto|lia|lia|lia]. }
  destruct (Hloop (LARC.start (larc_fresh c)) eq_refl)
    as (st' & -> & He & Hlog & Hrh & Hwh & Hm).
  simpl in *. eexists _, _, _. split; [reflexivity|]. rewrite He. simpl.
  split_and!; [by apply Hlog|lia|lia|done|done].
Qed.

Lemma X12_larc_small_capacity_never_hits_witness :
  ∃ stats e log,
    LARC.simulate 9 s1_mixed = Returns (stats, e, log) ∧
    Forall (λ h, h = false) log ∧
    total_hit stats = 0 ∧
    total_miss stats = count_if served s1_mixed ∧
    LARC.cache e = [] ∧ LARC.recent_cache e = [].
Proof. apply (X12_larc_small_capacity_never_hits 9 s1_mixed). lia. Defined.

(** The keys of the rows a driver serves, in order. *)
Definition served_keys (rows : list (Z * string)) : list Z := (filter served rows).*1.

Lemma count_if_app {A} (P : A → Prop) `{!∀ x, Decision (P x)} (l1 l2 : list A) :
  count_if P (l1 ++ l2) = count_if P l1 + count_if P l2.
Proof. unfold count_if. rewrite filter_app, length_app. lia. Qed.

Lemma count_if_nonneg {A} (P : A → Prop) `{!∀ x, Decision (P x)} (l : list A) :
  0 ≤ count_if P l.
Proof. unfold count_if. lia. Qed.

(** The LARC engine after the requests [h]: a key of [recent_cache] was
    requested before, a key of [cache] at least twice, and no key is in both. *)
Definition larc_hist (h : list Z) (s : LARC.LARCCache) : Prop :=
  (∀ k, k ∈ LARC.cache s → 2 ≤ count_if (λ x, x = k) h) ∧
  (∀ k, k ∈ LARC.recent_cache s → 1 ≤ count_if (λ x, x = k) h) ∧
  NoDup (LARC.cache s) ∧ NoDup (LARC.recent_cache s) ∧
  (∀ k, k ∈ LARC.cache s → k ∉ LARC.recent_cache s).

Lemma larc_process_hist h s page hit s' :
  larc_hist h s →
  LARC.process_request s page = Returns (hit, s') →
  larc_hist (h ++ [page]) s' ∧
  (hit = true → 2 ≤ count_if (λ x, x = page) h) ∧
  (hit = true ↔ page ∈ LARC.cache s).
Proof.
  intros (Hc & Hr & Hnc & Hnr & Hdisj).
  assert (∀ k, count_if (λ x, x = k) (h ++ [page])
               = count_if (λ x, x = k) h + if decide (page = k) then 1 else 0) as Hcnt.
  { intros k. rewrite count_if_app. f_equal. unfold count_if.
    rewrite filter_cons, filter_nil. by destruct (decide (page = k)). }
  destruct s as [cap cache recent limit]. simpl in *.
  unfold LARC.process_request. simpl.
  destruct (OD.contains page cache) eqn:E1.
  - apply OD_contains_true in E1.
    intros Hret. apply bind_returns in Hret as (cf & _ & Hret).
    apply bind_returns in Hret as (q & _ & [= <- <-]).
    split; [|split; [auto|done]]. unfold larc_hist. simpl.
    split_and!; [| |by apply OD_NoDup_move_to_end|done|].
    + intros k Hk%OD_elem_of_move_to_end. rewrite Hcnt.
      assert (k ∈ cache) as Hk' by (destruct Hk as [->|[? _]]; done).
      specialize (Hc k Hk'). destruct (decide (page = k)); lia.
    + intros k Hk. rewrite Hcnt. specialize (Hr k Hk). destruct (decide (page = k)); lia.
    + intros k Hk%OD_elem_of_move_to_end. apply Hdisj.
      destruct Hk as [->|[? _]]; done.
  - apply OD_contains_false in E1.
    destruct (OD.contains page recent) eqn:E2.
    + apply OD_contains_true in E2.
      intros Hret. apply bind_returns in Hret as (cf & _ & Hret).
      apply bind_returns in Hret as (q & _ & H).
      apply bind_returns in H as (cache2 & H2 & [= <- <-]).
      split; [|split; [done|]]; [|split; [done|intros; done]].
      assert (∀ k, k ∈ cache2 → k ∈ cache ∨ k = page) as Hsub.
      { intros k Hk. assert (k ∈ OD.set page cache) as Hs.
        { destruct (OD.len (OD.set page cache) >? cap).
          - destruct (OD.set page cache) as [|old rest]; [discriminate|].
            simpl in H2. injection H2 as <-. by right.
          - by injection H2 as <-. }
        apply OD_elem_of_set in Hs. tauto. }
      assert (NoDup cache2) as Hnd2.
      { pose proof (OD_NoDup_set page cache Hnc) as Hnd.
        destruct (OD.len (OD.set page cache) >? cap).
        - destruct (OD.set page cache) as [|old rest]; [discriminate|].
          simpl in H2. injection H2 as <-. by apply NoDup_cons in Hnd as [_ ?].
        - by injection H2 as <-. }
      unfold larc_hist. simpl. split_and!; [| |done|by apply OD_NoDup_pop|].
      * intros k Hk. rewrite Hcnt. destruct (Hsub k Hk) as [Hk'| ->].
        -- specialize (Hc k Hk'). destruct (decide (page = k)); lia.
        -- specialize (Hr page E2). rewrite decide_True by done. lia.
      * intros k Hk%OD_elem_of_pop. destruct Hk as [Hk _]. rewrite Hcnt.
        specialize (Hr k Hk). destruct (decide (page = k)); lia.
      * intros k Hk Hk'%OD_elem_of_pop. destruct Hk' as [Hk' Hne].
        destruct (Hsub k Hk) as [Hk2| ->]; [|done]. by apply (Hdisj k).
    + apply OD_contains_false in E2.
      intros Hret. apply bind_returns in Hret as (recent2 & H2 & [= <- <-]).
      split; [|split; [done|]]; [|split; [done|intros; done]].
      assert (∀ k, k ∈ recent2 → k ∈ recent ∨ k = page) as Hsub.
      { intros k Hk. assert (k ∈ OD.set page recent) as Hs.
        { destruct (PyFloat.int_gt (OD.len (OD.set page recent)) limit).
          - destruct (OD.set page recent) as [|old rest]; [discriminate|].
            simpl in H2. injection H2 as <-. by right.
          - by injection H2 as <-. }
        apply OD_elem_of_set in Hs. tauto. }
      assert (NoDup recent2) as Hnd2.
      { pose proof (OD_NoDup_set page recent Hnr) as Hnd.
        destruct (PyFloat.int_gt (OD.len (OD.set page recent)) limit).
        - destruct (OD.set page recent) as [|old rest]; [discriminate|].
          simpl in H2. injection H2 as <-. by apply NoDup_cons in Hnd as [_ ?].
        - by injection H2 as <-. }
      unfold larc_hist. simpl. split_and!; [| |done|done|].
      * intros k Hk. rewrite Hcnt. specialize (Hc k Hk). destruct (decide (page = k)); lia.
      * intros k Hk. rewrite Hcnt. destruct (Hsub k Hk) as [Hk'| ->].
        -- specialize (Hr k Hk'). destruct (decide (page = k)); lia.
        -- rewrite decide_True by done.
           pose proof (count_if_nonneg (λ x, x = page) h). lia.
      * intros k Hk Hk'. destruct (Hsub k Hk') as [Hk2| ->]; [by apply (Hdisj k)|done].
Qed.

(** The LARC driver after the served requests [h]. *)
Definition larc_sim_hist (h : list Z) (st : LARC.Sim) : Prop :=
  larc_hist h (LARC.engine st) ∧
  length (LARC.log st) = length h ∧
  ∀ i, LARC.log st !! i = Some true →
       ∃ k, h !! i = Some k ∧ 2 ≤ count_if (λ x, x = k) (take i h).

Lemma larc_sim_hist_served h st page hit e st' :
  larc_sim_hist h st →
  LARC.process_request (LARC.engine st) page = Returns (hit, e) →
  LARC.engine st' = e → LARC.log st' = LARC.log st ++ [hit] →
  larc_sim_hist (h ++ [page]) st'.
Proof.
  intros (Hh & Hlen & Hlog) Hreq He Hl.
  destruct (larc_process_hist h _ page hit e Hh Hreq) as (Hh' & Hhit & _).
  unfold larc_sim_hist. rewrite He, Hl. split_and!; [done| |].
  - rewrite !length_app. simpl. lia.
  - intros i Hi. destruct (decide (i < length h)%nat) as [Hlt|Hge].
    + rewrite lookup_app_l in Hi by lia. destruct (Hlog i Hi) as (k & Hk & Hcnt).
      exists k. rewrite lookup_app_l by lia. split; [done|].
      rewrite take_app_le by lia. done.
    + assert (i = length h) as ->.
      { apply lookup_lt_Some in Hi. rewrite length_app in Hi. simpl in Hi. lia. }
      rewrite <- Hlen in Hi at 1. rewrite list_lookup_middle in Hi by done.
      injection Hi as ->. exists page.
      rewrite list_lookup_middle by done. split; [done|].
      rewrite take_app_length. auto.
Qed.

Lemma larc_loop_hist rows :
  ∀ h st st', larc_sim_hist h st →
    for_each LARC.request rows st = Returns st' →
    larc_sim_hist (h ++ served_keys rows) st'.
Proof.
  induction rows as [|[page op] rows IH]; intros h st st' Hst Hloop.
  - injection Hloop as <-. unfold served_keys. simpl. by rewrite app_nil_r.
  - change (for_each LARC.request ((page, op) :: rows) st)
      with (LARC.request st (page, op) ≫= for_each LARC.request rows) in Hloop.
    apply bind_returns in Hloop as (st1 & Hreq & Hloop).
    destruct (decide (served (page, op))) as [Hs|Hs].
    + assert (served_keys ((page, op) :: rows) = page :: served_keys rows) as ->.
      { unfold served_keys. by rewrite filter_cons, decide_True. }
      rewrite cons_middle, (assoc_L (++) h [page]). apply (IH _ st1); [|done].
      unfold LARC.request in Hreq. unfold served in Hs. simpl in Hs.
      destruct (String.eqb_spec op "Read") as [->|Hr].
      { apply bind_returns in Hreq as ([hit e] & Hp & [= <-]).
        by eapply larc_sim_hist_served. }
      destruct (String.eqb_spec op "Write") as [->|Hw]; [|tauto].
      apply bind_returns in Hreq as ([hit e] & Hp & [= <-]).
      by eapply larc_sim_hist_served.
    + assert (served_keys ((page, op) :: rows) = served_keys rows) as ->.
      { unfold served_keys. by rewrite filter_cons, decide_False. }
      rewrite (larc_request_skips st (page, op) Hs) in Hreq. injection Hreq as <-.
      by apply (IH h st).
Qed.

(** X13. LARC admits no key on its first request. In a run that returns,
    the hit log has one entry per served row; a request can be a hit only if
    the same key was requested at least twice before it (once to enter
    [recent_cache], once to be promoted); and at the end no key is in both
    [cache] and [recent_cache]. *)
Theorem X13_larc_hit_needs_two_earlier_requests
  (c : Z) (rows : list (Z * string)) (stats : Stats) (e : LARC.LARCCache)
  (log : list bool) :
  LARC.simulate c rows = Returns (stats, e, log) →
  length log = length (served_keys rows) ∧
  (∀ i, log !! i = Some true →
        ∃ k, served_keys rows !! i = Some k ∧
             2 ≤ count_if (λ x, x = k) (take i (served_keys rows))) ∧
  (∀ k, k ∈ LARC.cache e → (k ∉ LARC.recent_cache e) ∧
        2 ≤ count_if (λ x, x = k) (served_keys rows)).
Proof.
  unfold LARC.simulate. intros H.
  apply bind_returns in H as (e0 & He0 & H).
  apply bind_returns in H as (st & Hloop & [= <- <- <-]).
  unfold LARC.init in He0. apply bind_returns in He0 as (cf & _ & [= <-]).
  apply (larc_loop_hist rows []) in Hloop as ((Hc & _ & _ & _ & Hdisj) & Hlen & Hlog).
  - simpl in *. split_and!; [done|done|]. intros k Hk. auto.
  - unfold larc_sim_hist, larc_hist. simpl.
    split_and!; try done; try apply NoDup_nil_2;
      intros k Hk; by apply elem_of_nil in Hk.
Qed.

(** Capacity 10 on the key 1 requested four times; the third row is not
    served. *)
Definition larc_repeat_rows : list (Z * string) :=
  [(1, "Read"); (1, "Write"); (1, "read"); (1, "Read")]%string.

Lemma X13_larc_hit_needs_two_earlier_requests_witness :
  ∃ stats e,
    LARC.simulate 10 larc_repeat_rows = Returns (stats, e, [false; false; true]) ∧
    length [false; false; true] = length (served_keys larc_repeat_rows) ∧
    (∀ i, [false; false; true] !! i = Some true →
          ∃ k, served_keys larc_repeat_rows !! i = Some k ∧
               2 ≤ count_if (λ x, x = k) (take i (served_keys larc_repeat_rows))) ∧
    (∀ k, k ∈ LARC.cache e → (k ∉ LARC.recent_cache e) ∧
          2 ≤ count_if (λ x, x = k) (served_keys larc_repeat_rows)).
Proof.
  assert (∃ stats e,
            LARC.simulate 10 larc_repeat_rows = Returns (stats, e, [false; false; true]))
    as (stats & e & Hrun) by (eexists _, _; vm_compute; reflexivity).
  exists stats, e. split; [exact Hrun|].
  exact (X13_larc_hit_needs_two_earlier_requests 10 larc_repeat_rows stats e _ Hrun).
Defined.

(** ** Capacities that are not positive *)

Lemma lru_nonpositive_access (c : Z) (item : Z) :
  c ≤ 0 →
  LRU.access_or_update_cache {| LRU.max_capacity := c; LRU.cache_store := OD.empty |} item
    = Raises KeyError.
Proof.
  intros Hc. unfold LRU.access_or_update_cache, OD.empty.
  cbn [LRU.max_capacity LRU.cache_store].
  assert (OD.contains item [] = false) as -> by apply OD_contains_false, not_elem_of_nil.
  unfold OD.len. simpl. destruct (Z.geb_spec (Z.of_nat 0) c); [done|lia].
Qed.

Lemma arc_negative_request (c : Z) (page : Z) :
  c < 0 →
  ARC.process_request
    {| ARC.cache_size := c; ARC.T1 := OD.empty; ARC.T2 := OD.empty;
       ARC.B1 := OD.empty; ARC.B2 := OD.empty; ARC.p := 0 |} page = Loops.
Proof.
  intros Hc. unfold ARC.process_request, OD.empty. arc_simpl.
  assert (OD.contains page [] = false) as E by apply OD_contains_false, not_elem_of_nil.
  rewrite E. cbn [orb]. unfold OD.set. rewrite E.
  unfold ARC.rebalance. arc_simpl. cbn [app length Nat.add].
  rewrite arc_balance_S. arc_simpl. unfold OD.len. cbn [length].
  destruct (Z.gtb_spec (Z.of_nat 1 + Z.of_nat 0) c) as [_|?]; [|lia].
  destruct (Z.gtb_spec (Z.of_nat 1) 0) as [_|?]; [|lia].
  unfold ARC.balance. arc_simpl. unfold OD.len. cbn [length].
  destruct (Z.gtb_spec (Z.of_nat 0 + Z.of_nat 0) c) as [_|?]; [|lia]. done.
Qed.

Lemma arc_zero_request (page : Z) :
  ARC.process_request
    {| ARC.cache_size := 0; ARC.T1 := OD.empty; ARC.T2 := OD.empty;
       ARC.B1 := OD.empty; ARC.B2 := OD.empty; ARC.p := 0 |} page
  = Returns (false,
      {| ARC.cache_size := 0; ARC.T1 := OD.empty; ARC.T2 := OD.empty;
         ARC.B1 := OD.empty; ARC.B2 := OD.empty; ARC.p := 0 |}).
Proof.
  unfold ARC.process_request, OD.empty. arc_simpl.
  assert (OD.contains page [] = false) as E by apply OD_contains_false, not_elem_of_nil.
  rewrite E. cbn [orb]. unfold OD.set. rewrite E. reflexivity.
Qed.

(** X14. What a capacity that is not positive does, on any data set with a
    first row. The LRU driver raises [KeyError] (it pops the empty store);
    the ARC driver never returns from its first served row when the capacity
    is negative (the balancing loop finds both lists empty), and with
    capacity 0 it returns with every served request a miss; the N-Hit driver
    with capacity 0 raises [ZeroDivisionError] in [should_promote]; the
    N-Hit over LRU driver raises [IndexError] in [record_access] when
    [tracking_ratio * cache_size <= 0]. *)
Theorem X14_nonpositive_capacity_failures
  (c : Z) (r : Z * string) (rows : list (Z * string)) :
  (c ≤ 0 → LRU.simulate c (r :: rows) = Raises KeyError) ∧
  (c < 0 → served r → ARC.simulate c (r :: rows) = Loops) ∧
  (∃ stats e log, ARC.simulate 0 rows = Returns (stats, e, log) ∧
     total_hit stats = 0 ∧ Forall (λ h, h = false) log ∧
     ARC.T1 e = [] ∧ ARC.T2 e = [] ∧ ARC.B1 e = [] ∧ ARC.B2 e = []) ∧
  (∀ trigger threshold,
     NHit.simulate 0 trigger threshold (r :: rows) = Raises ZeroDivisionError) ∧
  (∀ trigger N ratio, ratio * c ≤ 0 →
     NHitLRU.simulate c trigger N ratio (r :: rows) = Raises IndexError).
Proof.
  destruct r as [page op]. split_and!.
  - intros Hc. unfold LRU.simulate. simpl.
    rewrite (lru_nonpositive_access c page Hc). by destruct (String.eqb op "Read").
  - intros Hc Hs. unfold ARC.simulate. simpl.
    rewrite (arc_negative_request c page Hc). unfold served in Hs. simpl in Hs.
    destruct (String.eqb_spec op "Read"); [done|].
    destruct (String.eqb_spec op "Write"); [done|tauto].
  - unfold ARC.simulate. cbn [ARC.init mbind outcome_bind].
    set (e0 := {| ARC.cache_size := 0; ARC.T1 := OD.empty; ARC.T2 := OD.empty;
                  ARC.B1 := OD.empty; ARC.B2 := OD.empty; ARC.p := 0 |}).
    assert (∀ st, ARC.engine st = e0 →
              ∃ st', for_each ARC.request rows st = Returns st' ∧
                ARC.engine st' = e0 ∧
                ARC.read_hits st' = ARC.read_hits st ∧
                ARC.write_hits st' = ARC.write_hits st ∧
                (Forall (λ h, h = false) (ARC.log st) →
                 Forall (λ h, h = false) (ARC.log st'))) as Hloop.
    { clear page op. induction rows as [|[page op] rows IH]; intros st Hst.
      - exists st. by split_and!.
      - change (for_each ARC.request ((page, op) :: rows) st)
          with (ARC.request st (page, op) ≫= for_each ARC.request rows).
        assert (∃ st1, ARC.request st (page, op) = Returns st1 ∧
                  ARC.engine st1 = e0 ∧
                  ARC.read_hits st1 = ARC.read_hits st ∧
                  ARC.write_hits st1 = ARC.write_hits st ∧
                  (Forall (λ h, h = false) (ARC.log st) →
                   Forall (λ h, h = false) (ARC.log st1)))
          as (st1 & -> & He1 & Hr1 & Hw1 & Hl1).
        { unfold ARC.request. rewrite Hst. unfold e0. rewrite arc_zero_request.
          destruct (String.eqb op "Read"); [|destruct (String.eqb op "Write")];
            simpl; (eexists; split; [reflexivity|]); simpl.
          all: repeat (split; [done|]); try done.
          all: intros H; apply Forall_app; split; [done|by constructor]. }
        simpl. destruct (IH st1 He1) as (st' & -> & He & Hr & Hw & Hl).
        exists st'. split_and!; [done|done|lia|lia|auto]. }
    destruct (Hloop (ARC.start e0) eq_refl) as (st' & -> & He & Hr & Hw & Hl).
    simpl in *. eexists _, _, _. split; [reflexivity|]. rewrite He. simpl.
    split_and!; [lia|by apply Hl|done..].
  - intros trigger threshold. unfold NHit.simulate. simpl.
    unfold NHit.request at 1. simpl.
    rewrite bool_decide_eq_false_2; [reflexivity|]. rewrite dom_empty_L. set_solver.
  - intros trigger N ratio Hmax. unfold NHitLRU.simulate. simpl.
    unfold NHitLRU.record_access. simpl.
    rewrite lookup_empty, map_size_empty.
    destruct (Z.geb_spec (Z.of_nat 0) (ratio * c)); [reflexivity|lia].
Qed.

(** ** N-Hit: what the driver counts *)

Lemma nhit_promote_tracking e item e' :
  NHit.promote e item = Returns e' → NHit.tracking e' = NHit.tracking e.
Proof.
  unfold NHit.promote. intros H. apply bind_returns in H as (s & Hs & [= <-]). simpl.
  destruct (Z.of_nat (size (NHit.cache e)) >=? NHit.capacity e).
  - unfold NHit._evict in Hs. destruct (NHit.sorted_items e) as [|[[n0 c0] v] rest].
    + by injection Hs as <-.
    + destruct (NHit.cache e !! v); [|done]. by injection Hs as <-.
  - by injection Hs as <-.
Qed.

Ltac dec_goal :=
  repeat match goal with |- context [decide ?P] => destruct (decide P) end.

Ltac nhit_simpl :=
  cbn [NHit.engine NHit.total_requests NHit.read_hits NHit.read_misses NHit.write_hits
       NHit.write_misses NHit.cold_misses NHit.tracked_access NHit.log NHit.promoted
       NHit.tracking NHit.access fst snd length] in *.

(** The N-Hit driver after the rows [h]. *)
Definition nhit_acct (h : list (Z * string)) (st : NHit.Sim) : Prop :=
  length (NHit.log st) = length h ∧
  NHit.total_requests st = Z.of_nat (length h) ∧
  NHit.read_hits st + NHit.read_misses st = count_if (λ r, r.2 = "Read"%string) h ∧
  NHit.write_hits st + NHit.write_misses st = count_if (λ r, r.2 ≠ "Read"%string) h ∧
  NHit.read_hits st + NHit.write_hits st = count_if (λ b, b = true) (NHit.log st) ∧
  NHit.read_misses st + NHit.write_misses st = count_if (λ b, b = false) (NHit.log st) ∧
  NHit.cold_misses st = Z.of_nat (size (NHit.tracked_access st)) ∧
  NHit.cold_misses st ≤ NHit.read_misses st + NHit.write_misses st ∧
  NHit.tracked_access st = dom (NHit.tracking (NHit.engine st)) ∧
  ∀ k, NHit.tracked (NHit.engine st) k
       = count_if (λ o, o.1 = k ∧ o.2 = false) (zip h.*1 (NHit.log st)).

Lemma nhit_request_acct h st r st' :
  nhit_acct h st → NHit.request st r = Returns st' → nhit_acct (h ++ [r]) st'.
Proof.
  intros (Hlen & Htot & Hrd & Hwr & Hhit & Hmiss & Hcold & Hle & Hta & Htr) Hreq.
  destruct r as [offset op].
  assert (∀ b, zip (h ++ [(offset, op)]).*1 (NHit.log st ++ [b])
               = zip h.*1 (NHit.log st) ++ [(offset, b)]) as Hzip.
  { intros b. rewrite fmap_app. rewrite zip_with_app; [done|].
    by rewrite length_fmap. }
  unfold NHit.request in Hreq.
  destruct (bool_decide (offset ∈ dom (NHit.cache (NHit.engine st)))) eqn:E.
  - injection Hreq as <-. unfold nhit_acct. nhit_simpl. rewrite Hzip.
    rewrite !count_if_app, !length_app, !count_if_cons, !count_if_nil. nhit_simpl.
    split_and!; [lia|lia| | | | |done|done|done|].
    + destruct (String.eqb_spec op "Read"); dec_goal; try done; lia.
    + destruct (String.eqb_spec op "Read"); dec_goal; try done; lia.
    + destruct (String.eqb_spec op "Read"); dec_goal; try done; lia.
    + destruct (String.eqb_spec op "Read"); dec_goal; try done; lia.
    + intros k. rewrite Htr, count_if_app, count_if_cons, count_if_nil.
      nhit_simpl. dec_goal; first [lia | naive_solver].
  - apply bool_decide_eq_false in E.
    apply bind_returns in Hreq as (go & _ & Hreq).
    apply bind_returns in Hreq as (e2 & He2 & [= <-]).
    assert (NHit.tracking e2 = NHit.tracking (NHit.access (NHit.engine st) offset)) as Htk.
    { destruct go; [by apply nhit_promote_tracking in He2|by injection He2 as <-]. }
    unfold nhit_acct. nhit_simpl. rewrite Hzip.
    rewrite !count_if_app, !length_app, !count_if_cons, !count_if_nil. nhit_simpl.
    assert ((if bool_decide (offset ∉ NHit.tracked_access st)
             then {[offset]} ∪ NHit.tracked_access st else NHit.tracked_access st)
            = {[offset]} ∪ NHit.tracked_access st) as Hset.
    { case_bool_decide as Hd; [done|]. set_solver. }
    split_and!; [lia|lia| | | | | | | |].
    + destruct (String.eqb_spec op "Read"); dec_goal; try done; lia.
    + destruct (String.eqb_spec op "Read"); dec_goal; try done; lia.
    + destruct (String.eqb_spec op "Read"); dec_goal; try done; lia.
    + destruct (String.eqb_spec op "Read"); dec_goal; try done; lia.
    + case_bool_decide as Hd; [|done].
      rewrite size_union by set_solver. rewrite size_singleton. lia.
    + case_bool_decide; destruct (String.eqb op "Read"); lia.
    + rewrite Hset, Htk. nhit_simpl. rewrite dom_insert_L. by rewrite Hta.
    + intros k. unfold NHit.tracked. rewrite Htk. nhit_simpl.
      fold (NHit.tracked (NHit.engine st) offset).
      destruct (decide (offset = k)) as [->|Hne].
      * rewrite lookup_insert_eq. simpl. rewrite Htr.
        rewrite count_if_app, count_if_cons, count_if_nil. nhit_simpl.
        dec_goal; first [lia | naive_solver].
      * rewrite lookup_insert_ne by done. fold (NHit.tracked (NHit.engine st) k).
        rewrite Htr. rewrite count_if_app, count_if_cons, count_if_nil. nhit_simpl.
        dec_goal; first [lia | naive_solver].
Qed.

Lemma nhit_loop_acct rows st e :
  for_each NHit.request rows (NHit.start e) = Returns st →
  NHit.tracking e = ∅ →
  nhit_acct rows st.
Proof.
  revert st. induction rows as [|r rows IH] using rev_ind; intros st Hloop He.
  - injection Hloop as <-. unfold nhit_acct, NHit.tracked. simpl. rewrite He.
    split_and!; try done.
  - rewrite for_each_snoc in Hloop. apply bind_returns in Hloop as (st1 & H1 & H2).
    eapply nhit_request_acct; [|exact H2]. by apply IH.
Qed.

(** X15. What the N-Hit driver counts, in a run that returns. There is one
    log entry and one request per row, whatever its operation; a row counts
    as a read when its operation is the string "Read" and as a write
    otherwise; hits and misses are the log entries of each kind. The cold
    misses are the number of distinct keys that ever missed, which is the
    number of keys of [tracking], and are at most the misses. For every key,
    [tracking] holds the number of its requests that missed: hits are not
    counted and a count is never reset. *)
Theorem X15_nhit_driver_accounting
  (c : Z) (trigger : float) (threshold : Z) (rows : list (Z * string))
  (stats : Stats) (cold : Z) (st : NHit.Sim) :
  NHit.simulate c trigger threshold rows = Returns (stats, cold, st) →
  length (NHit.log st) = length rows ∧
  total_req stats = Z.of_nat (length rows) ∧
  read_req stats = count_if (λ r, r.2 = "Read"%string) rows ∧
  write_req stats = count_if (λ r, r.2 ≠ "Read"%string) rows ∧
  total_hit stats = count_if (λ b, b = true) (NHit.log st) ∧
  total_miss stats = count_if (λ b, b = false) (NHit.log st) ∧
  cold = Z.of_nat (size (dom (NHit.tracking (NHit.engine st)))) ∧
  cold ≤ total_miss stats ∧
  ∀ k, NHit.tracked (NHit.engine st) k
       = count_if (λ o, o.1 = k ∧ o.2 = false) (zip rows.*1 (NHit.log st)).
Proof.
  unfold NHit.simulate. simpl. intros H.
  apply bind_returns in H as (st' & Hloop & [= <- <- <-]).
  apply nhit_loop_acct in Hloop
    as (Hlen & Htot & Hrd & Hwr & Hhit & Hmiss & Hcold & Hle & Hta & Htr); [|done].
  simpl. rewrite <- Hta. split_and!; try done; try lia.
  assert (count_if (λ r : Z * string, r.2 = "Read"%string) rows
          + count_if (λ r : Z * string, r.2 ≠ "Read"%string) rows
          = Z.of_nat (length rows)) as Hsum.
  { clear. induction rows as [|r rows IH]; [done|].
    rewrite !count_if_cons. simpl length. repeat case_decide; try done; lia. }
  lia.
Qed.

Lemma X15_nhit_driver_accounting_witness :
  ∃ stats cold st,
    NHit.simulate 2 0%float 3 s5_rows = Returns (stats, cold, st) ∧
    length (NHit.log st) = length s5_rows ∧
    total_req stats = Z.of_nat (length s5_rows) ∧
    read_req stats = count_if (λ r, r.2 = "Read"%string) s5_rows ∧
    write_req stats = count_if (λ r, r.2 ≠ "Read"%string) s5_rows ∧
    total_hit stats = count_if (λ b, b = true) (NHit.log st) ∧
    total_miss stats = count_if (λ b, b = false) (NHit.log st) ∧
    cold = Z.of_nat (size (dom (NHit.tracking (NHit.engine st)))) ∧
    cold ≤ total_miss stats ∧
    ∀ k, NHit.tracked (NHit.engine st) k
         = count_if (λ o, o.1 = k ∧ o.2 = false) (zip s5_rows.*1 (NHit.log st)).
Proof.
  assert (∃ stats cold st,
            NHit.simulate 2 0%float 3 s5_rows = Returns (stats, cold, st))
    as (stats & cold & st & Hrun) by (eexists _, _, _; vm_compute; reflexivity).
  exists stats, cold, st. split; [exact Hrun|].
  exact (X15_nhit_driver_accounting 2 0%float 3 s5_rows stats cold st Hrun).
Defined.

(** ** N-Hit: the key that is evicted *)

(** [x <= y] in Python's order on the tuples of the index. *)
Definition item3_le (x y : NHit.item3) : Prop := NHit.item3_ltb y x = false.

Lemma item3_le_spec (x y : NHit.item3) :
  item3_le x y ↔
  x.1.1 < y.1.1 ∨ (x.1.1 = y.1.1 ∧ (x.1.2 < y.1.2 ∨ (x.1.2 = y.1.2 ∧ x.2 ≤ y.2))).
Proof.
  unfold item3_le, NHit.item3_ltb. destruct x as [[n1 c1] i1], y as [[n2 c2] i2]. simpl.
  rewrite orb_false_iff, andb_false_iff, orb_false_iff, andb_false_iff.
  rewrite !Z.ltb_ge, !Z.eqb_neq. lia.
Qed.

Lemma item3_ltb_spec (x y : NHit.item3) :
  NHit.item3_ltb x y = true ↔
  x.1.1 < y.1.1 ∨ (x.1.1 = y.1.1 ∧ (x.1.2 < y.1.2 ∨ (x.1.2 = y.1.2 ∧ x.2 < y.2))).
Proof.
  unfold NHit.item3_ltb. destruct x as [[n1 c1] i1], y as [[n2 c2] i2]. simpl.
  rewrite orb_true_iff, andb_true_iff, orb_true_iff, andb_true_iff.
  rewrite !Z.ltb_lt, !Z.eqb_eq. lia.
Qed.

Lemma item3_le_trans x y z : item3_le x y → item3_le y z → item3_le x z.
Proof. rewrite !item3_le_spec. lia. Qed.

Lemma sorted_add_sorted (l : list NHit.item3) (x : NHit.item3) :
  StronglySorted item3_le l → StronglySorted item3_le (NHit.sorted_add l x).
Proof.
  induction l as [|y l IH]; simpl; intros Hs.
  - repeat constructor.
  - apply StronglySorted_cons in Hs as [Hy Hs].
    destruct (NHit.item3_ltb x y) eqn:E.
    + assert (item3_le x y) as Hxy.
      { apply item3_ltb_spec in E. apply item3_le_spec. lia. }
      apply StronglySorted_cons. split.
      * constructor; [done|]. eapply Forall_impl; [exact Hy|].
        intros z Hz. by eapply item3_le_trans.
      * by apply StronglySorted_cons.
    + apply StronglySorted_cons. split; [|auto].
      apply Forall_forall. intros z Hz.
      apply (elem_of_Permutation_proper _ _ _ (sorted_add_perm l x)) in Hz.
      apply elem_of_cons in Hz as [->|Hz]; [exact E|].
      rewrite Forall_forall in Hy. auto.
Qed.

(** The index and the cache agree: the index is sorted, an entry
    [(n, ctr, k)] carries the value [n] the cache stores for [k] and a
    counter no later than the current one, no two entries share a counter, and
    the value stored for a cached key is its count in [tracking]. *)
Definition nhit_index (e : NHit.NHitCache) : Prop :=
  StronglySorted item3_le (NHit.sorted_items e) ∧
  (∀ n ctr k, (n, ctr, k) ∈ NHit.sorted_items e →
     NHit.cache e !! k = Some n ∧ ctr ≤ NHit.insertion_counter e) ∧
  NoDup ((λ x : NHit.item3, x.1.2) <$> NHit.sorted_items e) ∧
  (∀ k m, NHit.cache e !! k = Some m → NHit.tracked e k = m).

Lemma nhit_promote_index c e item :
  nhit_inv c e → nhit_index e → item ∉ dom (NHit.cache e) →
  ∀ e', NHit.promote e item = Returns e' → nhit_index e'.
Proof.
  intros (Hcap & Hnd & Hkeys & Hsize) (Hs & Hval & Hctr & Htr) Hnew e' Hp.
  unfold NHit.promote in Hp. apply bind_returns in Hp as (s & Hev & [= <-]).
  assert (nhit_index s ∧ (item ∉ dom (NHit.cache s)) ∧
          NHit.tracking s = NHit.tracking e) as ((Hs' & Hval' & Hctr' & Htr') & Hnew' & Htk).
  { destruct (Z.of_nat (size (NHit.cache e)) >=? NHit.capacity e).
    2:{ injection Hev as <-. by split_and!. }
    unfold NHit._evict in Hev.
    destruct (NHit.sorted_items e) as [|[[n0 c0] v] rest] eqn:Ei.
    { injection Hev as <-. unfold nhit_index. rewrite Ei. by split_and!. }
    destruct (NHit.cache e !! v) eqn:Ev; [|done]. injection Hev as <-.
    simpl in Hnd. apply NoDup_cons in Hnd as [Hv Hnd]. 
    apply StronglySorted_cons in Hs as [_ Hs].
    rewrite fmap_cons in Hctr. apply NoDup_cons in Hctr as [_ Hctr].
    unfold nhit_index. simpl. split_and!; [done| |done| | |done].
    - intros n ctr k Hin. destruct (Hval n ctr k) as [Hc1 Hc2]; [by right|].
      split; [|done]. rewrite lookup_delete_ne; [done|].
      intros ->. apply Hv. apply (list_elem_of_fmap_2 snd) in Hin. done.
    - intros k m Hk. apply lookup_delete_Some in Hk as [_ Hk].
      unfold NHit.tracked. simpl. by apply Htr.
    - rewrite dom_delete_L. set_solver. }
  unfold nhit_index. simpl.
  pose proof (sorted_add_perm (NHit.sorted_items s)
                (NHit.tracked s item, NHit.insertion_counter s + 1, item)) as Hperm.
  split_and!.
  - by apply sorted_add_sorted.
  - intros n ctr k Hin. rewrite Hperm in Hin.
    apply elem_of_cons in Hin as [[= -> -> ->]|Hin].
    + rewrite lookup_insert_eq. split; [done|lia].
    + destruct (Hval' n ctr k Hin) as [Hc1 Hc2]. split; [|lia].
      rewrite lookup_insert_ne; [done|]. intros ->.
      apply Hnew'. by apply elem_of_dom.
  - rewrite Hperm. rewrite fmap_cons. apply NoDup_cons. split; [|done].
    simpl. intros Hin. apply list_elem_of_fmap in Hin as ([[n ctr] k] & Heq & Hin).
    simpl in Heq. subst ctr. destruct (Hval' _ _ _ Hin) as [_ ?]. lia.
  - intros k m Hk. unfold NHit.tracked. simpl.
    destruct (decide (k = item)) as [->|Hne].
    + rewrite lookup_insert_eq in Hk. by injection Hk as <-.
    + rewrite lookup_insert_ne in Hk by done. by apply Htr'.
Qed.

Lemma nhit_request_index c st r st' :
  0 < c → nhit_inv c (NHit.engine st) → nhit_index (NHit.engine st) →
  NHit.request st r = Returns st' → nhit_index (NHit.engine st').
Proof.
  intros Hc Hinv Hidx Hreq. destruct r as [offset op]. unfold NHit.request in Hreq.
  destruct (bool_decide (offset ∈ dom (NHit.cache (NHit.engine st)))) eqn:E.
  - by injection Hreq as <-.
  - apply bool_decide_eq_false in E.
    apply bind_returns in Hreq as (go & _ & Hreq).
    apply bind_returns in Hreq as (e2 & He2 & [= <-]). simpl.
    assert (nhit_index (NHit.access (NHit.engine st) offset)) as Hidx1.
    { destruct Hidx as (Hs & Hval & Hctr & Htr). unfold nhit_index. simpl.
      split_and!; [done|done|done|].
      intros k m Hk. unfold NHit.tracked. simpl.
      rewrite lookup_insert_ne; [by apply Htr|].
      intros ->. apply E. by apply elem_of_dom. }
    destruct go; [|by injection He2 as <-].
    by eapply (nhit_promote_index c (NHit.access (NHit.engine st) offset) offset).
Qed.

Lemma nhit_reachable_index c trig thr st :
  0 < c →
  reachable (nhit_init c trig thr) nhit_step st →
  nhit_inv c (NHit.engine st) ∧ nhit_index (NHit.engine st).
Proof.
  intros Hc Hr. split; [by eapply nhit_reachable_inv|].
  induction Hr as [s0 H0|s1 s2 Hr IH (r & Hstep)].
  - injection H0 as <-. unfold nhit_index. simpl.
    split_and!; [constructor| |constructor|done].
    intros n ctr k Hin. by apply elem_of_nil in Hin.
  - eapply (nhit_request_index c s1 r s2 Hc); [|done|done].
    by eapply nhit_reachable_inv.
Qed.

(** X16. The key N-Hit evicts. In a reachable state whose cache is full,
    [_evict] removes the key at the head of the index, and that key has the
    lowest count among the cached keys; among cached keys with that count
    it is the one promoted first. The value stored with a cached key is its
    count in [tracking], the number of its misses, since hits are not
    counted. [promote] of an uncached key into the full cache evicts that
    key and nothing else. *)
Theorem X16_nhit_evicts_lowest_count
  (c : Z) (trigger : float) (threshold : Z) (st : NHit.Sim) :
  0 < c →
  reachable (nhit_init c trigger threshold) nhit_step st →
  c ≤ Z.of_nat (size (NHit.cache (NHit.engine st))) →
  ∃ n ctr v rest e',
    NHit.sorted_items (NHit.engine st) = (n, ctr, v) :: rest ∧
    NHit._evict (NHit.engine st) = Returns e' ∧
    NHit.cache e' = delete v (NHit.cache (NHit.engine st)) ∧
    NHit.cache (NHit.engine st) !! v = Some n ∧
    (∀ k m, NHit.cache (NHit.engine st) !! k = Some m →
            NHit.tracked (NHit.engine st) k = m ∧ n ≤ m) ∧
    (∀ ctr' k', (n, ctr', k') ∈ rest → ctr < ctr') ∧
    (∀ item, item ∉ dom (NHit.cache (NHit.engine st)) →
       ∃ e'', NHit.promote (NHit.engine st) item = Returns e'' ∧
              NHit.cache e''
                = <[item := NHit.tracked (NHit.engine st) item]>
                    (delete v (NHit.cache (NHit.engine st)))).
Proof.
  intros Hc Hr Hfull.
  destruct (nhit_reachable_index c trigger threshold st Hc Hr)
    as ((Hcap & Hnd & Hkeys & Hsize) & (Hs & Hval & Hctr & Htr)).
  destruct (NHit.sorted_items (NHit.engine st)) as [|[[n ctr] v] rest] eqn:Ei.
  { exfalso. assert (NHit.cache (NHit.engine st) = ∅) as H0.
    { apply dom_empty_iff_L. apply set_eq. intros k. rewrite <- Hkeys. set_solver. }
    rewrite H0, map_size_empty in Hfull. lia. }
  destruct (Hval n ctr v) as [Hv _]; [by left|].
  apply StronglySorted_cons in Hs as [Hmin _].
  rewrite fmap_cons in Hctr. apply NoDup_cons in Hctr as [Hfresh _]. simpl in Hfresh.
  assert (NHit._evict (NHit.engine st)
          = Returns {| NHit.capacity := NHit.capacity (NHit.engine st);
                       NHit.trigger_threshold := NHit.trigger_threshold (NHit.engine st);
                       NHit.insertion_threshold := NHit.insertion_threshold (NHit.engine st);
                       NHit.cache := delete v (NHit.cache (NHit.engine st));
                       NHit.tracking := NHit.tracking (NHit.engine st);
                       NHit.sorted_items := rest;
                       NHit.insertion_counter := NHit.insertion_counter (NHit.engine st) |})
    as Hev.
  { unfold NHit._evict. by rewrite Ei, Hv. }
  eexists n, ctr, v, rest, _. split_and!; [done|exact Hev|done|done| | |].
  - intros k m Hk. split; [by apply Htr|].
    assert (k ∈ ((n, ctr, v) :: rest).*2) as Hin.
    { apply Hkeys. by apply elem_of_dom. }
    apply list_elem_of_fmap in Hin as ([[n' ctr'] k'] & Heq & Hin). simpl in Heq. subst k'.
    destruct (Hval n' ctr' k Hin) as [Hk' _].
    assert (m = n') as -> by congruence.
    apply elem_of_cons in Hin as [[= -> -> ->]|Hin]; [lia|].
    rewrite Forall_forall in Hmin. specialize (Hmin _ Hin).
    apply item3_le_spec in Hmin. simpl in Hmin. lia.
  - intros ctr' k' Hin.
    assert (ctr ≠ ctr') as Hne.
    { intros ->. apply Hfresh. apply list_elem_of_fmap. by exists (n, ctr', k'). }
    rewrite Forall_forall in Hmin. specialize (Hmin _ Hin).
    apply item3_le_spec in Hmin. simpl in Hmin. lia.
  - intros item Hitem. unfold NHit.promote. rewrite Hcap.
    destruct (Z.geb_spec (Z.of_nat (size (NHit.cache (NHit.engine st)))) c); [|lia].
    rewrite Hev. simpl. eexists. split; [reflexivity|]. done.
Qed.

Lemma nhit_loop_reachable c trig thr rows st st' :
  reachable (nhit_init c trig thr) nhit_step st →
  for_each NHit.request rows st = Returns st' →
  reachable (nhit_init c trig thr) nhit_step st'.
Proof.
  revert st. induction rows as [|r rows IH]; intros st Hr Hloop.
  - by injection Hloop as <-.
  - change (for_each NHit.request (r :: rows) st)
      with (NHit.request st r ≫= for_each NHit.request rows) in Hloop.
    apply bind_returns in Hloop as (st1 & H1 & H2).
    apply (IH st1); [|done]. eapply reach_step; [done|]. by exists r.
Qed.

(** Scenario S5 after its first six requests, capacity 2: keys 1 and 2 are
    cached, with counts 1 and 3. *)
Definition nhit_s5_state : NHit.Sim :=
  Eval vm_compute in
    match for_each NHit.request (take 6 s5_rows)
            (NHit.start {| NHit.capacity := 2; NHit.trigger_threshold := 0%float;
                           NHit.insertion_threshold := 3; NHit.cache := ∅;
                           NHit.tracking := ∅; NHit.sorted_items := [];
                           NHit.insertion_counter := 0 |}) with
    | Returns st => st
    | _ => NHit.start {| NHit.capacity := 2; NHit.trigger_threshold := 0%float;
                         NHit.insertion_threshold := 3; NHit.cache := ∅;
                         NHit.tracking := ∅; NHit.sorted_items := [];
                         NHit.insertion_counter := 0 |}
    end.

Lemma nhit_s5_reachable : reachable (nhit_init 2 0%float 3) nhit_step nhit_s5_state.
Proof.
  eapply (nhit_loop_reachable 2 0%float 3 (take 6 s5_rows)).
  - apply reach_init. reflexivity.
  - vm_compute. reflexivity.
Qed.

Lemma X16_nhit_evicts_lowest_count_witness :
  ∃ n ctr v rest e',
    NHit.sorted_items (NHit.engine nhit_s5_state) = (n, ctr, v) :: rest ∧
    NHit._evict (NHit.engine nhit_s5_state) = Returns e' ∧
    NHit.cache e' = delete v (NHit.cache (NHit.engine nhit_s5_state)) ∧
    NHit.cache (NHit.engine nhit_s5_state) !! v = Some n ∧
    (∀ k m, NHit.cache (NHit.engine nhit_s5_state) !! k = Some m →
            NHit.tracked (NHit.engine nhit_s5_state) k = m ∧ n ≤ m) ∧
    (∀ ctr' k', (n, ctr', k') ∈ rest → ctr < ctr') ∧
    (∀ item, item ∉ dom (NHit.cache (NHit.engine nhit_s5_state)) →
       ∃ e'', NHit.promote (NHit.engine nhit_s5_state) item = Returns e'' ∧
              NHit.cache e''
                = <[item := NHit.tracked (NHit.engine nhit_s5_state) item]>
                    (delete v (NHit.cache (NHit.engine nhit_s5_state)))).
Proof.
  apply (X16_nhit_evicts_lowest_count 2 0%float 3 nhit_s5_state);
    [lia|apply nhit_s5_reachable|by vm_compute].
Defined.

(** ** N-Hit over LRU: the tracker *)

(** The policy object: its parameters, and a tracker whose queue holds
    exactly the counted keys, each once, with at most [M] keys counted and
    every count at least 1. *)
Definition nhitlru_pol (c N M : Z) (pol : NHitLRU.NHitPolicy) : Prop :=
  NHitLRU.cache_capacity pol = c ∧ NHitLRU.N pol = N ∧
  NHitLRU.max_tracked_items pol = M ∧ 0 < M ∧
  NoDup (NHitLRU.tracking_queue pol) ∧
  (∀ k, k ∈ NHitLRU.tracking_queue pol ↔ k ∈ dom (NHitLRU.access_counts pol)) ∧
  Z.of_nat (size (NHitLRU.access_counts pol)) ≤ M ∧
  ∀ k n, NHitLRU.access_counts pol !! k = Some n → 1 ≤ n.

Lemma nhitlru_record_access_pol c N M pol item :
  nhitlru_pol c N M pol →
  ∃ pol' n, NHitLRU.record_access pol item = Returns pol' ∧
    nhitlru_pol c N M pol' ∧
    NHitLRU.access_counts pol' !! item = Some n ∧ 1 ≤ n ∧
    NHitLRU.trigger_threshold pol' = NHitLRU.trigger_threshold pol.
Proof.
  intros (Hcap & HN & HM & Hpos & Hnd & Hkeys & Hsz & Hge).
  destruct pol as [trig N0 cap maxt counts queue]. simpl in *. subst cap N0 maxt.
  unfold NHitLRU.record_access, NHitLRU.with_tracking. simpl.
  destruct (counts !! item) as [n|] eqn:E.
  - pose proof (Hge item n E).
    eexists _, (n + 1). split; [reflexivity|]. simpl.
    rewrite lookup_insert_eq. split_and!; [|done|lia|done].
    unfold nhitlru_pol. simpl. split_and!; [done|done|done|done|done| | |].
    + intros k. rewrite dom_insert_L, Hkeys.
      assert (item ∈ dom counts) by (apply elem_of_dom; eauto). set_solver.
    + rewrite map_size_insert_Some by eauto. done.
    + intros k m Hk. destruct (decide (k = item)) as [->|Hne].
      * rewrite lookup_insert_eq in Hk. injection Hk as <-. lia.
      * rewrite lookup_insert_ne in Hk by done. eauto.
  - assert (∀ (counts' : gmap Z Z) queue',
      NoDup queue' → (∀ k, k ∈ queue' ↔ k ∈ dom counts') → counts' !! item = None →
      Z.of_nat (size counts') < M → (∀ k n, counts' !! k = Some n → 1 ≤ n) →
      nhitlru_pol c N M
        {| NHitLRU.trigger_threshold := trig; NHitLRU.N := N;
           NHitLRU.cache_capacity := c; NHitLRU.max_tracked_items := M;
           NHitLRU.access_counts := <[item := 1]> counts';
           NHitLRU.tracking_queue := queue' ++ [item] |}) as Hins.
    { intros counts' queue' Hnd' Hkeys' Hnew Hsz' Hge'.
      unfold nhitlru_pol. simpl. split_and!; [done|done|done|done| | | |].
      - apply NoDup_app. split_and!; [done| |apply NoDup_singleton].
        intros x Hx ->%list_elem_of_singleton. apply Hkeys' in Hx.
        by apply not_elem_of_dom in Hnew.
      - intros k. rewrite elem_of_app, list_elem_of_singleton, dom_insert_L, Hkeys'.
        set_solver.
      - rewrite map_size_insert_None by done. lia.
      - intros k m Hk. destruct (decide (k = item)) as [->|Hne].
        + rewrite lookup_insert_eq in Hk. injection Hk as <-. lia.
        + rewrite lookup_insert_ne in Hk by done. eauto. }
    destruct (Z.geb_spec (Z.of_nat (size counts)) M) as [Hfull|Hroom].
    + destruct queue as [|oldest rest].
      { exfalso. assert (counts = ∅) as ->.
        { apply dom_empty_iff_L. apply set_eq. intros k. rewrite <- Hkeys. set_solver. }
        rewrite map_size_empty in Hfull. lia. }
      apply NoDup_cons in Hnd as [Hold Hnd].
      assert (oldest ∈ dom counts) as Hin by (apply Hkeys; left).
      destruct (counts !! oldest) as [no|] eqn:Eo; [|by apply not_elem_of_dom in Eo].
      simpl. eexists _, 1. split; [reflexivity|]. simpl. rewrite lookup_insert_eq.
      split_and!; [|done|lia|done]. apply Hins; [done| | | |].
      * intros k. rewrite dom_delete_L. specialize (Hkeys k).
        rewrite elem_of_cons in Hkeys. set_solver.
      * rewrite lookup_delete_ne; [done|]. intros ->. congruence.
      * rewrite map_size_delete_Some by done. lia.
      * intros k m Hk. apply lookup_delete_Some in Hk as [_ Hk]. eauto.
    + simpl. eexists _, 1. split; [reflexivity|]. simpl. rewrite lookup_insert_eq.
      split_and!; [|done|lia|done]. by apply Hins.
Qed.

Lemma nhitlru_remove_from_tracking_pol c N M pol item :
  nhitlru_pol c N M pol → nhitlru_pol c N M (NHitLRU.remove_from_tracking pol item).
Proof.
  intros (Hcap & HN & HM & Hpos & Hnd & Hkeys & Hsz & Hge).
  unfold NHitLRU.remove_from_tracking.
  destruct (NHitLRU.access_counts pol !! item) eqn:E; [|by split_and!].
  unfold NHitLRU.with_tracking, nhitlru_pol. simpl.
  split_and!; [done|done|done|done|by apply remove_first_NoDup| | |].
  - intros k. rewrite remove_first_elem, dom_delete_L, Hkeys by done. set_solver.
  - rewrite map_size_delete_Some by done. lia.
  - intros k m Hk. apply lookup_delete_Some in Hk as [_ Hk]. eauto.
Qed.

Lemma nhitlru_pol_tracker c N M pol : nhitlru_pol c N M pol → nhitlru_tracker c pol.
Proof. intros (? & ? & ? & ? & ? & ? & ? & ?). split_and!; [done|lia|done|done]. Qed.

Lemma nhitlru_on_miss_pol c N M lru pol item is_hit lru' pol' :
  nhitlru_pol c N M pol →
  NHitLRU.on_miss lru pol item is_hit = Returns (lru', pol') →
  nhitlru_pol c N M pol'.
Proof.
  intros Hpol H. unfold NHitLRU.on_miss in H.
  apply bind_returns in H as (go & _ & H). destruct go.
  - apply bind_returns in H as ([ev lru1] & _ & [= <- <-]).
    by apply nhitlru_remove_from_tracking_pol.
  - by injection H as <- <-.
Qed.

Lemma nhitlru_request_pol c N M st r st' :
  nhitlru_pol c N M (NHitLRU.nhit_policy st) →
  NHitLRU.request st r = Returns st' →
  nhitlru_pol c N M (NHitLRU.nhit_policy st').
Proof.
  intros Hpol Hreq. destruct r as [item raw]. unfold NHitLRU.request in Hreq.
  destruct (nhitlru_record_access_pol c N M _ item Hpol) as (pol & n & Hrec & Hpol1 & _).
  rewrite Hrec in Hreq. simpl in Hreq.
  assert (∀ lru' pol',
    (if NHitLRU.is_present (NHitLRU.lru_cache st) item
     then Returns ((NHitLRU.access (NHitLRU.lru_cache st) item).2, pol)
     else NHitLRU.on_miss (NHitLRU.lru_cache st) pol item
            (NHitLRU.is_present (NHitLRU.lru_cache st) item)) = Returns (lru', pol') →
    nhitlru_pol c N M pol') as Hbranch.
  { intros lru' pol'. destruct (NHitLRU.is_present _ _).
    - by intros [= <- <-].
    - by apply nhitlru_on_miss_pol. }
  destruct (String.eqb _ "read").
  { apply bind_returns in Hreq as ([lru' pol'] & Hb & [= <-]). simpl. eauto. }
  destruct (String.eqb _ "write").
  { apply bind_returns in Hreq as ([lru' pol'] & Hb & [= <-]). simpl. eauto. }
  by injection Hreq as <-.
Qed.

(** X17. The tracker of N-Hit over LRU is bounded. With a positive cache
    size and tracking ratio, in every reachable state the policy counts at
    most [tracking_ratio * cache_size] keys, the queue holds exactly the
    counted keys, each once, and every count is at least 1; so
    [record_access] never pops an empty queue and never deletes an absent
    key. The next request returns when, moreover, the cache size is below
    2^1024 - 2^970: from there on [should_promote] raises [OverflowError]
    when it converts the cache size to a float. *)
Theorem X17_nhitlru_tracker_bounded
  (c : Z) (trigger : float) (N ratio : Z) (st : NHitLRU.Sim) :
  0 < c → 0 < ratio →
  reachable (nhitlru_init c trigger N ratio) nhitlru_step st →
  Z.of_nat (size (NHitLRU.access_counts (NHitLRU.nhit_policy st))) ≤ ratio * c ∧
  NoDup (NHitLRU.tracking_queue (NHitLRU.nhit_policy st)) ∧
  (∀ k, k ∈ NHitLRU.tracking_queue (NHitLRU.nhit_policy st)
        ↔ k ∈ dom (NHitLRU.access_counts (NHitLRU.nhit_policy st))) ∧
  (∀ k n, NHitLRU.access_counts (NHitLRU.nhit_policy st) !! k = Some n → 1 ≤ n) ∧
  (c < PyFloat.overflow_at → ∀ r, returns (NHitLRU.request st r)).
Proof.
  intros Hc Hratio Hr.
  assert (nhitlru_pol c N (ratio * c) (NHitLRU.nhit_policy st)) as Hpol.
  { revert st Hr.
    apply (reachable_invariant _ _
             (λ st, nhitlru_pol c N (ratio * c) (NHitLRU.nhit_policy st))).
    - intros s0 [= <-]. unfold nhitlru_pol. simpl.
      split_and!; [done|done|done|nia|apply NoDup_nil_2| |rewrite map_size_empty; nia|].
      + intros k. rewrite dom_empty_L. split; intros H; [by apply elem_of_nil in H|].
        by apply not_elem_of_empty in H.
      + intros k n H. by rewrite lookup_empty in H.
    - intros s1 s2 Hpol (r & Hstep). by eapply nhitlru_request_pol. }
  destruct (nhitlru_reachable_tracker c trigger N ratio st Hc Hratio Hr) as [Hsafe Htr].
  destruct Hpol as (_ & _ & _ & _ & Hnd & Hkeys & Hsz & Hge).
  split_and!; [done|done|done|done|].
  intros Hbig r.
  destruct (nhitlru_request_total c st r Hc Hbig Hsafe Htr) as (st' & Heq & _).
  by exists st'.
Qed.

Lemma nhitlru_loop_reachable c trig N ratio rows st st' :
  reachable (nhitlru_init c trig N ratio) nhitlru_step st →
  for_each NHitLRU.request rows st = Returns st' →
  reachable (nhitlru_init c trig N ratio) nhitlru_step st'.
Proof.
  revert st. induction rows as [|r rows IH]; intros st Hr Hloop.
  - by injection Hloop as <-.
  - change (for_each NHitLRU.request (r :: rows) st)
      with (NHitLRU.request st r ≫= for_each NHitLRU.request rows) in Hloop.
    apply bind_returns in Hloop as (st1 & H1 & H2).
    apply (IH st1); [|done]. eapply reach_step; [done|]. by exists r.
Qed.

(** Capacity 1, trigger 0, N = 2, ratio 2, after the keys 1, 2, 3, 2: key 2
    is cached (promoted on its second request, it replaced key 1) and key 3 is
    tracked. *)
Definition nhitlru_s_rows : list (Z * string) :=
  [(1, "read"); (2, "Read "); (3, "WRITE"); (2, "write")]%string.

Definition nhitlru_s_start : NHitLRU.Sim :=
  NHitLRU.start {| NHitLRU.capacity := 1; NHitLRU.cache := OD.empty |}
    {| NHitLRU.trigger_threshold := 0%float; NHitLRU.N := 2;
       NHitLRU.cache_capacity := 1; NHitLRU.max_tracked_items := 2;
       NHitLRU.access_counts := ∅; NHitLRU.tracking_queue := [] |}.

Definition nhitlru_s_state : NHitLRU.Sim :=
  Eval vm_compute in
    match for_each NHitLRU.request nhitlru_s_rows nhitlru_s_start with
    | Returns st => st
    | _ => nhitlru_s_start
    end.

Lemma nhitlru_s_reachable :
  reachable (nhitlru_init 1 0%float 2 2) nhitlru_step nhitlru_s_state.
Proof.
  eapply (nhitlru_loop_reachable 1 0%float 2 2 nhitlru_s_rows).
  - apply reach_init. reflexivity.
  - vm_compute. reflexivity.
Qed.

Lemma X17_nhitlru_tracker_bounded_witness :
  Z.of_nat (size (NHitLRU.access_counts (NHitLRU.nhit_policy nhitlru_s_state))) ≤ 2 * 1 ∧
  NoDup (NHitLRU.tracking_queue (NHitLRU.nhit_policy nhitlru_s_state)) ∧
  (∀ k, k ∈ NHitLRU.tracking_queue (NHitLRU.nhit_policy nhitlru_s_state)
        ↔ k ∈ dom (NHitLRU.access_counts (NHitLRU.nhit_policy nhitlru_s_state))) ∧
  (∀ k n, NHitLRU.access_counts (NHitLRU.nhit_policy nhitlru_s_state) !! k = Some n →
          1 ≤ n) ∧
  ∀ r, returns (NHitLRU.request nhitlru_s_state r).
Proof.
  destruct (X17_nhitlru_tracker_bounded 1 0%float 2 2 nhitlru_s_state)
    as (Hsz & Hnd & Hkeys & Hge & Hret); [lia|lia|apply nhitlru_s_reachable|].
  split_and!; [exact Hsz|exact Hnd|exact Hkeys|exact Hge|].
  apply Hret. by vm_compute.
Defined.

(** ** N-Hit over LRU with [N <= 1]: plain LRU *)

(** The rows [simulate_nhit_lru] serves: the operation, stripped and in
    lower case, is "read" or "write". *)
Definition nhitlru_served (r : Z * string) : Prop :=
  NHitLRU.lower (NHitLRU.strip r.2) = "read"%string ∨
  NHitLRU.lower (NHitLRU.strip r.2) = "write"%string.

#[global] Instance nhitlru_served_dec r : Decision (nhitlru_served r).
Proof. unfold nhitlru_served. apply _. Defined.

(** With [N <= 1] every miss is promoted: the key was just counted. *)
Lemma nhitlru_always_promotes c N M pol item n occ :
  0 < c → c < PyFloat.overflow_at → 0 ≤ occ ≤ c →
  N ≤ 1 → nhitlru_pol c N M pol →
  NHitLRU.access_counts pol !! item = Some n → 1 ≤ n →
  NHitLRU.should_promote pol item false occ = Returns true.
Proof.
  intros Hc Hbig Hocc HN (Hcap & HNp & _) Hn Hge.
  unfold NHitLRU.should_promote, PyFloat.truediv_int. rewrite Hcap, HNp, Hn.
  rewrite (of_int_below occ c) by lia. simpl.
  rewrite (of_int_returns c) by lia. simpl.
  destruct (Z.eqb_spec c 0) as [?|_]; [lia|]. simpl.
  match goal with |- context [if PyFloat.le ?a ?b || false then _ else _] =>
    destruct (PyFloat.le a b) end; simpl; [done|].
  destruct (Z.geb_spec n N); [done|lia].
Qed.

(** [insert] of an absent key and the miss path of [LRU.py] leave the same
    store. *)
Lemma nhitlru_insert_as_lru c store item :
  0 < c → item ∉ store →
  ∃ ev, NHitLRU.insert {| NHitLRU.capacity := c; NHitLRU.cache := store |} item
        = Returns (ev, {| NHitLRU.capacity := c;
                          NHitLRU.cache :=
                            (if OD.len store >=? c then tail store else store)
                              ++ [item] |}).
Proof.
  intros Hc Hnew. unfold NHitLRU.insert. simpl.
  apply OD_contains_false in Hnew. rewrite Hnew. unfold OD.set. rewrite Hnew.
  unfold OD.len. rewrite length_app. simpl.
  destruct (Z.gtb_spec (Z.of_nat (length store + 1)) c) as [Hover|Hok].
  - destruct (Z.geb_spec (Z.of_nat (length store)) c) as [_|?]; [|lia].
    destruct store as [|old rest]; [simpl in Hover; lia|]. simpl. eauto.
  - destruct (Z.geb_spec (Z.of_nat (length store)) c) as [?|_]; [lia|]. simpl. eauto.
Qed.

(** The two drivers side by side. *)
Definition nhitlru_as_lru (c N M : Z) (stL : LRU.Sim) (stN : NHitLRU.Sim) : Prop :=
  lru_inv c (LRU.engine stL) ∧
  NHitLRU.capacity (NHitLRU.lru_cache stN) = c ∧
  NHitLRU.cache (NHitLRU.lru_cache stN) = LRU.cache_store (LRU.engine stL) ∧
  NHitLRU.log stN = LRU.log stL ∧
  nhitlru_pol c N M (NHitLRU.nhit_policy stN) ∧
  NHitLRU.read_hits stN + NHitLRU.write_hits stN = lru_hits stL ∧
  NHitLRU.read_requests stN + NHitLRU.write_requests stN
    = LRU.read_requests stL + LRU.write_requests stL.

Lemma nhitlru_as_lru_served c N M stL stN r :
  0 < c → c < PyFloat.overflow_at → N ≤ 1 → nhitlru_served r →
  nhitlru_as_lru c N M stL stN →
  ∃ stL' stN', LRU.request stL r = Returns stL' ∧
               NHitLRU.request stN r = Returns stN' ∧
               nhitlru_as_lru c N M stL' stN'.
Proof.
  intros Hc Hbig HN Hs (HL & Hcap & Hcache & Hlog & Hpol & Hhits & Hreqs).
  destruct r as [item op]. unfold nhitlru_served in Hs. simpl in Hs.
  assert (0 ≤ NHitLRU.occupancy (NHitLRU.lru_cache stN) ≤ c) as Hocc.
  { unfold NHitLRU.occupancy. rewrite Hcache. destruct HL as (_ & _ & HlenL).
    unfold OD.len in *. lia. }
  destruct (lru_access_spec c (LRU.engine stL) item Hc HL) as (eL0 & HaccL0 & HL' & _).
  destruct (lru_access_shape c (LRU.engine stL) item Hc HL) as (eL & HaccL & HcapL & HstoreL).
  assert (eL0 = eL) as -> by congruence. clear HaccL0.
  (* the LRU driver *)
  assert (∃ stL', LRU.request stL (item, op) = Returns stL' ∧ LRU.engine stL' = eL ∧
            LRU.log stL' = LRU.log stL ++ [OD.contains item (LRU.cache_store (LRU.engine stL))] ∧
            lru_hits stL' = lru_hits stL +
              (if OD.contains item (LRU.cache_store (LRU.engine stL)) then 1 else 0) ∧
            LRU.read_requests stL' + LRU.write_requests stL'
              = LRU.read_requests stL + LRU.write_requests stL + 1)
    as (stL' & HreqL & HengL & HlogL & HhitsL & HreqsL).
  { unfold LRU.request. rewrite HaccL. simpl.
    destruct (String.eqb op "Read"); eexists; (split; [reflexivity|]);
      unfold lru_hits; simpl;
      destruct (OD.contains item (LRU.cache_store (LRU.engine stL)));
      split_and!; try done; lia. }
  (* the N-Hit over LRU driver *)
  destruct (nhitlru_record_access_pol c N M _ item Hpol) as (pol & n & Hrec & Hpol1 & Hn & Hge & _).
  assert (∃ lru' pol',
    (if NHitLRU.is_present (NHitLRU.lru_cache stN) item
     then Returns ((NHitLRU.access (NHitLRU.lru_cache stN) item).2, pol)
     else NHitLRU.on_miss (NHitLRU.lru_cache stN) pol item
            (NHitLRU.is_present (NHitLRU.lru_cache stN) item)) = Returns (lru', pol') ∧
    NHitLRU.capacity lru' = c ∧ NHitLRU.cache lru' = LRU.cache_store eL ∧
    nhitlru_pol c N M pol') as (lru' & pol' & Hb & Hcap' & Hcache' & Hpol').
  { unfold NHitLRU.is_present. rewrite Hcache.
    destruct (OD.contains item (LRU.cache_store (LRU.engine stL))) eqn:E.
    - eexists _, _. split; [reflexivity|]. unfold NHitLRU.access.
      rewrite Hcache, E. simpl. rewrite HstoreL. by split_and!.
    - unfold NHitLRU.on_miss.
      rewrite (nhitlru_always_promotes c N M pol item n _ Hc Hbig Hocc HN Hpol1 Hn Hge).
      simpl.
      apply OD_contains_false in E.
      destruct (nhitlru_insert_as_lru c (LRU.cache_store (LRU.engine stL)) item Hc E)
        as (ev & Hins).
      destruct (NHitLRU.lru_cache stN) as [capN cacheN]. simpl in *. subst capN cacheN.
      rewrite Hins. simpl. eexists _, _. split; [reflexivity|]. simpl.
      rewrite HstoreL. split_and!; [done|done|].
      by apply nhitlru_remove_from_tracking_pol. }
  assert (NHitLRU.is_present (NHitLRU.lru_cache stN) item
          = OD.contains item (LRU.cache_store (LRU.engine stL))) as Hpres.
  { unfold NHitLRU.is_present. by rewrite Hcache. }
  exists stL'. unfold NHitLRU.request. rewrite Hrec. simpl.
  destruct Hs as [Hs|Hs]; rewrite Hs; simpl; rewrite Hb; simpl;
    (eexists; split; [exact HreqL|]; split; [reflexivity|]);
    unfold nhitlru_as_lru; simpl; rewrite HengL, HlogL, HhitsL, HreqsL, Hpres;
    (split_and!; [done|done|done|by rewrite Hlog|done| |lia]);
    destruct (OD.contains item (LRU.cache_store (LRU.engine stL))); lia.
Qed.

Lemma nhitlru_as_lru_skipped c N M stL stN r :
  ¬ nhitlru_served r →
  nhitlru_as_lru c N M stL stN →
  ∃ stN', NHitLRU.request stN r = Returns stN' ∧ nhitlru_as_lru c N M stL stN'.
Proof.
  intros Hs (HL & Hcap & Hcache & Hlog & Hpol & Hhits & Hreqs).
  destruct r as [item op]. unfold nhitlru_served in Hs. simpl in Hs.
  destruct (nhitlru_record_access_pol c N M _ item Hpol) as (pol & n & Hrec & Hpol1 & _).
  unfold NHitLRU.request. rewrite Hrec. simpl.
  destruct (String.eqb_spec (NHitLRU.lower (NHitLRU.strip op)) "read"); [tauto|].
  destruct (String.eqb_spec (NHitLRU.lower (NHitLRU.strip op)) "write"); [tauto|].
  eexists. split; [reflexivity|]. by split_and!.
Qed.

Lemma nhitlru_as_lru_loop c N M rows :
  0 < c → c < PyFloat.overflow_at → N ≤ 1 →
  ∀ stL stN, nhitlru_as_lru c N M stL stN →
    ∃ stL' stN',
      for_each LRU.request (filter nhitlru_served rows) stL = Returns stL' ∧
      for_each NHitLRU.request rows stN = Returns stN' ∧
      nhitlru_as_lru c N M stL' stN'.
Proof.
  intros Hc Hbig HN. induction rows as [|r rows IH]; intros stL stN HJ.
  - exists stL, stN. by split_and!.
  - change (for_each NHitLRU.request (r :: rows) stN)
      with (NHitLRU.request stN r ≫= for_each NHitLRU.request rows).
    rewrite filter_cons. destruct (decide (nhitlru_served r)) as [Hs|Hs].
    + destruct (nhitlru_as_lru_served c N M stL stN r Hc Hbig HN Hs HJ)
        as (stL1 & stN1 & HreqL & HreqN & HJ1).
      change (for_each LRU.request (r :: filter nhitlru_served rows) stL)
        with (LRU.request stL r ≫= for_each LRU.request (filter nhitlru_served rows)).
      rewrite HreqL, HreqN. simpl. by apply IH.
    + destruct (nhitlru_as_lru_skipped c N M stL stN r Hs HJ) as (stN1 & HreqN & HJ1).
      rewrite HreqN. simpl. by apply IH.
Qed.

(** X18. With [N <= 1] the N-Hit filter admits every miss, and N-Hit over
    LRU is plain LRU on the rows it serves. For a positive cache size below
    2^1024 - 2^970 (which [should_promote] can convert to a float) and a
    positive tracking ratio, both simulations return, with the same hit log,
    the same final store in the same order, and the same totals of requests
    and hits, whatever the trigger threshold. *)
Theorem X18_nhitlru_with_N_at_most_1_is_lru
  (c : Z) (trigger : float) (N ratio : Z) (rows : list (Z * string)) :
  0 < c → c < PyFloat.overflow_at → 0 < ratio → N ≤ 1 →
  ∃ totals st stats e log,
    NHitLRU.simulate c trigger N ratio rows = Returns (totals, st) ∧
    LRU.simulate c (filter nhitlru_served rows) = Returns (stats, e, log) ∧
    NHitLRU.log st = log ∧
    NHitLRU.cache (NHitLRU.lru_cache st) = LRU.cache_store e ∧
    NHitLRU.t_total_requests totals = total_req stats ∧
    NHitLRU.t_total_hits totals = total_hit stats.
Proof.
  intros Hc Hbig Hratio HN. unfold NHitLRU.simulate, LRU.simulate. simpl.
  edestruct (nhitlru_as_lru_loop c N (ratio * c) rows Hc Hbig HN)
    as (stL & stN & HL & HNl & (_ & _ & Hcache & Hlog & _ & Hhits & Hreqs)).
  2:{ rewrite HL, HNl. simpl. eexists _, _, _, _, _. split_and!; [reflexivity..| | | |].
      - exact Hlog.
      - exact Hcache.
      - simpl. exact Hreqs.
      - simpl. unfold lru_hits in Hhits. lia. }
  unfold nhitlru_as_lru, nhitlru_pol, lru_hits. simpl.
  split_and!; try done; try nia.
  - split_and!; simpl; [done|apply NoDup_nil_2|unfold OD.len; simpl; lia].
  - apply NoDup_nil_2.
  - intros k. rewrite dom_empty_L. split; intros H; [by apply elem_of_nil in H|].
    by apply not_elem_of_empty in H.
  - rewrite map_size_empty. nia.
Qed.

(** Four rows with white space around the operation: U+001F after "read",
    U+00A0 before "Read", U+0085 and a space around "WRITE"; the last row is
    no request. *)
Definition nhitlru_ws_rows : list (Z * string) :=
  [(1, "read" ++ String (Ascii.ascii_of_nat 31) "");
   (1, String (Ascii.ascii_of_nat 160) "Read");
   (2, String (Ascii.ascii_of_nat 133) "WRITE ");
   (1, "re ad")]%string.

Lemma X18_nhitlru_with_N_at_most_1_is_lru_witness :
  ∃ totals st stats e log,
    NHitLRU.simulate 1 0%float 1 2 nhitlru_ws_rows = Returns (totals, st) ∧
    LRU.simulate 1 (filter nhitlru_served nhitlru_ws_rows) = Returns (stats, e, log) ∧
    NHitLRU.log st = log ∧
    NHitLRU.cache (NHitLRU.lru_cache st) = LRU.cache_store e ∧
    NHitLRU.t_total_requests totals = total_req stats ∧
    NHitLRU.t_total_hits totals = total_hit stats.
Proof.
  apply (X18_nhitlru_with_N_at_most_1_is_lru 1 0%float 1 2 nhitlru_ws_rows);
    [lia|by vm_compute|lia|lia].
Defined.

(** ** N-Hit over LRU: what the driver counts *)

(** The operation of a row as the driver compares it. *)
Definition nhitlru_op (r : Z * string) : string := NHitLRU.lower (NHitLRU.strip r.2).

(** The N-Hit over LRU driver after the rows [h]. *)
Definition nhitlru_acct (h : list (Z * string)) (st : NHitLRU.Sim) : Prop :=
  Z.of_nat (length (NHitLRU.log st)) = count_if nhitlru_served h ∧
  NHitLRU.read_requests st = count_if (λ r, nhitlru_op r = "read"%string) h ∧
  NHitLRU.write_requests st = count_if (λ r, nhitlru_op r = "write"%string) h ∧
  NHitLRU.read_hits st + NHitLRU.write_hits st
    = count_if (λ b, b = true) (NHitLRU.log st) ∧
  0 ≤ NHitLRU.read_hits st ≤ NHitLRU.read_requests st ∧
  0 ≤ NHitLRU.write_hits st ≤ NHitLRU.write_requests st.

Lemma nhitlru_request_acct h st r st' :
  nhitlru_acct h st → NHitLRU.request st r = Returns st' → nhitlru_acct (h ++ [r]) st'.
Proof.
  intros (Hlen & Hrd & Hwr & Hhit & Hrh & Hwh) Hreq. destruct r as [item op].
  unfold NHitLRU.request in Hreq.
  apply bind_returns in Hreq as (pol & _ & Hreq).
  unfold nhitlru_acct. rewrite !count_if_app, !count_if_cons, !count_if_nil.
  unfold nhitlru_served, nhitlru_op in *. cbn [snd].
  destruct (String.eqb_spec (NHitLRU.lower (NHitLRU.strip op)) "read") as [Hr|Hr].
  { apply bind_returns in Hreq as ([lru' pol'] & _ & [= <-]). cbn.
    rewrite length_app, count_if_app, count_if_cons, count_if_nil. cbn [length].
    destruct (NHitLRU.is_present _ _);
      dec_goal; try done; try (exfalso; tauto); try congruence; split_and!; lia. }
  destruct (String.eqb_spec (NHitLRU.lower (NHitLRU.strip op)) "write") as [Hw|Hw].
  { apply bind_returns in Hreq as ([lru' pol'] & _ & [= <-]). cbn.
    rewrite length_app, count_if_app, count_if_cons, count_if_nil. cbn [length].
    destruct (NHitLRU.is_present _ _);
      dec_goal; try done; try (exfalso; tauto); try congruence; split_and!; lia. }
  injection Hreq as <-. cbn.
  dec_goal; try done; try (exfalso; tauto); split_and!; lia.
Qed.

Lemma nhitlru_loop_acct rows lru pol st :
  for_each NHitLRU.request rows (NHitLRU.start lru pol) = Returns st →
  nhitlru_acct rows st.
Proof.
  revert st. induction rows as [|r rows IH] using rev_ind; intros st Hloop.
  - injection Hloop as <-. unfold nhitlru_acct, count_if. simpl. split_and!; lia.
  - rewrite for_each_snoc in Hloop. apply bind_returns in Hloop as (st1 & H1 & H2).
    eapply nhitlru_request_acct; [|exact H2]. by apply IH.
Qed.

(** X19. What the N-Hit over LRU driver counts, in a run that returns. A
    row is a request only if its operation, stripped of surrounding white
    space and put in lower case, is "read" or "write": the log has one entry
    per such row and the two request counters count them by kind; every
    other row is no request. The total hits are the hits of the log, and the
    total misses, computed as requests minus hits, are its misses. *)
Theorem X19_nhitlru_driver_accounting
  (c : Z) (trigger : float) (N ratio : Z) (rows : list (Z * string))
  (totals : NHitLRU.Totals) (st : NHitLRU.Sim) :
  NHitLRU.simulate c trigger N ratio rows = Returns (totals, st) →
  Z.of_nat (length (NHitLRU.log st)) = count_if nhitlru_served rows ∧
  NHitLRU.t_read_requests totals
    = count_if (λ r, nhitlru_op r = "read"%string) rows ∧
  NHitLRU.t_write_requests totals
    = count_if (λ r, nhitlru_op r = "write"%string) rows ∧
  NHitLRU.t_total_requests totals = count_if nhitlru_served rows ∧
  NHitLRU.t_total_hits totals = count_if (λ b, b = true) (NHitLRU.log st) ∧
  NHitLRU.t_total_misses totals = count_if (λ b, b = false) (NHitLRU.log st) ∧
  0 ≤ NHitLRU.t_read_hits totals ≤ NHitLRU.t_read_requests totals ∧
  0 ≤ NHitLRU.t_write_hits totals ≤ NHitLRU.t_write_requests totals.
Proof.
  unfold NHitLRU.simulate. simpl. intros H.
  apply bind_returns in H as (st' & Hloop & [= <- <-]).
  apply nhitlru_loop_acct in Hloop as (Hlen & Hrd & Hwr & Hhit & Hrh & Hwh).
  assert (count_if nhitlru_served rows
          = count_if (λ r, nhitlru_op r = "read"%string) rows
            + count_if (λ r, nhitlru_op r = "write"%string) rows) as Hsplit.
  { clear. induction rows as [|r rows IH]; [done|].
    rewrite !count_if_cons, IH. unfold nhitlru_served, nhitlru_op.
    dec_goal; try lia; try (exfalso; tauto). congruence. }
  assert (count_if (λ b, b = true) (NHitLRU.log st')
          + count_if (λ b, b = false) (NHitLRU.log st')
          = Z.of_nat (length (NHitLRU.log st'))) as Hsum.
  { clear. induction (NHitLRU.log st') as [|[|] l IH]; [done|..];
      rewrite !count_if_cons; simpl; dec_goal; try done; lia. }
  simpl. split_and!; lia.
Qed.

Lemma X19_nhitlru_driver_accounting_witness :
  ∃ totals st,
    NHitLRU.simulate 1 0%float 2 2 nhitlru_ws_rows = Returns (totals, st) ∧
    Z.of_nat (length (NHitLRU.log st)) = count_if nhitlru_served nhitlru_ws_rows ∧
    NHitLRU.t_read_requests totals
      = count_if (λ r, nhitlru_op r = "read"%string) nhitlru_ws_rows ∧
    NHitLRU.t_write_requests totals
      = count_if (λ r, nhitlru_op r = "write"%string) nhitlru_ws_rows ∧
    NHitLRU.t_total_requests totals = count_if nhitlru_served nhitlru_ws_rows ∧
    NHitLRU.t_total_hits totals = count_if (λ b, b = true) (NHitLRU.log st) ∧
    NHitLRU.t_total_misses totals = count_if (λ b, b = false) (NHitLRU.log st) ∧
    0 ≤ NHitLRU.t_read_hits totals ≤ NHitLRU.t_read_requests totals ∧
    0 ≤ NHitLRU.t_write_hits totals ≤ NHitLRU.t_write_requests totals.
Proof.
  assert (∃ totals st,
            NHitLRU.simulate 1 0%float 2 2 nhitlru_ws_rows = Returns (totals, st))
    as (totals & st & Hrun) by (eexists _, _; vm_compute; reflexivity).
  exists totals, st. split; [exact Hrun|].
  exact (X19_nhitlru_driver_accounting 1 0%float 2 2 nhitlru_ws_rows totals st Hrun).
Defined.
